(** * smaaDemo renderer core: ring-buffer allocator, shader cache and
      frame state machine

    A shallow embedding of [renderer/RendererCommon.cpp] and of the OpenGL
    back end of the renderer, together with the properties the design
    document states about them.

    Conventions.
    - [unsigned int] values are integers in [Z]; every C++ operation that
      can leave the 32-bit range is followed by [u32], the reduction
      modulo [2^32].
    - [assert(...)] is a guard: a failing guard ends the call with
      [AssertFail].  [throw std::runtime_error] ends it with
      [RuntimeError]; undefined behaviour (a division by zero, a read past
      the end of an array) ends it with [Undefined].
    - Member variables that a function writes are fields of an explicit
      state record which the function returns. *)

From Stdlib Require Import ZArith Lia Bool List Ascii String.
From stdpp Require Import base option list sorting gmap strings.

Local Open Scope Z_scope.

(* ===================================================================== *)
(** * Part I: the program                                                 *)
(* ===================================================================== *)

(** ** Outcomes of a call *)

Inductive result (A : Type) : Type :=
| Ok (a : A)
| AssertFail
| RuntimeError
| Undefined.

Arguments Ok {A} a.
Arguments AssertFail {A}.
Arguments RuntimeError {A}.
Arguments Undefined {A}.

#[global] Instance result_ret : MRet result := fun A a => Ok a.

#[global] Instance result_bind : MBind result := fun A B k r =>
  match r with
  | Ok a => k a
  | AssertFail => AssertFail
  | RuntimeError => RuntimeError
  | Undefined => Undefined
  end.

(** [assert(c)] *)
Definition assert (c : bool) : result unit :=
  if c then Ok tt else AssertFail.

(** ** 32-bit unsigned arithmetic *)

Definition u32 (z : Z) : Z := z mod 2 ^ 32.

(** [~x] on an [unsigned int] *)
Definition u32not (x : Z) : Z := u32 (Z.lnot x).

Definition isU32 (z : Z) : Prop := 0 <= z < 2 ^ 32.

(** Modelled from the spec: [isPow2] of utils/Utils.h is not part of the
    sources at hand; the design says of the value it guards that the
    "alignment is a power of two". *)
Definition isPow2 (v : Z) : bool := (0 <? v) && (v =? 2 ^ Z.log2 v).

(** Modelled from the spec: [nextPow2] of utils/Utils.h is not part of the
    sources at hand; the design describes its result as "the next power of
    two >= size".  The result is an [unsigned int]. *)
Definition nextPow2 (v : Z) : Z := u32 (2 ^ Z.log2_up v).

(** ** The ring-buffer allocator (RendererCommon.cpp) *)

Module Ring.

(** The three members of the renderer that the allocator reads and writes.
    [lastSyncedRingBufPtr] is declared in a header that is not part of the
    sources at hand; it is taken to be an [unsigned int], as the cursor
    is. *)
Record State : Type := mkState {
  ringBufSize : Z;
  ringBufPtr : Z;
  lastSyncedRingBufPtr : Z
}.

(** Modelled from the spec: [recreateRingBuffer] lives in the back ends,
    which are not part of the sources at hand.  The design says that "the
    buffer is reallocated larger ... and the cursor reset to 0"; the caller
    asserts [ringBufPtr == 0] right after the call.  Nothing is said about
    the synchronisation mark, which is left as it is. *)
Definition recreateRingBuffer (st : State) (newSize : Z) : State :=
  {| ringBufSize := newSize;
     ringBufPtr := 0;
     lastSyncedRingBufPtr := lastSyncedRingBufPtr st |}.

(** [x % ringBufSize] *)
Definition umod (x m : Z) : result Z :=
  if m =? 0 then Undefined else Ok (x mod m).

(** [x / ringBufSize] *)
Definition udiv (x m : Z) : result Z :=
  if m =? 0 then Undefined else Ok (x / m).

(** The first [if]: a request larger than the whole buffer. *)
Definition growFor (st : State) (size : Z) : result State :=
  if ringBufSize st <? size then
    let newSize := nextPow2 size in
    let st := recreateRingBuffer st newSize in
    assert (ringBufPtr st =? 0) ;;
    Ok st
  else Ok st.

(** The second [if]: the aligned block does not fit before the end.
    Returns the state together with [alignedPtr] and [beginPtr]. *)
Definition wrapAround (st : State) (size add mask alignedPtr beginPtr : Z)
  : result (State * Z * Z) :=
  if ringBufSize st <=? u32 (beginPtr + size) then
    q ← udiv (ringBufPtr st) (ringBufSize st);
    let st := {| ringBufSize := ringBufSize st;
                 ringBufPtr := u32 (u32 (q + 1) * ringBufSize st);
                 lastSyncedRingBufPtr := lastSyncedRingBufPtr st |} in
    assert (Z.land (ringBufPtr st) (u32not mask) =? 0) ;;
    let alignedPtr := Z.land (u32 (ringBufPtr st + add)) mask in
    beginPtr ← umod alignedPtr (ringBufSize st);
    assert (u32 (beginPtr + size) <? ringBufSize st) ;;
    assert (beginPtr =? 0) ;;
    Ok (st, alignedPtr, beginPtr)
  else Ok (st, alignedPtr, beginPtr).

(** The third [if]: the cursor has lapped the synchronisation mark. *)
Definition outOfSpace (st : State) (size beginPtr : Z) : result (Z * State) :=
  if u32 (lastSyncedRingBufPtr st + ringBufSize st) <=? ringBufPtr st then
    let newSize := u32 (ringBufSize st * 2) in
    assert (size <? newSize) ;;
    let st := recreateRingBuffer st newSize in
    assert (ringBufPtr st =? 0) ;;
    let beginPtr := 0 in
    let st := {| ringBufSize := ringBufSize st;
                 ringBufPtr := size;
                 lastSyncedRingBufPtr := lastSyncedRingBufPtr st |} in
    Ok (beginPtr, st)
  else Ok (beginPtr, st).

(** [RendererImpl::ringBufferAllocate] *)
Definition ringBufferAllocate (st : State) (size alignment : Z)
  : result (Z * State) :=
  assert (negb (alignment =? 0)) ;;
  assert (isPow2 alignment) ;;
  st ← growFor st size;
  let add := u32 (alignment - 1) in
  let mask := u32not add in
  let alignedPtr := Z.land (u32 (ringBufPtr st + add)) mask in
  assert (ringBufPtr st <=? alignedPtr) ;;
  beginPtr ← umod alignedPtr (ringBufSize st);
  '(st, alignedPtr, beginPtr) ← wrapAround st size add mask alignedPtr beginPtr;
  let st := {| ringBufSize := ringBufSize st;
               ringBufPtr := u32 (alignedPtr + size);
               lastSyncedRingBufPtr := lastSyncedRingBufPtr st |} in
  outOfSpace st size beginPtr.

(** A run of the allocator: the calls made, what each returned, and the
    capacity before and after each of them. *)
Record Event : Type := mkEvent {
  evSize : Z;
  evAlignment : Z;
  evCapacityBefore : Z;
  evOffset : Z;
  evCapacityAfter : Z
}.

Inductive run : State -> list Event -> State -> Prop :=
| run_nil st : run st [] st
| run_cons st size alignment offset st1 evs st2 :
    ringBufferAllocate st size alignment = Ok (offset, st1) ->
    run st1 evs st2 ->
    run st
        (mkEvent size alignment (ringBufSize st) offset (ringBufSize st1) :: evs)
        st2.

End Ring.


(** ** The shader cache (RendererCommon.cpp) *)

Module Cache.

(** *** Text and numbers, as the C and C++ libraries print and read them *)

Definition charCode (c : ascii) : Z := Z.of_N (N_of_ascii c).

(** The digit [d] of a number printed by [operator<<]; [std::hex] prints
    lower-case letters. *)
Definition digitChar (d : Z) : ascii :=
  if d <? 10 then ascii_of_N (Z.to_N (48 + d)) else ascii_of_N (Z.to_N (87 + d)).

Fixpoint showDigits (base : Z) (fuel : nat) (n : Z) (acc : string) : string :=
  match fuel with
  | O => acc
  | S fuel =>
      let acc := String (digitChar (n mod base)) acc in
      if n / base =? 0 then acc else showDigits base fuel (n / base) acc
  end.

(** [stream << version], an [unsigned int] in decimal: at most 10 digits. *)
Definition showDec (n : Z) : string := showDigits 10 10 n "".

(** [stream << std::hex << hash], a [uint64_t]: at most 16 digits. *)
Definition showHex (n : Z) : string := showDigits 16 16 n "".

(** The value of a character as a digit, letters in either case. *)
Definition digitValue (c : ascii) : option Z :=
  let n := charCode c in
  if (48 <=? n) && (n <=? 57) then Some (n - 48)
  else if (97 <=? n) && (n <=? 102) then Some (n - 87)
  else if (65 <=? n) && (n <=? 70) then Some (n - 55)
  else None.

Definition digitIn (base : Z) (c : ascii) : option Z :=
  match digitValue c with
  | Some d => if d <? base then Some d else None
  | None => None
  end.

(** [isspace] in the C locale *)
Definition isspace (c : ascii) : bool :=
  let n := charCode c in (n =? 32) || ((9 <=? n) && (n <=? 13)).

Fixpoint skipSpace (s : string) : string :=
  match s with
  | String c s' => if isspace c then skipSpace s' else s
  | EmptyString => s
  end.

(** An optional sign; [true] for a minus. *)
Definition readSign (s : string) : bool * string :=
  match s with
  | String "-" s' => (true, s')
  | String "+" s' => (false, s')
  | _ => (false, s)
  end.

(** The longest run of digits at the head of [s], accumulated from the
    left; the flag tells whether a digit was read at all. *)
Fixpoint readDigits (base : Z) (s : string) (acc : Z) (seen : bool) : Z * bool :=
  match s with
  | String c s' =>
      match digitIn base c with
      | Some d => readDigits base s' (acc * base + d) true
      | None => (acc, seen)
      end
  | EmptyString => (acc, seen)
  end.

(** [atoi]: white space, a sign, decimal digits; 0 when there is no
    digit.  A value outside [int] is undefined in C; the number read is
    returned as it is and reduced by the conversion at the call site. *)
Definition atoi (s : string) : Z :=
  let s := skipSpace s in
  let '(neg, s) := readSign s in
  let '(v, _) := readDigits 10 s 0 false in
  if neg then - v else v.

(** The optional [0x] of [strtoull] in base 16, taken only in front of a
    digit. *)
Definition skipHexPrefix (s : string) : string :=
  match s with
  | String "0" (String x (String c s')) =>
      if ((charCode x =? 120) || (charCode x =? 88)) && bool_decide (is_Some (digitIn 16 c))
      then String c s' else s
  | _ => s
  end.

(** [std::stoull(str, nullptr, 16)]; [None] stands for the two exceptions
    it throws: [invalid_argument] when no digit can be read and
    [out_of_range] when the number does not fit 64 bits. *)
Definition stoull16 (s : string) : option Z :=
  let s := skipSpace s in
  let '(neg, s) := readSign s in
  let s := skipHexPrefix s in
  let '(v, seen) := readDigits 16 s 0 false in
  if negb seen then None
  else if 2 ^ 64 <=? v then None
  else Some (if neg then (- v) mod 2 ^ 64 else v).

(** [boost::algorithm::split] with the predicate [c == ','] and adjacent
    separators not merged: the pieces between the separators, one piece for
    a text without separator. *)
Fixpoint split (sep : ascii) (s : string) : list string :=
  match s with
  | EmptyString => [EmptyString]
  | String c s' =>
      if Ascii.eqb c sep then EmptyString :: split sep s'
      else match split sep s' with
           | tok :: rest => String c tok :: rest
           | [] => [String c EmptyString]
           end
  end.

(** *** CacheData *)

Definition shaderVersion : Z := 20.

Record CacheData : Type := mkCacheData {
  version : Z;
  hash : Z;
  dependencies : list string
}.

(** [CacheData::parse] *)
Definition parse (cacheStr : string) : CacheData :=
  let split := split "," cacheStr in
  let cacheData := mkCacheData 0 0 [] in
  if (length split <? 2)%nat then cacheData
  else
    let cacheData :=
      mkCacheData (u32 (atoi (nth 0 split ""))) (hash cacheData) (dependencies cacheData) in
    if negb (version cacheData =? shaderVersion) then cacheData
    else
      match stoull16 (nth 1 split "") with
      | None => mkCacheData 0 (hash cacheData) (dependencies cacheData)
      | Some h =>
          let cacheData := mkCacheData (version cacheData) h (dependencies cacheData) in
          if (3 <=? length split)%nat
          then mkCacheData (version cacheData) (hash cacheData)
                           (dependencies cacheData ++ drop 2 split)
          else cacheData
      end.

(** [CacheData::serialize] *)
Definition serialize (c : CacheData) : string :=
  let cacheStr := showDec (version c) in
  let cacheStr := cacheStr +:+ "," +:+ showHex (hash c) in
  foldl (fun cacheStr f => cacheStr +:+ "," +:+ f) cacheStr (dependencies c).

(** *** Cache lookup *)

(** [snprintf(buffer, 9, "%08" PRIx64, hash)]: the number in hexadecimal,
    filled with zeros to eight characters, of which the buffer keeps the
    first eight. *)
Definition hex8 (h : Z) : string :=
  let digits := showHex h in
  let padded := String.concat "" (replicate (8 - String.length digits) "0"%string) +:+ digits in
  substring 0 8 padded.

(** [memcpy] of the file into 32-bit words (little-endian host). *)
Fixpoint wordsOf (bytes : string) : list Z :=
  match bytes with
  | String b0 (String b1 (String b2 (String b3 rest))) =>
      (charCode b0 + 2 ^ 8 * charCode b1 + 2 ^ 16 * charCode b2 + 2 ^ 24 * charCode b3)
        :: wordsOf rest
  | _ => []
  end.

Section FileSystem.

(** The file helpers of utils/Utils.h and the cache directory of the
    renderer are not part of the sources at hand; they are taken as
    they are called. *)
Variable spirvCacheDir : string.
Variable fileExists : string -> bool.
Variable readFile : string -> string.
Variable getFileTimestamp : string -> Z.

(** The loop over [cacheData.dependencies]: [true] when none of them is
    newer than the cache record. *)
Fixpoint dependenciesUpToDate (cacheTime : Z) (deps : list string) : bool :=
  match deps with
  | [] => true
  | filename :: deps =>
      let includeTime := getFileTimestamp filename in
      if cacheTime <? includeTime then false
      else dependenciesUpToDate cacheTime deps
  end.

(** [RendererBase::loadCachedSPV].  [None] is the result [false], which
    leaves [spirv] as it was; [Some words] is the result [true] with the
    words stored in [spirv].  Log lines are left out. *)
Definition loadCachedSPV (name shaderName : string) : option (list Z) :=
  let cacheName := spirvCacheDir +:+ shaderName +:+ ".cache" in
  if negb (fileExists cacheName) then None
  else
    let cacheData := parse (readFile cacheName) in
    if negb (version cacheData =? shaderVersion) then None
    else
      let buffer := hex8 (hash cacheData) in
      let spvName := spirvCacheDir +:+ buffer +:+ ".spv" in
      if negb (fileExists spvName) then None
      else
        let sourceTime := getFileTimestamp name in
        let cacheTime := getFileTimestamp cacheName in
        if cacheTime <? sourceTime then None
        else if negb (dependenciesUpToDate cacheTime (dependencies cacheData)) then None
        else
          let temp := readFile spvName in
          if negb (Z.of_nat (String.length temp) mod 4 =? 0) then None
          else Some (wordsOf temp).

End FileSystem.

(** *** The name of a shader variant *)

(** One macro as [compileSpirv] writes it: [NAME] or [NAME=VALUE]. *)
Definition macroString (macro : string * string) : string :=
  let s := macro.1 in
  if decide (macro.2 = "") then s else s +:+ "=" +:+ macro.2.

(** The first block of [RendererBase::compileSpirv]: the name under which
    the variant is looked up in the cache.  [std::sort] orders the strings
    byte by byte. *)
Definition shaderName (name : string) (macros : gmap string string) : string :=
  let sorted := merge_sort String.le (macroString <$> map_to_list macros) in
  foldl (fun shaderName s => shaderName +:+ ("_" +:+ s)) name sorted.

End Cache.


(** ** The OpenGL back end: resources and the frame state machine

    Of the calls into the OpenGL driver and into SDL only two leave a
    trace here: the creation of an object gives a new name, and linking a
    program succeeds or fails.  The state that the other calls set in the
    driver, and the contents of buffers and textures, are not modelled. *)

Module GL.

(** A handle is an index into the container that issued it; the null
    handle is 0, and [if (handle)] tests for it. *)
Abbreviation Handle := nat (only parsing).

Definition isValid (h : Handle) : bool := negb (h =? 0)%nat.

(** *** ResourceContainer *)

(** Modelled from the spec: the class template [ResourceContainer] is
    declared in a header that is not part of the sources at hand.  The
    design gives it the operations [add() -> (T&, Handle)], which "returns a
    fresh record plus its Handle", [get(Handle) -> T&], which "fails with
    InvalidHandle if absent ... implemented as an assertion-class failure",
    [remove(Handle)] and [removeWith(Handle, cleanupFn)], which "release
    backend resources via a caller-supplied cleanup closure before
    deallocating the slot".  A container is a finite map from handles to
    records. *)
Module ResourceContainer.

Definition add {T : Type} (initial : T) (c : gmap nat T) : Handle * gmap nat T :=
  let handle := fresh ({[0%nat]} ∪ dom c) in
  (handle, <[handle := initial]> c).

Definition get {T : Type} (c : gmap nat T) (handle : Handle) : result T :=
  match c !! handle with
  | Some r => Ok r
  | None => AssertFail
  end.

Definition remove {T : Type} (c : gmap nat T) (handle : Handle) : result (gmap nat T) :=
  match c !! handle with
  | Some _ => Ok (delete handle c)
  | None => AssertFail
  end.

Definition removeWith {T : Type} (c : gmap nat T) (handle : Handle)
    (cleanup : T -> result T) : result (gmap nat T) :=
  r ← get c handle;
  cleanup r ;;
  Ok (delete handle c).

End ResourceContainer.

(** *** Enumerations *)

Module DescriptorType.
Inductive t : Type :=
| End_ | UniformBuffer | StorageBuffer | Sampler | Texture | CombinedSampler | Count.

#[global] Instance eq_dec : EqDecision t.
Proof. solve_decision. Defined.
End DescriptorType.

Module Layout.
Inductive t : Type :=
| Undefined | ShaderRead | TransferSrc | TransferDst | ColorAttachment.

#[global] Instance eq_dec : EqDecision t.
Proof. solve_decision. Defined.
End Layout.

(** *** Records.  Fields that none of the functions below reads are left
    out. *)

Module Buffer.
Record t : Type := mk {
  buffer : Z;
  ringBufferAlloc : bool;
  beginOffs : Z;
  size : Z
}.
Definition initial : t := mk 0 false 0 0.
End Buffer.

Module Texture.
Record t : Type := mk {
  tex : Z;
  width : Z;
  height : Z;
  renderTarget : bool
}.
End Texture.

Module RenderTarget.
Record t : Type := mk {
  width : Z;
  height : Z;
  texture : Handle;
  readFBO : Z;
  currentLayout : Layout.t
}.
End RenderTarget.

Module RenderPassDesc.
Record t : Type := mk {
  name_ : option string;
  colorFinalLayout_ : Layout.t
}.
End RenderPassDesc.

Module RenderPass.
Record t : Type := mk { desc : RenderPassDesc.t }.
End RenderPass.

Module Framebuffer.
Record t : Type := mk {
  fbo : Z;
  renderPass : Handle;
  colors : list Handle;
  depthStencil : Handle;
  width : Z;
  height : Z
}.
End Framebuffer.

Module DescriptorLayout.
Record t : Type := mk {
  type : DescriptorType.t;
  offset : Z
}.
End DescriptorLayout.

Module DescriptorSetLayout.
Record t : Type := mk { layout : list DescriptorLayout.t }.
Definition initial : t := mk [].
End DescriptorSetLayout.

Module ShaderResource.
Record t : Type := mk {
  set : nat;
  binding : nat;
  type : DescriptorType.t
}.
End ShaderResource.

Module VertexShader.
Record t : Type := mk {
  shader : Z;
  name : string;
  resources : list ShaderResource.t
}.
End VertexShader.

Module FragmentShader.
Record t : Type := mk {
  shader : Z;
  name : string;
  resources : list ShaderResource.t
}.
End FragmentShader.

Module VertexBuf.
Record t : Type := mk {
  stride : Z
}.
End VertexBuf.

(** [vertexBuffers] is indexed without a check ([bindVertexBuffer]); its
    declaration is in a header that is not part of the sources at hand.
    It is the list of its elements here, and an index at or beyond the
    length of the list is past its end. *)
Module PipelineDesc.
Record t : Type := mk {
  vertexShader_ : Handle;
  fragmentShader_ : Handle;
  renderPass_ : Handle;
  descriptorSetLayouts : list Handle;
  vertexAttribMask : Z;
  vertexBuffers : list VertexBuf.t;
  depthWrite_ : bool;
  depthTest_ : bool;
  cullFaces_ : bool;
  scissorTest_ : bool;
  blending_ : bool;
  name_ : option string
}.
Definition initial : t := mk 0%nat 0%nat 0%nat [] 0 [] false false false false false None.
End PipelineDesc.

Module Pipeline.
Record t : Type := mk {
  desc : PipelineDesc.t;
  shader : Z
}.
Definition initial : t := mk PipelineDesc.initial 0.
End Pipeline.

Module SwapchainDesc.
Record t : Type := mk {
  width : Z;
  height : Z
}.
End SwapchainDesc.

(** *** The renderer.  [ring] holds [ringBufSize], [ringBufPtr] and the
    synchronisation mark; [glNames] is the next object name the OpenGL
    driver hands out. *)

Record State : Type := mkState {
  swapchainDesc : SwapchainDesc.t;
  ring : Ring.State;
  inFrame : bool;
  inRenderPass : bool;
  validPipeline : bool;
  pipelineDrawn : bool;
  scissorSet : bool;
  ringBuffer : Z;
  persistentMapInUse : bool;
  uboAlign : Z;
  ssboAlign : Z;
  buffers : gmap nat Buffer.t;
  textures : gmap nat Texture.t;
  renderTargets : gmap nat RenderTarget.t;
  renderPasses : gmap nat RenderPass.t;
  framebuffers : gmap nat Framebuffer.t;
  pipelines : gmap nat Pipeline.t;
  dsLayouts : gmap nat DescriptorSetLayout.t;
  vertexShaders : gmap nat VertexShader.t;
  fragmentShaders : gmap nat FragmentShader.t;
  ephemeralBuffers : list Handle;
  currentRenderPass : Handle;
  currentFramebuffer : Handle;
  currentPipeline : PipelineDesc.t;
  idxBuf16Bit : bool;
  indexBufByteOffset : Z;
  glNames : Z
}.

Definition set_ring (v : Ring.State) (st : State) : State :=
  mkState
    (swapchainDesc st) v (inFrame st) (inRenderPass st) (validPipeline st)
    (pipelineDrawn st) (scissorSet st) (ringBuffer st)
    (persistentMapInUse st) (uboAlign st) (ssboAlign st) (buffers st)
    (textures st) (renderTargets st) (renderPasses st) (framebuffers st)
    (pipelines st) (dsLayouts st) (vertexShaders st) (fragmentShaders st)
    (ephemeralBuffers st) (currentRenderPass st) (currentFramebuffer st)
    (currentPipeline st) (idxBuf16Bit st) (indexBufByteOffset st)
    (glNames st).

Definition set_inFrame (v : bool) (st : State) : State :=
  mkState
    (swapchainDesc st) (ring st) v (inRenderPass st) (validPipeline st)
    (pipelineDrawn st) (scissorSet st) (ringBuffer st)
    (persistentMapInUse st) (uboAlign st) (ssboAlign st) (buffers st)
    (textures st) (renderTargets st) (renderPasses st) (framebuffers st)
    (pipelines st) (dsLayouts st) (vertexShaders st) (fragmentShaders st)
    (ephemeralBuffers st) (currentRenderPass st) (currentFramebuffer st)
    (currentPipeline st) (idxBuf16Bit st) (indexBufByteOffset st)
    (glNames st).

Definition set_inRenderPass (v : bool) (st : State) : State :=
  mkState
    (swapchainDesc st) (ring st) (inFrame st) v (validPipeline st)
    (pipelineDrawn st) (scissorSet st) (ringBuffer st)
    (persistentMapInUse st) (uboAlign st) (ssboAlign st) (buffers st)
    (textures st) (renderTargets st) (renderPasses st) (framebuffers st)
    (pipelines st) (dsLayouts st) (vertexShaders st) (fragmentShaders st)
    (ephemeralBuffers st) (currentRenderPass st) (currentFramebuffer st)
    (currentPipeline st) (idxBuf16Bit st) (indexBufByteOffset st)
    (glNames st).

Definition set_validPipeline (v : bool) (st : State) : State :=
  mkState
    (swapchainDesc st) (ring st) (inFrame st) (inRenderPass st) v
    (pipelineDrawn st) (scissorSet st) (ringBuffer st)
    (persistentMapInUse st) (uboAlign st) (ssboAlign st) (buffers st)
    (textures st) (renderTargets st) (renderPasses st) (framebuffers st)
    (pipelines st) (dsLayouts st) (vertexShaders st) (fragmentShaders st)
    (ephemeralBuffers st) (currentRenderPass st) (currentFramebuffer st)
    (currentPipeline st) (idxBuf16Bit st) (indexBufByteOffset st)
    (glNames st).

Definition set_pipelineDrawn (v : bool) (st : State) : State :=
  mkState
    (swapchainDesc st) (ring st) (inFrame st) (inRenderPass st)
    (validPipeline st) v (scissorSet st) (ringBuffer st)
    (persistentMapInUse st) (uboAlign st) (ssboAlign st) (buffers st)
    (textures st) (renderTargets st) (renderPasses st) (framebuffers st)
    (pipelines st) (dsLayouts st) (vertexShaders st) (fragmentShaders st)
    (ephemeralBuffers st) (currentRenderPass st) (currentFramebuffer st)
    (currentPipeline st) (idxBuf16Bit st) (indexBufByteOffset st)
    (glNames st).

Definition set_scissorSet (v : bool) (st : State) : State :=
  mkState
    (swapchainDesc st) (ring st) (inFrame st) (inRenderPass st)
    (validPipeline st) (pipelineDrawn st) v (ringBuffer st)
    (persistentMapInUse st) (uboAlign st) (ssboAlign st) (buffers st)
    (textures st) (renderTargets st) (renderPasses st) (framebuffers st)
    (pipelines st) (dsLayouts st) (vertexShaders st) (fragmentShaders st)
    (ephemeralBuffers st) (currentRenderPass st) (currentFramebuffer st)
    (currentPipeline st) (idxBuf16Bit st) (indexBufByteOffset st)
    (glNames st).

Definition set_buffers (v : gmap nat Buffer.t) (st : State) : State :=
  mkState
    (swapchainDesc st) (ring st) (inFrame st) (inRenderPass st)
    (validPipeline st) (pipelineDrawn st) (scissorSet st) (ringBuffer st)
    (persistentMapInUse st) (uboAlign st) (ssboAlign st) v (textures st)
    (renderTargets st) (renderPasses st) (framebuffers st) (pipelines st)
    (dsLayouts st) (vertexShaders st) (fragmentShaders st)
    (ephemeralBuffers st) (currentRenderPass st) (currentFramebuffer st)
    (currentPipeline st) (idxBuf16Bit st) (indexBufByteOffset st)
    (glNames st).

Definition set_renderTargets (v : gmap nat RenderTarget.t) (st : State) : State :=
  mkState
    (swapchainDesc st) (ring st) (inFrame st) (inRenderPass st)
    (validPipeline st) (pipelineDrawn st) (scissorSet st) (ringBuffer st)
    (persistentMapInUse st) (uboAlign st) (ssboAlign st) (buffers st)
    (textures st) v (renderPasses st) (framebuffers st) (pipelines st)
    (dsLayouts st) (vertexShaders st) (fragmentShaders st)
    (ephemeralBuffers st) (currentRenderPass st) (currentFramebuffer st)
    (currentPipeline st) (idxBuf16Bit st) (indexBufByteOffset st)
    (glNames st).


Definition set_dsLayouts (v : gmap nat DescriptorSetLayout.t) (st : State) : State :=
  mkState
    (swapchainDesc st) (ring st) (inFrame st) (inRenderPass st)
    (validPipeline st) (pipelineDrawn st) (scissorSet st) (ringBuffer st)
    (persistentMapInUse st) (uboAlign st) (ssboAlign st) (buffers st)
    (textures st) (renderTargets st) (renderPasses st) (framebuffers st)
    (pipelines st) v (vertexShaders st) (fragmentShaders st)
    (ephemeralBuffers st) (currentRenderPass st) (currentFramebuffer st)
    (currentPipeline st) (idxBuf16Bit st) (indexBufByteOffset st)
    (glNames st).

Definition set_ephemeralBuffers (v : list Handle) (st : State) : State :=
  mkState
    (swapchainDesc st) (ring st) (inFrame st) (inRenderPass st)
    (validPipeline st) (pipelineDrawn st) (scissorSet st) (ringBuffer st)
    (persistentMapInUse st) (uboAlign st) (ssboAlign st) (buffers st)
    (textures st) (renderTargets st) (renderPasses st) (framebuffers st)
    (pipelines st) (dsLayouts st) (vertexShaders st) (fragmentShaders st) v
    (currentRenderPass st) (currentFramebuffer st) (currentPipeline st)
    (idxBuf16Bit st) (indexBufByteOffset st) (glNames st).

Definition set_currentRenderPass (v : Handle) (st : State) : State :=
  mkState
    (swapchainDesc st) (ring st) (inFrame st) (inRenderPass st)
    (validPipeline st) (pipelineDrawn st) (scissorSet st) (ringBuffer st)
    (persistentMapInUse st) (uboAlign st) (ssboAlign st) (buffers st)
    (textures st) (renderTargets st) (renderPasses st) (framebuffers st)
    (pipelines st) (dsLayouts st) (vertexShaders st) (fragmentShaders st)
    (ephemeralBuffers st) v (currentFramebuffer st) (currentPipeline st)
    (idxBuf16Bit st) (indexBufByteOffset st) (glNames st).

Definition set_currentFramebuffer (v : Handle) (st : State) : State :=
  mkState
    (swapchainDesc st) (ring st) (inFrame st) (inRenderPass st)
    (validPipeline st) (pipelineDrawn st) (scissorSet st) (ringBuffer st)
    (persistentMapInUse st) (uboAlign st) (ssboAlign st) (buffers st)
    (textures st) (renderTargets st) (renderPasses st) (framebuffers st)
    (pipelines st) (dsLayouts st) (vertexShaders st) (fragmentShaders st)
    (ephemeralBuffers st) (currentRenderPass st) v (currentPipeline st)
    (idxBuf16Bit st) (indexBufByteOffset st) (glNames st).

Definition set_currentPipeline (v : PipelineDesc.t) (st : State) : State :=
  mkState
    (swapchainDesc st) (ring st) (inFrame st) (inRenderPass st)
    (validPipeline st) (pipelineDrawn st) (scissorSet st) (ringBuffer st)
    (persistentMapInUse st) (uboAlign st) (ssboAlign st) (buffers st)
    (textures st) (renderTargets st) (renderPasses st) (framebuffers st)
    (pipelines st) (dsLayouts st) (vertexShaders st) (fragmentShaders st)
    (ephemeralBuffers st) (currentRenderPass st) (currentFramebuffer st) v
    (idxBuf16Bit st) (indexBufByteOffset st) (glNames st).

Definition set_idxBuf16Bit (v : bool) (st : State) : State :=
  mkState
    (swapchainDesc st) (ring st) (inFrame st) (inRenderPass st)
    (validPipeline st) (pipelineDrawn st) (scissorSet st) (ringBuffer st)
    (persistentMapInUse st) (uboAlign st) (ssboAlign st) (buffers st)
    (textures st) (renderTargets st) (renderPasses st) (framebuffers st)
    (pipelines st) (dsLayouts st) (vertexShaders st) (fragmentShaders st)
    (ephemeralBuffers st) (currentRenderPass st) (currentFramebuffer st)
    (currentPipeline st) v (indexBufByteOffset st) (glNames st).

Definition set_indexBufByteOffset (v : Z) (st : State) : State :=
  mkState
    (swapchainDesc st) (ring st) (inFrame st) (inRenderPass st)
    (validPipeline st) (pipelineDrawn st) (scissorSet st) (ringBuffer st)
    (persistentMapInUse st) (uboAlign st) (ssboAlign st) (buffers st)
    (textures st) (renderTargets st) (renderPasses st) (framebuffers st)
    (pipelines st) (dsLayouts st) (vertexShaders st) (fragmentShaders st)
    (ephemeralBuffers st) (currentRenderPass st) (currentFramebuffer st)
    (currentPipeline st) (idxBuf16Bit st) v (glNames st).

Definition set_glNames (v : Z) (st : State) : State :=
  mkState
    (swapchainDesc st) (ring st) (inFrame st) (inRenderPass st)
    (validPipeline st) (pipelineDrawn st) (scissorSet st) (ringBuffer st)
    (persistentMapInUse st) (uboAlign st) (ssboAlign st) (buffers st)
    (textures st) (renderTargets st) (renderPasses st) (framebuffers st)
    (pipelines st) (dsLayouts st) (vertexShaders st) (fragmentShaders st)
    (ephemeralBuffers st) (currentRenderPass st) (currentFramebuffer st)
    (currentPipeline st) (idxBuf16Bit st) (indexBufByteOffset st) v.

(** [glCreateBuffers], [glCreateFramebuffers], [glCreateProgram]: a new
    object name. *)
Definition glCreate (st : State) : Z * State :=
  (glNames st, set_glNames (glNames st + 1) st).

(** What [LOG] writes in [checkShaderResources]: the arguments of the two
    messages.  The types go into the messages by their names. *)
Inductive LogEntry : Type :=
| GreaterThanSetSize (set binding : nat) (type : string) (shader : string)
    (setSize : nat)
| DoesNotMatchLayout (set binding : nat) (type : string) (shader : string)
    (layoutType : string).

(** *** Buffers *)

(** [RendererImpl::createBuffer] *)
Definition createBuffer (st : State) (size : Z) (contents : option string)
  : result (Handle * State) :=
  assert (negb (size =? 0)) ;;
  let '(handle, buffers) := ResourceContainer.add Buffer.initial (buffers st) in
  let '(name, st) := glCreate st in
  let buffer := Buffer.mk name false 0 size in
  Ok (handle, set_buffers (<[handle := buffer]> buffers) st).

(** [RendererImpl::createEphemeralBuffer]; the copy of [contents] into the
    ring buffer is not modelled. *)
Definition createEphemeralBuffer (st : State) (size : Z) (contents : option string)
  : result (Handle * State) :=
  assert (negb (size =? 0)) ;;
  assert (bool_decide (is_Some contents)) ;;
  '(beginPtr, ring) ← Ring.ringBufferAllocate (ring st) size (Z.max (uboAlign st) (ssboAlign st));
  let st := set_ring ring st in
  let '(handle, buffers) := ResourceContainer.add Buffer.initial (buffers st) in
  let buffer := Buffer.mk (ringBuffer st) true beginPtr size in
  let st := set_buffers (<[handle := buffer]> buffers) st in
  let st := set_ephemeralBuffers (ephemeralBuffers st ++ [handle]) st in
  Ok (handle, st).

(** [RendererImpl::deleteBuffer] *)
Definition deleteBuffer (st : State) (handle : Handle) : result State :=
  buffers ← ResourceContainer.removeWith (buffers st) handle (fun b =>
    assert (negb (Buffer.buffer b =? 0)) ;;
    let b := Buffer.mk 0 (Buffer.ringBufferAlloc b) (Buffer.beginOffs b) (Buffer.size b) in
    assert (negb (Buffer.size b =? 0)) ;;
    let b := Buffer.mk (Buffer.buffer b) (Buffer.ringBufferAlloc b) (Buffer.beginOffs b) 0 in
    assert (negb (Buffer.ringBufferAlloc b)) ;;
    Ok b);
  Ok (set_buffers buffers st).

(** *** Pipelines *)

(** [descriptorTypeName] of this file: [Count] is not the type of a
    descriptor, and the guard [assert(false)] says so. *)
Definition descriptorTypeName (t : DescriptorType.t) : result string :=
  match t with
  | DescriptorType.End_ => Ok "End"
  | DescriptorType.UniformBuffer => Ok "UniformBuffer"
  | DescriptorType.StorageBuffer => Ok "StorageBuffer"
  | DescriptorType.Sampler => Ok "Sampler"
  | DescriptorType.Texture => Ok "Texture"
  | DescriptorType.CombinedSampler => Ok "CombinedSampler"
  | DescriptorType.Count => assert false ;; Ok "Count"
  end%string.

Section Pipelines.

(** [MAX_DESCRIPTOR_SETS] is a constant of a header that is not part of
    the sources at hand, and the result of linking a program is the
    driver's. *)
Variable MAX_DESCRIPTOR_SETS : nat.
Variable glLinkStatus : Z -> Z -> bool.

(** [checkShaderResources]; returns the lines logged, in order. *)
Fixpoint checkShaderResources (name : string) (resources : list ShaderResource.t)
    (layouts : list (list DescriptorLayout.t)) : result (list LogEntry) :=
  match resources with
  | [] => Ok []
  | r :: resources =>
      assert (ShaderResource.set r <? MAX_DESCRIPTOR_SETS)%nat ;;
      match layouts !! ShaderResource.set r with
      | None => Undefined
      | Some set =>
          if (length set <=? ShaderResource.binding r)%nat then
            type ← descriptorTypeName (ShaderResource.type r);
            let line := GreaterThanSetSize (ShaderResource.set r) (ShaderResource.binding r)
                          type name (length set) in
            log ← checkShaderResources name resources layouts;
            Ok (line :: log)
          else
            match set !! ShaderResource.binding r with
            | None => Undefined
            | Some l =>
                if bool_decide (DescriptorLayout.type l ≠ ShaderResource.type r) then
                  type ← descriptorTypeName (ShaderResource.type r);
                  layoutType ← descriptorTypeName (DescriptorLayout.type l);
                  let line := DoesNotMatchLayout (ShaderResource.set r)
                                (ShaderResource.binding r) type name layoutType in
                  log ← checkShaderResources name resources layouts;
                  Ok (line :: log)
                else checkShaderResources name resources layouts
            end
      end
  end.



End Pipelines.

(** The loop of [createDescriptorSetLayout]: the entries in front of the
    [End] entry.  An array without [End] is read past its end. *)
Fixpoint readLayout (layout : list DescriptorLayout.t) : result (list DescriptorLayout.t) :=
  match layout with
  | [] => Undefined
  | l :: layout =>
      if bool_decide (DescriptorLayout.type l = DescriptorType.End_) then
        assert (DescriptorLayout.offset l =? 0) ;;
        Ok []
      else
        ls ← readLayout layout;
        Ok (l :: ls)
  end.

(** [RendererImpl::createDescriptorSetLayout] *)
Definition createDescriptorSetLayout (st : State) (layout : list DescriptorLayout.t)
  : result (Handle * State) :=
  let '(handle, dsLayouts) := ResourceContainer.add DescriptorSetLayout.initial (dsLayouts st) in
  ls ← readLayout layout;
  Ok (handle, set_dsLayouts (<[handle := DescriptorSetLayout.mk ls]> dsLayouts) st).

(** *** Frames and render passes *)

(** [RendererImpl::beginFrame] *)
Definition beginFrame (st : State) : result State :=
  assert (negb (inFrame st)) ;;
  let st := set_inFrame true st in
  let st := set_inRenderPass false st in
  let st := set_validPipeline false st in
  let st := set_pipelineDrawn true st in
  Ok st.

(** The loop of [presentFrame] over [ephemeralBuffers]. *)
Fixpoint releaseEphemeralBuffers (ringBuffer : Z) (handles : list Handle)
    (buffers : gmap nat Buffer.t) : result (gmap nat Buffer.t) :=
  match handles with
  | [] => Ok buffers
  | handle :: handles =>
      buffer ← ResourceContainer.get buffers handle;
      assert (Buffer.buffer buffer =? ringBuffer) ;;
      assert (Buffer.ringBufferAlloc buffer) ;;
      assert (0 <? Buffer.size buffer) ;;
      let buffers := <[handle := Buffer.mk 0 false (Buffer.beginOffs buffer) 0]> buffers in
      buffers ← ResourceContainer.remove buffers handle;
      releaseEphemeralBuffers ringBuffer handles buffers
  end.

(** [RendererImpl::presentFrame] *)
Definition presentFrame (st : State) (image : Handle) : result State :=
  assert (inFrame st) ;;
  let st := set_inFrame false st in
  rt ← ResourceContainer.get (renderTargets st) image;
  assert (bool_decide (RenderTarget.currentLayout rt = Layout.TransferSrc)) ;;
  let width := RenderTarget.width rt in
  let height := RenderTarget.height rt in
  assert (width =? SwapchainDesc.width (swapchainDesc st)) ;;
  assert (height =? SwapchainDesc.height (swapchainDesc st)) ;;
  assert (0 <? width) ;;
  assert (0 <? height) ;;
  st ← (if RenderTarget.readFBO rt =? 0 then
          let '(name, st) := glCreate st in
          let rt := RenderTarget.mk (RenderTarget.width rt) (RenderTarget.height rt)
                      (RenderTarget.texture rt) name (RenderTarget.currentLayout rt) in
          let st := set_renderTargets (<[image := rt]> (renderTargets st)) st in
          colorTex ← ResourceContainer.get (textures st) (RenderTarget.texture rt);
          assert (Texture.renderTarget colorTex) ;;
          assert (negb (Texture.tex colorTex =? 0)) ;;
          Ok st
        else Ok st);
  buffers ← releaseEphemeralBuffers (ringBuffer st) (ephemeralBuffers st) (buffers st);
  let st := set_buffers buffers st in
  Ok (set_ephemeralBuffers [] st).

(** [RendererImpl::beginRenderPass] *)
Definition beginRenderPass (st : State) (rpHandle fbHandle : Handle) : result State :=
  assert (inFrame st) ;;
  assert (negb (inRenderPass st)) ;;
  let st := set_inRenderPass true st in
  let st := set_validPipeline false st in
  assert (isValid fbHandle) ;;
  fb ← ResourceContainer.get (framebuffers st) fbHandle;
  assert (negb (Framebuffer.fbo fb =? 0)) ;;
  assert (bool_decide (Framebuffer.renderPass fb = rpHandle)) ;;
  assert (negb (Framebuffer.fbo fb =? 0)) ;;
  assert (0 <? Framebuffer.width fb) ;;
  assert (0 <? Framebuffer.height fb) ;;
  let st := set_currentRenderPass rpHandle st in
  let st := set_currentFramebuffer fbHandle st in
  Ok st.

(** [RendererImpl::endRenderPass] *)
Definition endRenderPass (st : State) : result State :=
  assert (inFrame st) ;;
  assert (inRenderPass st) ;;
  let st := set_inRenderPass false st in
  pass ← ResourceContainer.get (renderPasses st) (currentRenderPass st);
  fb ← ResourceContainer.get (framebuffers st) (currentFramebuffer st);
  let color := nth 0 (Framebuffer.colors fb) 0%nat in
  rt ← ResourceContainer.get (renderTargets st) color;
  let rt := RenderTarget.mk (RenderTarget.width rt) (RenderTarget.height rt)
              (RenderTarget.texture rt) (RenderTarget.readFBO rt)
              (RenderPassDesc.colorFinalLayout_ (RenderPass.desc pass)) in
  let st := set_renderTargets (<[color := rt]> (renderTargets st)) st in
  let st := set_currentRenderPass 0%nat st in
  let st := set_currentFramebuffer 0%nat st in
  Ok st.

(** [RendererImpl::setScissorRect] *)
Definition setScissorRect (st : State) (x y width height : Z) : result State :=
  assert (validPipeline st) ;;
  assert (PipelineDesc.scissorTest_ (currentPipeline st)) ;;
  Ok (set_scissorSet true st).

(** [RendererImpl::bindPipeline]; the calls that copy the pipeline's state
    to the driver are not modelled. *)
Definition bindPipeline (st : State) (pipeline : Handle) : result State :=
  assert (inFrame st) ;;
  assert (isValid pipeline) ;;
  assert (inRenderPass st) ;;
  assert (pipelineDrawn st) ;;
  let st := set_pipelineDrawn false st in
  let st := set_validPipeline true st in
  let st := set_scissorSet false st in
  p ← ResourceContainer.get (pipelines st) pipeline;
  assert (bool_decide (PipelineDesc.renderPass_ (Pipeline.desc p) = currentRenderPass st)) ;;
  Ok (set_currentPipeline (Pipeline.desc p) st).

(** The guards shared by the three draw calls, after their first two. *)
Definition drawGuards (st : State) : result unit :=
  assert (negb (PipelineDesc.scissorTest_ (currentPipeline st)) || scissorSet st) ;;
  assert (bool_decide (PipelineDesc.renderPass_ (currentPipeline st) = currentRenderPass st)).

(** [RendererImpl::draw] *)
Definition draw (st : State) (firstVertex vertexCount : Z) : result State :=
  assert (inRenderPass st) ;;
  assert (validPipeline st) ;;
  assert (0 <? vertexCount) ;;
  drawGuards st ;;
  Ok (set_pipelineDrawn true st).

(** [RendererImpl::drawIndexedInstanced] *)
Definition drawIndexedInstanced (st : State) (vertexCount instanceCount : Z) : result State :=
  assert (inRenderPass st) ;;
  assert (validPipeline st) ;;
  assert (0 <? instanceCount) ;;
  assert (0 <? vertexCount) ;;
  drawGuards st ;;
  Ok (set_pipelineDrawn true st).

(** [RendererImpl::drawIndexedOffset] *)
Definition drawIndexedOffset (st : State) (vertexCount firstIndex : Z) : result State :=
  assert (inRenderPass st) ;;
  assert (validPipeline st) ;;
  assert (0 <? vertexCount) ;;
  drawGuards st ;;
  Ok (set_pipelineDrawn true st).

(** [RendererImpl::setViewport] *)
Definition setViewport (st : State) (x y width height : Z) : result State :=
  assert (inFrame st) ;;
  Ok st.

(** The guards of [bindIndexBuffer] and [bindVertexBuffer] on the buffer
    they bind. *)
Definition bufferGuards (st : State) (buffer : Buffer.t) : result unit :=
  assert (0 <? Buffer.size buffer) ;;
  if Buffer.ringBufferAlloc buffer then
    assert (Buffer.buffer buffer =? ringBuffer st) ;;
    assert (u32 (Buffer.beginOffs buffer + Buffer.size buffer) <? Ring.ringBufSize (ring st))
  else
    assert (negb (Buffer.buffer buffer =? 0)) ;;
    assert (Buffer.beginOffs buffer =? 0).

(** [RendererImpl::bindIndexBuffer] *)
Definition bindIndexBuffer (st : State) (handle : Handle) (bit16 : bool) : result State :=
  assert (inFrame st) ;;
  assert (validPipeline st) ;;
  buffer ← ResourceContainer.get (buffers st) handle;
  bufferGuards st buffer ;;
  let st := set_indexBufByteOffset (Buffer.beginOffs buffer) st in
  let st := set_idxBuf16Bit bit16 st in
  Ok st.

(** [RendererImpl::bindVertexBuffer]; the call into the driver reads
    [currentPipeline.vertexBuffers[binding].stride]. *)
Definition bindVertexBuffer (st : State) (binding : Z) (handle : Handle) : result State :=
  assert (inFrame st) ;;
  assert (validPipeline st) ;;
  buffer ← ResourceContainer.get (buffers st) handle;
  bufferGuards st buffer ;;
  match PipelineDesc.vertexBuffers (currentPipeline st) !! Z.to_nat binding with
  | None => Undefined
  | Some _ => Ok st
  end.

(** *** Sequences of calls, as the demo makes them through [Renderer].
    The calls that create textures, samplers, render targets, framebuffers
    and render passes and [bindDescriptorSet] are not among them. *)

Inductive Call : Type :=
| CreateBuffer (size : Z) (contents : option string)
| CreateEphemeralBuffer (size : Z) (contents : option string)
| DeleteBuffer (handle : Handle)
| BeginFrame
| PresentFrame (image : Handle)
| BeginRenderPass (rpHandle fbHandle : Handle)
| EndRenderPass
| BindPipeline (pipeline : Handle)
| SetScissorRect (x y width height : Z)
| SetViewport (x y width height : Z)
| BindIndexBuffer (handle : Handle) (bit16 : bool)
| BindVertexBuffer (binding : Z) (handle : Handle)
| Draw (firstVertex vertexCount : Z)
| DrawIndexedInstanced (vertexCount instanceCount : Z)
| DrawIndexedOffset (vertexCount firstIndex : Z).

(** One call; the handle returned, if the call returns one. *)
Definition call (st : State) (c : Call) : result (option Handle * State) :=
  match c with
  | CreateBuffer size contents =>
      '(h, st) ← createBuffer st size contents; Ok (Some h, st)
  | CreateEphemeralBuffer size contents =>
      '(h, st) ← createEphemeralBuffer st size contents; Ok (Some h, st)
  | DeleteBuffer handle => st ← deleteBuffer st handle; Ok (None, st)
  | BeginFrame => st ← beginFrame st; Ok (None, st)
  | PresentFrame image => st ← presentFrame st image; Ok (None, st)
  | BeginRenderPass rpHandle fbHandle => st ← beginRenderPass st rpHandle fbHandle; Ok (None, st)
  | EndRenderPass => st ← endRenderPass st; Ok (None, st)
  | BindPipeline pipeline => st ← bindPipeline st pipeline; Ok (None, st)
  | SetScissorRect x y width height => st ← setScissorRect st x y width height; Ok (None, st)
  | SetViewport x y width height => st ← setViewport st x y width height; Ok (None, st)
  | BindIndexBuffer handle bit16 => st ← bindIndexBuffer st handle bit16; Ok (None, st)
  | BindVertexBuffer binding handle => st ← bindVertexBuffer st binding handle; Ok (None, st)
  | Draw firstVertex vertexCount => st ← draw st firstVertex vertexCount; Ok (None, st)
  | DrawIndexedInstanced vertexCount instanceCount =>
      st ← drawIndexedInstanced st vertexCount instanceCount; Ok (None, st)
  | DrawIndexedOffset vertexCount firstIndex =>
      st ← drawIndexedOffset st vertexCount firstIndex; Ok (None, st)
  end.

(** A sequence of calls, each paired with the handle it returned; the
    sequence ends at the first call that fails. *)
Fixpoint calls (st : State) (cs : list Call)
  : result (list (Call * option Handle) * State) :=
  match cs with
  | [] => Ok ([], st)
  | c :: cs =>
      '(h, st) ← call st c;
      '(trace, st) ← calls st cs;
      Ok ((c, h) :: trace, st)
  end.

Definition isPresentFrame (c : Call) : bool :=
  match c with PresentFrame _ => true | _ => false end.

Definition isDraw (c : Call) : bool :=
  match c with
  | Draw _ _ | DrawIndexedInstanced _ _ | DrawIndexedOffset _ _ => true
  | _ => false
  end.

End GL.

(* ===================================================================== *)
(** * Part I, continued: vocabulary of the properties and scenarios      *)
(* ===================================================================== *)

(** A cache directory with the record of [smaa.frag], written at time 5,
    and the binary it names; the header the record lists was changed at
    time 10. *)
Definition staleFiles : list (string * (string * Z)) :=
  [("cache/smaa.frag.cache", ("20,ff,smaa.h", 5));
   ("cache/000000ff.spv", ("abcdefgh", 5));
   ("smaa.frag", ("void main() {}", 3));
   ("smaa.h", ("#define SMAA", 10))]%string.

Definition lookupFile (files : list (string * (string * Z))) (f : string)
  : option (string * Z) :=
  snd <$> list_find (fun e => e.1 = f) files ≫= (fun e => Some e.2).


(** [occurs c s]: the character [c] occurs in [s]. *)
Fixpoint occurs (c : ascii) (s : string) : bool :=
  match s with
  | EmptyString => false
  | String c' s' => Ascii.eqb c' c || occurs c s'
  end.

(** Every character of [s] satisfies [P]. *)
Fixpoint allChars (P : ascii -> bool) (s : string) : bool :=
  match s with
  | EmptyString => true
  | String c s' => P c && allChars P s'
  end.

(** A character that stands for a digit. *)
Definition isDigit (c : ascii) : bool :=
  match Cache.digitValue c with Some _ => true | None => false end.

(** What [serialize] appends after the hash. *)
Fixpoint dependencyFields (deps : list string) : string :=
  match deps with
  | [] => ""
  | f :: deps => "," +:+ f +:+ dependencyFields deps
  end.

(** What [compileSpirv] appends to the name of the source. *)
Fixpoint macroSuffix (sorted : list string) : string :=
  match sorted with
  | [] => ""
  | s :: sorted => "_" +:+ s +:+ macroSuffix sorted
  end.

(** A macro whose name has neither of the two characters [compileSpirv]
    writes between the parts of the name, and whose value has no [_]. *)
Definition plainMacro (name value : string) : Prop :=
  occurs "_" name = false /\ occurs "=" name = false /\ occurs "_" value = false.

(** [t] is empty or starts with [c]. *)
Definition startsWith (c : ascii) (t : string) : Prop :=
  match t with
  | EmptyString => True
  | String c' _ => c' = c
  end.



(** The description of a pipeline without scissor test, with one vertex
    buffer. *)
Definition demoPipelineDesc : GL.PipelineDesc.t :=
  GL.PipelineDesc.mk 1%nat 1%nat 1%nat [1%nat] 0 [GL.VertexBuf.mk 16]
    false false false false false (Some "blit").

Definition demoVertexShader : GL.VertexShader.t :=
  GL.VertexShader.mk 4 "blit.vert"
    [GL.ShaderResource.mk 0 0 GL.DescriptorType.UniformBuffer].

(** A fragment shader that declares a sampler where the layout below has
    a texture, and a texture beyond the end of the layout. *)
Definition demoFragmentShader : GL.FragmentShader.t :=
  GL.FragmentShader.mk 5 "blit.frag"
    [GL.ShaderResource.mk 0 0 GL.DescriptorType.UniformBuffer;
     GL.ShaderResource.mk 0 1 GL.DescriptorType.Sampler;
     GL.ShaderResource.mk 0 2 GL.DescriptorType.Texture].

Definition demoLayout : list GL.DescriptorLayout.t :=
  [GL.DescriptorLayout.mk GL.DescriptorType.UniformBuffer 0;
   GL.DescriptorLayout.mk GL.DescriptorType.Texture 8].



(** A renderer as the demo has it after start-up: a render target of 256
    by 256 pixels with its texture, a render pass that leaves the target
    ready for presentation, a framebuffer, a descriptor-set layout with a
    uniform buffer and a texture, two shaders and a pipeline. *)
Definition demoRenderer : GL.State :=
  GL.mkState
    (GL.SwapchainDesc.mk 256 256)
    (Ring.mkState 1024 0 0)
    false false false false false
    1 true 256 16
    ∅
    {[ 1%nat := GL.Texture.mk 2 256 256 true ]}
    {[ 1%nat := GL.RenderTarget.mk 256 256 1%nat 0 GL.Layout.Undefined ]}
    {[ 1%nat := GL.RenderPass.mk (GL.RenderPassDesc.mk (Some "final") GL.Layout.TransferSrc) ]}
    {[ 1%nat := GL.Framebuffer.mk 3 1%nat [1%nat] 0%nat 256 256 ]}
    {[ 1%nat := GL.Pipeline.mk demoPipelineDesc 6 ]}
    {[ 1%nat := GL.DescriptorSetLayout.mk demoLayout ]}
    {[ 1%nat := demoVertexShader ]}
    {[ 1%nat := demoFragmentShader ]}
    []
    0%nat 0%nat GL.PipelineDesc.initial
    false 0
    7.

(** [demoRenderer] in the middle of its second frame: a first frame has
    been drawn and presented, and a render pass of the second frame is
    open. *)
Definition secondFrameCalls : list GL.Call :=
  [GL.BeginFrame; GL.BeginRenderPass 1%nat 1%nat; GL.BindPipeline 1%nat; GL.Draw 0 3;
   GL.EndRenderPass; GL.PresentFrame 1%nat;
   GL.BeginFrame; GL.BeginRenderPass 1%nat 1%nat].

(** The renderer that a sequence of calls leaves behind, starting from
    [demoRenderer]. *)
Definition stateAfter (cs : list GL.Call) : GL.State :=
  match GL.calls demoRenderer cs with
  | Ok (_, st) => st
  | _ => demoRenderer
  end.

(** The handles that the [createEphemeralBuffer] calls of a sequence have
    returned. *)
Definition createdEphemeral (trace : list (GL.Call * option GL.Handle)) : list GL.Handle :=
  omap (fun '(c, h) => match c with
                       | GL.CreateEphemeralBuffer _ _ => h
                       | _ => None
                       end) trace.

(** An outcome that is a result or a failed guard. *)
Definition guarded {A : Type} (r : result A) : Prop :=
  match r with
  | Ok _ | AssertFail => True
  | RuntimeError | Undefined => False
  end.

(** A frame of [demoRenderer] up to the call of [presentFrame], with one
    ephemeral buffer and one buffer of its own. *)
Definition frameCalls : list GL.Call :=
  [GL.BeginFrame; GL.CreateEphemeralBuffer 64 (Some "uniforms");
   GL.CreateBuffer 16 None;
   GL.BeginRenderPass 1%nat 1%nat; GL.BindPipeline 1%nat;
   GL.BindVertexBuffer 0 1%nat; GL.Draw 0 3;
   GL.EndRenderPass].

(** ** The allocator over a buffer of fixed size (unnamed/part_001)

    This version of [RendererImpl::ringBufferAllocate] has neither the
    guards on the alignment nor the two branches that replace the buffer;
    its wrap-around branch is the one of the current version, line by
    line. *)

Module FixedRing.

Definition ringBufferAllocate (st : Ring.State) (size alignment : Z)
  : result (Z * Ring.State) :=
  let add := u32 (alignment - 1) in
  let mask := u32not add in
  let alignedPtr := Z.land (u32 (Ring.ringBufPtr st + add)) mask in
  assert (Ring.ringBufPtr st <=? alignedPtr) ;;
  beginPtr ← Ring.umod alignedPtr (Ring.ringBufSize st);
  '(st, alignedPtr, beginPtr) ← Ring.wrapAround st size add mask alignedPtr beginPtr;
  let st := {| Ring.ringBufSize := Ring.ringBufSize st;
               Ring.ringBufPtr := u32 (alignedPtr + size);
               Ring.lastSyncedRingBufPtr := Ring.lastSyncedRingBufPtr st |} in
  Ok (beginPtr, st).

End FixedRing.

(** The bytes [offset, offset + size) of the block that an event of a run
    returned. *)
Definition inBlock (ev : Ring.Event) (x : Z) : Prop :=
  Ring.evOffset ev <= x < Ring.evOffset ev + Ring.evSize ev.

(** The state in which the allocator hands out blocks that are in use at
    the same time: the cursor is at or after the synchronisation mark and
    less than one capacity ahead of it. *)
Definition notLapped (st : Ring.State) : Prop :=
  0 <= Ring.lastSyncedRingBufPtr st <= Ring.ringBufPtr st /\
  Ring.ringBufPtr st < Ring.lastSyncedRingBufPtr st + Ring.ringBufSize st.

(** ** The shader cache, continued: sources, compilation and the files
       written (RendererCommon.cpp) *)

Module Compiler.

(** *** Files *)

(** Modelled from the spec: the file helpers [fileExists], [readFile],
    [writeFile] and [getFileTimestamp] of utils/Utils.h are not part of
    the sources at hand.  The design speaks of a file's "modification
    time" and counts a "file I/O failure reading source or cache" among
    the errors that end the operation.  A disk is a finite map from names
    to contents and modification times, with the time of day; writing a
    file gives it the time of day. *)
Record File : Type := mkFile {
  contents : string;
  timestamp : Z
}.

Record Disk : Type := mkDisk {
  files : gmap string File;
  clock : Z
}.

Definition fileExists (d : Disk) (name : string) : bool :=
  bool_decide (is_Some (files d !! name)).

(** [readFile] and [getFileTimestamp] where the caller has made sure of
    the file. *)
Definition fileContents (d : Disk) (name : string) : string :=
  from_option contents "" (files d !! name).

Definition getFileTimestamp (d : Disk) (name : string) : Z :=
  from_option timestamp 0 (files d !! name).

Definition readFile (d : Disk) (name : string) : result string :=
  match files d !! name with
  | Some f => Ok (contents f)
  | None => RuntimeError
  end.

Definition writeFile (d : Disk) (name data : string) : Disk :=
  mkDisk (<[name := mkFile data (clock d)]> (files d)) (clock d).

(** The bytes of an array of 32-bit words (little-endian host), as
    [writeFile(spvName, &spirv[0], spirv.size() * 4)] writes them. *)
Definition byteChar (z : Z) : ascii := ascii_of_N (Z.to_N (z mod 2 ^ 8)).

Fixpoint bytesOf (words : list Z) : string :=
  match words with
  | [] => ""
  | w :: words =>
      String (byteChar w)
        (String (byteChar (w / 2 ^ 8))
           (String (byteChar (w / 2 ^ 16))
              (String (byteChar (w / 2 ^ 24)) (bytesOf words))))
  end.

(** *** The compiler *)

Inductive ShaderKind : Type := Vertex | Fragment.

(** What [CompileGlslToSpv] does with the includer it is given: it ends
    with the words of the binary, or without any when the source does not
    compile, or it asks for a file by name and goes on with its
    contents. *)
Inductive Compilation : Type :=
| Finished (status : option (list Z))
| GetInclude (requested_source : string) (continue : string -> Compilation).

(** *** The renderer's part *)

Record State : Type := mkState {
  shaderSources : gmap string string;
  disk : Disk
}.

(** [RendererBase::loadSource] *)
Definition loadSource (st : State) (name : string) : result (string * State) :=
  match shaderSources st !! name with
  | Some source => Ok (source, st)
  | None =>
      source ← readFile (disk st) name;
      Ok (source, mkState (<[name := source]> (shaderSources st)) (disk st))
  end.

(** [Includer::GetInclude], for every file the compiler asks for: a file
    that is not in [cache] is read and put there. *)
Fixpoint runCompilation (d : Disk) (c : Compilation) (cache : gmap string string)
  : result (option (list Z) * gmap string string) :=
  match c with
  | Finished status => Ok (status, cache)
  | GetInclude requested_source continue =>
      match cache !! requested_source with
      | Some contents => runCompilation d (continue contents) cache
      | None =>
          contents ← readFile d requested_source;
          runCompilation d (continue contents) (<[requested_source := contents]> cache)
      end
  end.

Section Renderer.

(** The members [spirvCacheDir], [skipShaderCache] and [optimizeShaders]
    of the renderer, which this file does not set, and the libraries it
    calls: shaderc, the SPIRV-Tools optimizer, the glslang remapper and
    xxHash. *)
Variable spirvCacheDir : string.
Variable skipShaderCache : bool.
Variable optimizeShaders : bool.
Variable CompileGlslToSpv : string -> ShaderKind -> string -> gmap string string -> Compilation.
Variable optimizerRun : list Z -> option (list Z).
Variable remap : list Z -> list Z.
Variable XXH64 : list Z -> Z.

(** [loadCachedSPV] on a disk. *)
Definition loadCachedSPV (d : Disk) (name shaderName : string) : option (list Z) :=
  Cache.loadCachedSPV spirvCacheDir (fileExists d) (fileContents d) (getFileTimestamp d)
    name shaderName.

(** The last block of [compileSpirv]: the cache record and the binary are
    written.  The dependencies are the names in [cache], in the order in
    which the container gives them, which the language leaves open; here
    it is the order of the finite map.  [&spirv[0]] is undefined for an
    array without words. *)
Definition storeCachedSPV (d : Disk) (shaderName : string) (spirv : list Z)
    (cache : gmap string string) : result Disk :=
  let cacheData := Cache.mkCacheData Cache.shaderVersion (XXH64 spirv) [] in
  let buffer := Cache.hex8 (Cache.hash cacheData) in
  let spvName := spirvCacheDir +:+ buffer +:+ ".spv" in
  let cacheData :=
    Cache.mkCacheData (Cache.version cacheData) (Cache.hash cacheData)
      (Cache.dependencies cacheData ++ (map_to_list cache).*1) in
  let cacheStr := Cache.serialize cacheData in
  let cacheName := spirvCacheDir +:+ shaderName +:+ ".cache" in
  let d := writeFile d cacheName cacheStr in
  match spirv with
  | [] => Undefined
  | _ => Ok (writeFile d spvName (bytesOf spirv))
  end.

(** The SPIR-V optimization block. *)
Definition optimize (spirv : list Z) : result (list Z) :=
  if optimizeShaders then
    match spirv with
    | [] => Undefined
    | _ =>
        match optimizerRun spirv with
        | None => RuntimeError
        | Some optimized => Ok (remap optimized)
        end
    end
  else Ok spirv.

(** [RendererBase::compileSpirv].  Log lines are left out. *)
Definition compileSpirv (st : State) (name : string) (macros : gmap string string)
    (kind_ : ShaderKind) : result (list Z * State) :=
  let shaderName := Cache.shaderName name macros in
  match (if negb skipShaderCache then loadCachedSPV (disk st) name shaderName else None) with
  | Some spirv => Ok (spirv, st)
  | None =>
      '(src, st) ← loadSource st name;
      match src with
      | EmptyString => Undefined
      | _ =>
          '(status, cache) ← runCompilation (disk st) (CompileGlslToSpv src kind_ name macros) ∅;
          match status with
          | None => RuntimeError
          | Some spirv =>
              spirv ← optimize spirv;
              if negb skipShaderCache then
                d ← storeCachedSPV (disk st) shaderName spirv cache;
                Ok (spirv, mkState (shaderSources st) d)
              else Ok (spirv, st)
          end
      end
  end.

End Renderer.

End Compiler.

(** A cache directory whose record of [smaa.frag] has lost everything
    after the version. *)
Definition truncatedFiles : list (string * (string * Z)) :=
  [("cache/smaa.frag.cache", ("20", 5));
   ("cache/000000ff.spv", ("abcdefgh", 5));
   ("smaa.frag", ("void main() {}", 3))]%string.

(** A disk with the source of a shader and the header it includes, at
    time 5; a compiler that asks for the header and ends with a binary of
    two words; a hash that is the sum of the words. *)
Definition demoDisk : Compiler.Disk :=
  Compiler.mkDisk
    {[ "smaa.frag"%string := Compiler.mkFile "void main() {}" 3;
       "smaa.h"%string := Compiler.mkFile "#define SMAA" 4 ]}
    5.

Definition demoCompile (src : string) (kind : Compiler.ShaderKind) (name : string)
    (macros : gmap string string) : Compiler.Compilation :=
  Compiler.GetInclude "smaa.h"
    (fun _ => Compiler.Finished (Some [119734787; 65536])).

Definition demoHash (words : list Z) : Z := foldr Z.add 0 words mod 2 ^ 64.

(** The last character of a text. *)
Fixpoint lastChar (s : string) : option ascii :=
  match s with
  | EmptyString => None
  | String c EmptyString => Some c
  | String _ s' => lastChar s'
  end.

(** ** The OpenGL back end, continued: the order of the calls *)

(** [beginFrame] and [presentFrame] take turns in a sequence of calls:
    [beginFrame] comes outside a frame and [presentFrame] inside one.
    [inFrame] tells whether the sequence starts inside a frame. *)
Fixpoint framesAlternate (inFrame : bool) (cs : list GL.Call) : bool :=
  match cs with
  | [] => true
  | GL.BeginFrame :: cs => negb inFrame && framesAlternate true cs
  | GL.PresentFrame _ :: cs => inFrame && framesAlternate false cs
  | _ :: cs => framesAlternate inFrame cs
  end.

(** The calls that take the bound pipeline away: [beginFrame] and
    [beginRenderPass]. *)
Definition unbindsPipeline (c : GL.Call) : bool :=
  match c with
  | GL.BeginFrame | GL.BeginRenderPass _ _ => true
  | _ => false
  end.

(** The calls that need a bound pipeline: the draw calls,
    [setScissorRect], [bindIndexBuffer] and [bindVertexBuffer]. *)
Definition needsPipeline (c : GL.Call) : bool :=
  match c with
  | GL.SetScissorRect _ _ _ _ | GL.BindIndexBuffer _ _ | GL.BindVertexBuffer _ _ => true
  | _ => GL.isDraw c
  end.

(** [demoRenderer] with a render pass that leaves its target ready for
    reading in a shader, in the middle of that pass. *)
Definition offscreenRenderer : GL.State :=
  GL.mkState
    (GL.swapchainDesc demoRenderer) (GL.ring demoRenderer)
    true true false true false
    (GL.ringBuffer demoRenderer) (GL.persistentMapInUse demoRenderer)
    (GL.uboAlign demoRenderer) (GL.ssboAlign demoRenderer)
    (GL.buffers demoRenderer) (GL.textures demoRenderer) (GL.renderTargets demoRenderer)
    {[ 1%nat := GL.RenderPass.mk (GL.RenderPassDesc.mk (Some "offscreen") GL.Layout.ShaderRead) ]}
    (GL.framebuffers demoRenderer) (GL.pipelines demoRenderer) (GL.dsLayouts demoRenderer)
    (GL.vertexShaders demoRenderer) (GL.fragmentShaders demoRenderer)
    []
    1%nat 1%nat GL.PipelineDesc.initial
    false 0
    (GL.glNames demoRenderer).

(** ** The OpenGL back end, continued: textures and render targets *)

Module GLResources.

Import GL.

Definition set_textures (v : gmap nat Texture.t) (st : State) : State :=
  mkState
    (swapchainDesc st) (ring st) (inFrame st) (inRenderPass st)
    (validPipeline st) (pipelineDrawn st) (scissorSet st) (ringBuffer st)
    (persistentMapInUse st) (uboAlign st) (ssboAlign st) (buffers st) v
    (renderTargets st) (renderPasses st) (framebuffers st) (pipelines st)
    (dsLayouts st) (vertexShaders st) (fragmentShaders st)
    (ephemeralBuffers st) (currentRenderPass st) (currentFramebuffer st)
    (currentPipeline st) (idxBuf16Bit st) (indexBufByteOffset st)
    (glNames st).

(** The formats that this version of the back end knows. *)
Module Format.
Inductive t : Type := Invalid | R8 | RG8 | RGB8 | RGBA8 | Depth16.

#[global] Instance eq_dec : EqDecision t.
Proof. solve_decision. Defined.
End Format.

Inductive GLenum : Type :=
| GL_R8 | GL_RG8 | GL_RGB8 | GL_RGBA8 | GL_DEPTH_COMPONENT16
| GL_RED | GL_RG | GL_RGB | GL_RGBA | GL_NONE.

(** [glTexFormat]; [__builtin_unreachable()] is undefined when it is
    reached. *)
Definition glTexFormat (format : Format.t) : result GLenum :=
  match format with
  | Format.Invalid => Undefined
  | Format.R8 => Ok GL_R8
  | Format.RG8 => Ok GL_RG8
  | Format.RGB8 => Ok GL_RGB8
  | Format.RGBA8 => Ok GL_RGBA8
  | Format.Depth16 => Ok GL_DEPTH_COMPONENT16
  end.

(** [glTexBaseFormat] *)
Definition glTexBaseFormat (format : Format.t) : result GLenum :=
  match format with
  | Format.Invalid => Undefined
  | Format.R8 => Ok GL_RED
  | Format.RG8 => Ok GL_RG
  | Format.RGB8 => Ok GL_RGB
  | Format.RGBA8 => Ok GL_RGBA
  | Format.Depth16 => assert false ;; Ok GL_NONE
  end.

Module MipLevel.
Record t : Type := mk {
  data : option string;
  size : Z
}.
End MipLevel.

Module TextureDesc.
Record t : Type := mk {
  width_ : Z;
  height_ : Z;
  numMips_ : Z;
  format_ : Format.t;
  mipData_ : list MipLevel.t
}.
End TextureDesc.

Module RenderTargetDesc.
Record t : Type := mk {
  width_ : Z;
  height_ : Z;
  format_ : Format.t;
  name_ : option string
}.
End RenderTargetDesc.

(** One call of [glTextureSubImage2D]: the level, the size of the level,
    the format and the pixels. *)
Record Upload : Type := mkUpload {
  level : Z;
  uploadWidth : Z;
  uploadHeight : Z;
  uploadFormat : GLenum;
  pixels : option string
}.

(** The texture that [textures.add()] hands out.  The constructor of
    [Texture] is in a header that is not part of the sources at hand;
    [createTexture] asserts right after [add()] that [renderTarget] is not
    set, and the names of textures that have been deleted are 0. *)
Definition newTexture : Texture.t := Texture.mk 0 0 0 false.

(** The loop of [createTexture] over the mip levels [i], [i + 1], ...;
    [mipData_] is an array, and a level that it does not hold is read
    past its end. *)
Fixpoint uploadMips (desc : TextureDesc.t) (count : nat) (i w h : Z)
  : result (list Upload) :=
  match count with
  | O => Ok []
  | S count =>
      match TextureDesc.mipData_ desc !! Z.to_nat i with
      | None => Undefined
      | Some mip =>
          assert (bool_decide (is_Some (MipLevel.data mip))) ;;
          assert (negb (MipLevel.size mip =? 0)) ;;
          format ← glTexBaseFormat (TextureDesc.format_ desc);
          let upload := mkUpload i w h format (MipLevel.data mip) in
          let w := Z.max (w / 2) 1 in
          let h := Z.max (h / 2) 1 in
          uploads ← uploadMips desc count (i + 1) w h;
          Ok (upload :: uploads)
      end
  end.

(** [RendererImpl::createTexture]; returns the handle, the renderer and
    the levels uploaded. *)
Definition createTexture (st : State) (desc : TextureDesc.t)
  : result (Handle * State * list Upload) :=
  assert (0 <? TextureDesc.width_ desc) ;;
  assert (0 <? TextureDesc.height_ desc) ;;
  assert (0 <? TextureDesc.numMips_ desc) ;;
  let '(texture, st) := glCreate st in
  glTexFormat (TextureDesc.format_ desc) ;;
  uploads ← uploadMips desc (Z.to_nat (TextureDesc.numMips_ desc)) 0
              (TextureDesc.width_ desc) (TextureDesc.height_ desc);
  let '(handle, textures) := ResourceContainer.add newTexture (textures st) in
  let tex := Texture.mk texture (TextureDesc.width_ desc) (TextureDesc.height_ desc)
               (Texture.renderTarget newTexture) in
  assert (negb (Texture.renderTarget tex)) ;;
  Ok (handle, set_textures (<[handle := tex]> textures) st, uploads).

(** [RendererImpl::deleteTexture] *)
Definition deleteTexture (st : State) (handle : Handle) : result State :=
  textures ← ResourceContainer.removeWith (textures st) handle (fun tex =>
    assert (negb (Texture.renderTarget tex)) ;;
    assert (negb (Texture.tex tex =? 0)) ;;
    Ok (Texture.mk 0 (Texture.width tex) (Texture.height tex) (Texture.renderTarget tex)));
  Ok (set_textures textures st).

Section RenderTargets.

(** The render target that [renderTargets.add()] hands out: the
    constructor of [RenderTarget] is in a header that is not part of the
    sources at hand, and [createRenderTarget] leaves [readFBO] and
    [currentLayout] as the constructor has set them. *)
Variable newRenderTarget : RenderTarget.t.

(** [RendererImpl::createRenderTarget] *)
Definition createRenderTarget (st : State) (desc : RenderTargetDesc.t)
  : result (Handle * State) :=
  assert (0 <? RenderTargetDesc.width_ desc) ;;
  assert (0 <? RenderTargetDesc.height_ desc) ;;
  assert (bool_decide (RenderTargetDesc.format_ desc <> Format.Invalid)) ;;
  assert (bool_decide (is_Some (RenderTargetDesc.name_ desc))) ;;
  let '(id, st) := glCreate st in
  glTexFormat (RenderTargetDesc.format_ desc) ;;
  let '(textureHandle, textures) := ResourceContainer.add newTexture (textures st) in
  let tex := Texture.mk id (RenderTargetDesc.width_ desc) (RenderTargetDesc.height_ desc) true in
  let st := set_textures (<[textureHandle := tex]> textures) st in
  let '(handle, renderTargets) := ResourceContainer.add newRenderTarget (renderTargets st) in
  let rt := RenderTarget.mk (RenderTargetDesc.width_ desc) (RenderTargetDesc.height_ desc)
              textureHandle (RenderTarget.readFBO newRenderTarget)
              (RenderTarget.currentLayout newRenderTarget) in
  Ok (handle, set_renderTargets (<[handle := rt]> renderTargets) st).

End RenderTargets.

(** [RendererImpl::getRenderTargetTexture] *)
Definition getRenderTargetTexture (st : State) (handle : Handle) : result Handle :=
  rt ← ResourceContainer.get (renderTargets st) handle;
  tex ← ResourceContainer.get (textures st) (RenderTarget.texture rt);
  assert (Texture.renderTarget tex) ;;
  Ok (RenderTarget.texture rt).

(** [RendererImpl::deleteRenderTarget].  The closure that it hands to
    [removeWith] changes the container of textures as well: [removeWith]
    is written out here, the lookup first, then the closure, then the
    removal.  The frame buffer for reading that the closure deletes, when
    there is one, belongs to the render target and goes with it. *)
Definition deleteRenderTarget (st : State) (handle : Handle) : result State :=
  rt ← ResourceContainer.get (renderTargets st) handle;
  assert (isValid (RenderTarget.texture rt)) ;;
  tex ← ResourceContainer.get (textures st) (RenderTarget.texture rt);
  assert (Texture.renderTarget tex) ;;
  let tex := Texture.mk (Texture.tex tex) (Texture.width tex) (Texture.height tex) false in
  assert (negb (Texture.tex tex =? 0)) ;;
  let tex := Texture.mk 0 (Texture.width tex) (Texture.height tex) (Texture.renderTarget tex) in
  let st := set_textures (<[RenderTarget.texture rt := tex]> (textures st)) st in
  textures ← ResourceContainer.remove (textures st) (RenderTarget.texture rt);
  let st := set_textures textures st in
  Ok (set_renderTargets (delete handle (renderTargets st)) st).

End GLResources.

(** A texture of 8 by 2 pixels with four mip levels. *)
Definition demoTextureDesc : GLResources.TextureDesc.t :=
  GLResources.TextureDesc.mk 8 2 4 GLResources.Format.RGBA8
    [GLResources.MipLevel.mk (Some "level 0") 64;
     GLResources.MipLevel.mk (Some "level 1") 16;
     GLResources.MipLevel.mk (Some "level 2") 8;
     GLResources.MipLevel.mk (Some "level 3") 4]%string.

(** The size of mip level [i] of a texture whose level 0 has [w]
    pixels in one direction. *)
Definition mipSize (w : Z) (i : nat) : Z := Z.max (w / 2 ^ Z.of_nat i) 1.

(** ** The OpenGL back end, continued: the vertex attributes of a
       pipeline ([bindPipeline]) *)

Module VertexAttribs.

(** [__builtin_ctz(x)], the position of the lowest bit of [x] that is
    set.  It is undefined for 0, and neither loop calls it there. *)
Fixpoint ctzFrom (fuel : nat) (x i : Z) : Z :=
  match fuel with
  | O => i
  | S fuel => if Z.testbit x i then i else ctzFrom fuel x (i + 1)
  end.

Definition ctz (x : Z) : Z := ctzFrom 32 x 0.

(** The loop

      [while (x != 0) { int bit = __builtin_ctz(x); uint32_t mask = 1 << bit;
                        ...; x &= ~mask; }]

    which [bindPipeline] runs twice, over the attributes that change and
    over the attributes of the new pipeline.  [body] is what an iteration
    does with [bit] and [mask]; the result holds what the iterations have
    done, in order, and the value of [x] when the loop ends.  [None]: the
    loop has not ended after [fuel] iterations. *)
Fixpoint forEachSetBit {A : Type} (fuel : nat) (x : Z) (body : Z -> Z -> A)
  : option (list A * Z) :=
  if x =? 0 then Some ([], x)
  else match fuel with
       | O => None
       | S fuel =>
           let bit := ctz x in
           let mask := u32 (Z.shiftl 1 bit) in
           let a := body bit mask in
           '(l, x) ← forEachSetBit fuel (Z.land x (u32not mask)) body;
           Some (a :: l, x)
       end.

Inductive VtxFormat : Type := Float | UNorm8.

Record VertexAttr : Type := mkVertexAttr {
  format : VtxFormat;
  count : Z;
  offset : Z;
  bufBinding : Z
}.

Inductive GLtype : Type := GL_NONE | GL_FLOAT | GL_UNSIGNED_BYTE.

(** The calls into the driver. *)
Inductive GLCall : Type :=
| glEnableVertexAttribArray (index : Z)
| glDisableVertexAttribArray (index : Z)
| glVertexAttribFormat (index size : Z) (type : GLtype) (normalized : bool)
    (relativeoffset : Z)
| glVertexAttribBinding (index bindingindex : Z).

(** The body of the first loop. *)
Definition toggle (newMask bit mask : Z) : GLCall :=
  if negb (Z.land newMask mask =? 0) then glEnableVertexAttribArray bit
  else glDisableVertexAttribArray bit.

(** The body of the second loop; [None] when [attribs[bit]] is read past
    the end of the array. *)
Definition setFormat (attribs : list VertexAttr) (bit mask : Z) : option (list GLCall) :=
  attr ← attribs !! Z.to_nat bit;
  let '(format, normalized) :=
    match format attr with
    | Float => (GL_FLOAT, false)
    | UNorm8 => (GL_UNSIGNED_BYTE, true)
    end in
  Some [glVertexAttribFormat bit (count attr) format normalized (offset attr);
        glVertexAttribBinding bit (bufBinding attr)].

(** The first loop: "enable/disable changed attributes". *)
Definition toggleAttribs (fuel : nat) (oldMask newMask : Z) : option (list GLCall * Z) :=
  let vattrChanged := Z.lxor oldMask newMask in
  forEachSetBit fuel vattrChanged (toggle newMask).

(** The second loop: "set format on new attributes". *)
Definition formatAttribs (fuel : nat) (newMask : Z) (attribs : list VertexAttr)
  : option (list (option (list GLCall)) * Z) :=
  forEachSetBit fuel newMask (setFormat attribs).

(** The second loop as it is written for compilers without
    [__builtin_ctz]: [_BitScanForward] looks for the lowest bit of
    [vattrChanged], the loop ends when there is none, and an iteration
    clears the bit in [newMask]. *)
Fixpoint formatAttribsBitScan (fuel : nat) (vattrChanged newMask : Z)
    (attribs : list VertexAttr) : option (list (option (list GLCall))) :=
  if vattrChanged =? 0 then Some []
  else match fuel with
       | O => None
       | S fuel =>
           let bit := ctz vattrChanged in
           let mask := u32 (Z.shiftl 1 bit) in
           let a := setFormat attribs bit mask in
           l ← formatAttribsBitScan fuel vattrChanged (Z.land newMask (u32not mask)) attribs;
           Some (a :: l)
       end.

(** The two loops of [bindPipeline], one after the other: the calls made,
    or [Undefined] when an attribute is read past the end of
    [vertexAttribs]. *)
Definition bindVertexAttribs (fuel : nat) (oldMask newMask : Z) (attribs : list VertexAttr)
  : option (result (list GLCall)) :=
  '(toggles, vattrChanged) ← toggleAttribs fuel oldMask newMask;
  '(formats, _) ← formatAttribs fuel newMask attribs;
  Some (match mapM id formats with
        | Some formats => Ok (toggles ++ concat formats)
        | None => Undefined
        end).

(** The same for compilers without [__builtin_ctz]; the first loop does
    there what it does here. *)
Definition bindVertexAttribsBitScan (fuel : nat) (oldMask newMask : Z)
    (attribs : list VertexAttr) : option (result (list GLCall)) :=
  '(toggles, vattrChanged) ← toggleAttribs fuel oldMask newMask;
  formats ← formatAttribsBitScan fuel vattrChanged newMask attribs;
  Some (match mapM id formats with
        | Some formats => Ok (toggles ++ concat formats)
        | None => Undefined
        end).

End VertexAttribs.

(** The positions below 32 of the bits of [x] that are set, from the
    lowest. *)
Definition setBits (x : Z) : list Z := List.filter (Z.testbit x) (seqZ 0 32).

(** The vertex attribute arrays that are enabled in the driver, as a set
    of bits, after a sequence of calls. *)
Definition enabledAfter (enabled : Z) (calls : list VertexAttribs.GLCall) : Z :=
  foldl (fun enabled c =>
           match c with
           | VertexAttribs.glEnableVertexAttribArray index => Z.setbit enabled index
           | VertexAttribs.glDisableVertexAttribArray index => Z.clearbit enabled index
           | _ => enabled
           end) enabled calls.

(** The attributes of a pipeline with positions and colours, and what
    [setFormat] passes to the driver for them. *)
Definition demoAttribs : list VertexAttribs.VertexAttr :=
  [VertexAttribs.mkVertexAttr VertexAttribs.Float 3 0 0;
   VertexAttribs.mkVertexAttr VertexAttribs.UNorm8 4 12 0].

(** ** The OpenGL back end, continued: the text of a shader
       ([spirv2glsl]) *)

Module ShaderText.

(** ['\n'] *)
Definition newline : string := String (ascii_of_nat 10) "".

(** [spirv2glsl]; [src_] stands for the result of [glsl.compile()].  The
    function is given with the number of characters that it reserves for
    its result; a [size_t] holds the length of any text in memory. *)
Definition spirv2glsl (name : string) (macros : gmap string string) (src_ : string)
  : nat * string :=
  let result := "" in
  let size := (String.length src_ + 3 + String.length name + 1)%nat in
  let '(size, sorted) :=
    foldl (fun '(size, sorted) macro =>
             let str := Cache.macroString macro in
             ((size + (3 + String.length str + 1))%nat, sorted ++ [str]))
          (size, []) (map_to_list macros) in
  let sorted := merge_sort String.le sorted in
  let result := result +:+ "// " in
  let result := result +:+ name in
  let result := result +:+ newline in
  let result :=
    foldl (fun result s => (result +:+ "// " +:+ s) +:+ newline) result sorted in
  let result := result +:+ src_ in
  (size, result).

End ShaderText.

(** The characters that the comment lines for the macros [strs] take. *)
Fixpoint commentLength (strs : list string) : nat :=
  match strs with
  | [] => 0
  | str :: strs => 3 + String.length str + 1 + commentLength strs
  end%nat.

(** ** Formats and names (RendererCommon.cpp) *)

Module Names.

Module Format.
Inductive t : Type :=
| Invalid | R8 | RG8 | RGB8 | RGBA8 | sRGBA8 | RG16Float | RGBA16Float | RGBA32Float
| Depth16 | Depth16S8 | Depth24S8 | Depth24X8 | Depth32Float.

#[global] Instance eq_dec : EqDecision t.
Proof. solve_decision. Defined.
End Format.

Section Unreachable.

(** The macro [UNREACHABLE] of utils/Utils.h is not part of the sources
    at hand: what it does where it is reached is left open. *)
Variable UNREACHABLE : result unit.

(** [descriptorTypeName] *)
Definition descriptorTypeName (t : GL.DescriptorType.t) : result string :=
  match t with
  | GL.DescriptorType.End_ => Ok "End"
  | GL.DescriptorType.UniformBuffer => Ok "UniformBuffer"
  | GL.DescriptorType.StorageBuffer => Ok "StorageBuffer"
  | GL.DescriptorType.Sampler => Ok "Sampler"
  | GL.DescriptorType.Texture => Ok "Texture"
  | GL.DescriptorType.CombinedSampler => Ok "CombinedSampler"
  | GL.DescriptorType.Count => UNREACHABLE ;; Ok "Count"
  end%string.

(** [isDepthFormat] *)
Definition isDepthFormat (format : Format.t) : result bool :=
  match format with
  | Format.Invalid => UNREACHABLE ;; Ok false
  | Format.R8 => Ok false
  | Format.RG8 => Ok false
  | Format.RGB8 => Ok false
  | Format.RGBA8 => Ok false
  | Format.sRGBA8 => Ok false
  | Format.RG16Float | Format.RGBA16Float => Ok false
  | Format.RGBA32Float => Ok false
  | Format.Depth16 => Ok true
  | Format.Depth16S8 => Ok true
  | Format.Depth24S8 => Ok true
  | Format.Depth24X8 => Ok true
  | Format.Depth32Float => Ok true
  end.

(** [issRGBFormat] *)
Definition issRGBFormat (format : Format.t) : result bool :=
  match format with
  | Format.Invalid => UNREACHABLE ;; Ok false
  | Format.R8 | Format.RG8 | Format.RGB8 | Format.RGBA8
  | Format.RG16Float | Format.RGBA16Float | Format.RGBA32Float => Ok false
  | Format.sRGBA8 => Ok true
  | Format.Depth16 | Format.Depth16S8 | Format.Depth24S8 | Format.Depth24X8
  | Format.Depth32Float => Ok false
  end.

(** [formatSize] *)
Definition formatSize (format : Format.t) : result Z :=
  match format with
  | Format.Invalid => UNREACHABLE ;; Ok 4
  | Format.R8 => Ok 1
  | Format.RG8 => Ok 2
  | Format.RGB8 => Ok 3
  | Format.RGBA8 => Ok 4
  | Format.sRGBA8 => Ok 4
  | Format.RG16Float => Ok (2 * 2)
  | Format.RGBA16Float => Ok (4 * 2)
  | Format.RGBA32Float => Ok (4 * 4)
  | Format.Depth16 => Ok 2
  | Format.Depth16S8 => Ok 4
  | Format.Depth24S8 => Ok 4
  | Format.Depth24X8 => Ok 4
  | Format.Depth32Float => Ok 4
  end.

End Unreachable.

(** [layoutName] *)
Definition layoutName (layout : GL.Layout.t) : string :=
  match layout with
  | GL.Layout.Undefined => "Undefined"
  | GL.Layout.ShaderRead => "ShaderRead"
  | GL.Layout.TransferSrc => "TransferSrc"
  | GL.Layout.TransferDst => "TransferDst"
  | GL.Layout.ColorAttachment => "ColorAttachment"
  end.

(** [formatName] *)
Definition formatName (format : Format.t) : string :=
  match format with
  | Format.Invalid => "Invalid"
  | Format.R8 => "R8"
  | Format.RG8 => "RG8"
  | Format.RGB8 => "RGB8"
  | Format.RGBA8 => "RGBA8"
  | Format.sRGBA8 => "sRGBA8"
  | Format.RG16Float => "RG16Float"
  | Format.RGBA16Float => "RGBA16Float"
  | Format.RGBA32Float => "RGBA32Float"
  | Format.Depth16 => "Depth16"
  | Format.Depth16S8 => "Depth16S8"
  | Format.Depth24S8 => "Depth24S8"
  | Format.Depth24X8 => "Depth24X8"
  | Format.Depth32Float => "Depth32Float"
  end.

End Names.

(* ===================================================================== *)
(** * Part II: properties                                                 *)
(* ===================================================================== *)

(** ** Reasoning about outcomes *)

Lemma bind_Ok {A B : Type} (r : result A) (k : A -> result B) (b : B) :
  r ≫= k = Ok b -> exists a, r = Ok a /\ k a = Ok b.
Proof. destruct r; simpl; intros H; try discriminate H. eauto. Qed.

Lemma assert_Ok (c : bool) (u : unit) : assert c = Ok u -> c = true.
Proof. destruct c; [reflexivity | discriminate]. Qed.

Lemma assert_true (c : bool) : c = true -> assert c = Ok tt.
Proof. intros ->. reflexivity. Qed.

Lemma assert_false_bind {B : Type} (c : bool) (k : unit -> result B) :
  c = false -> assert c ≫= k = AssertFail.
Proof. intros ->. reflexivity. Qed.

(** Splits a hypothesis [c1 ;; c2 ;; ... = Ok x] into its steps. *)
Ltac ok_step H :=
  let a := fresh "a" in
  let H1 := fresh "Hstep" in
  apply bind_Ok in H; destruct H as (a & H1 & H);
  try (apply assert_Ok in H1).

Ltac ok_steps H := repeat (ok_step H).

Lemma bind_Ok_l {A B : Type} (a : A) (k : A -> result B) : Ok a ≫= k = k a.
Proof. reflexivity. Qed.

(** Case analysis on the first guard of a goal [... = AssertFail]. *)
Ltac guard_case :=
  match goal with
  | |- context [assert ?c] =>
      let E := fresh "Hguard" in
      destruct c eqn:E;
      [change (assert true) with (Ok tt : result unit); rewrite bind_Ok_l
      | reflexivity]
  end.

(** Case analysis on the first guard of a goal that compares two
    outcomes. *)
Ltac guard_split :=
  match goal with
  | |- context [assert ?c] =>
      destruct c;
      [change (assert true) with (Ok tt : result unit); rewrite !bind_Ok_l
      | reflexivity]
  end.

(** ** Arithmetic on 32 bits *)

Lemma u32_range z : 0 <= u32 z < 2 ^ 32.
Proof. unfold u32. apply Z.mod_pos_bound. lia. Qed.

Lemma u32_small z : 0 <= z < 2 ^ 32 -> u32 z = z.
Proof. unfold u32. apply Z.mod_small. Qed.

Lemma isPow2_spec v : isPow2 v = true -> exists k, 0 <= k /\ v = 2 ^ k.
Proof.
  unfold isPow2. intros [_ H]%andb_true_iff.
  apply Z.eqb_eq in H. exists (Z.log2 v). split; [apply Z.log2_nonneg | exact H].
Qed.

Lemma isPow2_pow k : 0 <= k -> isPow2 (2 ^ k) = true.
Proof.
  intros Hk. unfold isPow2. apply andb_true_iff. split.
  - apply Z.ltb_lt. apply Z.pow_pos_nonneg; lia.
  - apply Z.eqb_eq. rewrite Z.log2_pow2 by lia. reflexivity.
Qed.

(** Two powers of two: one divides the other. *)
Lemma pow2_divide_or a b :
  isPow2 a = true -> isPow2 b = true -> (a | b) \/ (b | a).
Proof.
  intros (i & Hi & ->)%isPow2_spec (j & Hj & ->)%isPow2_spec.
  destruct (Z_le_gt_dec i j).
  - left. exists (2 ^ (j - i)). rewrite <- Z.pow_add_r by lia. f_equal. lia.
  - right. exists (2 ^ (i - j)). rewrite <- Z.pow_add_r by lia. f_equal. lia.
Qed.

(** [x & ~(a - 1)] is a multiple of [a], for a power of two [a]. *)
Lemma land_mask_multiple x a :
  isPow2 a = true -> isU32 a ->
  (a | Z.land x (u32not (u32 (a - 1)))).
Proof.
  intros (k & Hk & ->)%isPow2_spec Ha. unfold isU32 in Ha.
  assert (Hp : 0 < 2 ^ k) by (apply Z.pow_pos_nonneg; lia).
  rewrite u32_small by lia.
  apply Z.mod_divide; [lia |].
  rewrite <- Z.land_ones by lia.
  unfold u32not, u32. rewrite <- (Z.land_ones _ 32) by lia.
  replace (2 ^ k - 1) with (Z.ones k) by (rewrite Z.ones_equiv; lia).
  assert (E : Z.land (Z.land (Z.lnot (Z.ones k)) (Z.ones 32)) (Z.ones k) = 0).
  { rewrite <- Z.land_assoc, (Z.land_comm (Z.ones 32)), Z.land_assoc.
    rewrite (Z.land_comm (Z.lnot _)), Z.land_lnot_diag. apply Z.land_0_l. }
  rewrite <- Z.land_assoc, E. apply Z.land_0_r.
Qed.

(** [x & ~(a - 1)] rounds [x] down to a multiple of [a]. *)
Lemma land_mask_value x a :
  isPow2 a = true -> isU32 a -> 0 <= x < 2 ^ 32 ->
  Z.land x (u32not (a - 1)) = x - x mod a.
Proof.
  intros (k & Hk & ->)%isPow2_spec Ha Hx. unfold isU32 in Ha.
  assert (Hp : 0 < 2 ^ k) by (apply Z.pow_pos_nonneg; lia).
  replace (2 ^ k - 1) with (Z.ones k) by (rewrite Z.ones_equiv; lia).
  unfold u32not, u32. rewrite <- (Z.land_ones _ 32) by lia.
  rewrite (Z.land_comm (Z.lnot _)), Z.land_assoc.
  rewrite (Z.land_ones x 32), (Z.mod_small x) by lia.
  rewrite <- Z.ldiff_land, Z.ldiff_ones_r by lia.
  rewrite Z.shiftr_div_pow2, Z.shiftl_mul_pow2 by lia.
  rewrite Z.mod_eq by lia. lia.
Qed.

Lemma u32not_value x : 0 <= x < 2 ^ 32 -> u32not x = 2 ^ 32 - 1 - x.
Proof.
  intros Hx. unfold u32not, u32, Z.lnot.
  symmetry. apply (Z.mod_unique_pos _ _ (-1)); lia.
Qed.

Lemma u32not_involutive x : 0 <= x < 2 ^ 32 -> u32not (u32not x) = x.
Proof. intros Hx. rewrite (u32not_value x), u32not_value by lia. lia. Qed.

(** The remainder of a multiple of [a] by a power of two is again a
    multiple of [a], when [a] is a power of two. *)
Lemma mod_pow2_multiple x a s :
  isPow2 a = true -> isPow2 s = true -> (a | x) -> (a | x mod s).
Proof.
  intros Ha Hs Hx.
  assert (0 < s) by (unfold isPow2 in Hs; apply andb_true_iff in Hs; lia).
  destruct (pow2_divide_or a s Ha Hs) as [Has | Hsa].
  - rewrite Z.mod_eq by lia.
    apply Z.divide_sub_r; [exact Hx |].
    apply Z.divide_mul_l. exact Has.
  - assert (Hsx : (s | x)) by (eapply Z.divide_trans; eassumption).
    apply Z.mod_divide in Hsx; [| lia]. rewrite Hsx. apply Z.divide_0_r.
Qed.

(** ** The ring-buffer allocator *)

Section RingProofs.

Import Ring.

Lemma growFor_fits st size :
  size <= ringBufSize st -> growFor st size = Ok st.
Proof.
  intros H. unfold growFor.
  destruct (Z.ltb_spec (ringBufSize st) size); [lia | reflexivity].
Qed.

(** After the second [if], either nothing has changed and the block fits
    before the end, or the block starts at offset 0 and is smaller than
    the buffer. *)
Lemma wrapAround_Ok st size add mask alignedPtr beginPtr st1 alignedPtr1 beginPtr1 :
  wrapAround st size add mask alignedPtr beginPtr = Ok (st1, alignedPtr1, beginPtr1) ->
  ringBufSize st1 = ringBufSize st /\
  ((beginPtr1 = beginPtr /\ u32 (beginPtr + size) < ringBufSize st) \/
   (beginPtr1 = 0 /\ u32 (0 + size) < ringBufSize st)).
Proof.
  unfold wrapAround.
  destruct (Z.leb_spec (ringBufSize st) (u32 (beginPtr + size))) as [Hge | Hlt].
  - intros H. ok_steps H. simpl in *.
    injection H as <- <- <-. simpl.
    apply Z.eqb_eq in Hstep3. apply Z.ltb_lt in Hstep2. subst.
    split; [reflexivity | right; split; [reflexivity | exact Hstep2]].
  - intros [= <- <- <-]. split; [reflexivity | left; split; [reflexivity | exact Hlt]].
Qed.

(** After the third [if], either nothing has changed, or the buffer is
    new, the block starts at offset 0 and is smaller than the buffer. *)
Lemma outOfSpace_Ok st size beginPtr offset st' :
  outOfSpace st size beginPtr = Ok (offset, st') ->
  (offset = beginPtr /\ ringBufSize st' = ringBufSize st) \/
  (offset = 0 /\ size < ringBufSize st').
Proof.
  unfold outOfSpace.
  destruct (u32 (lastSyncedRingBufPtr st + ringBufSize st) <=? ringBufPtr st).
  - intros H. ok_steps H. injection H as <- <-. simpl.
    right. split; [reflexivity | apply Z.ltb_lt; exact Hstep].
  - intros [= <- <-]. left. split; reflexivity.
Qed.

Lemma umod_Ok x m r : umod x m = Ok r -> m <> 0 /\ r = x mod m.
Proof.
  unfold umod. destruct (Z.eqb_spec m 0); [discriminate |].
  intros [= <-]. split; [assumption | reflexivity].
Qed.

(** One call: what a returned offset satisfies. *)
Lemma ringBufferAllocate_offset st size alignment offset st' :
  isU32 size -> isU32 alignment -> isPow2 alignment = true ->
  size <= ringBufSize st -> ringBufSize st <= 2 ^ 31 ->
  isPow2 (ringBufSize st) = true ->
  ringBufferAllocate st size alignment = Ok (offset, st') ->
  offset mod alignment = 0 /\ 0 <= offset /\ offset + size < ringBufSize st'.
Proof.
  intros Hsize Ha Hpa Hle Hcap Hps H.
  assert (Hapos : 0 < alignment)
    by (unfold isPow2 in Hpa; apply andb_true_iff in Hpa; lia).
  assert (Hspos : 0 < ringBufSize st)
    by (unfold isPow2 in Hps; apply andb_true_iff in Hps; lia).
  unfold isU32 in *.
  unfold ringBufferAllocate in H. ok_steps H.
  rewrite growFor_fits in Hstep1 by exact Hle. injection Hstep1 as <-.
  apply umod_Ok in Hstep3 as [_ ->].
  destruct a4 as [[st1 alignedPtr1] beginPtr1].
  apply wrapAround_Ok in Hstep4 as [Hcap1 Hwrap].
  apply outOfSpace_Ok in H. simpl in H.
  set (alignedPtr := Z.land _ _) in *.
  assert (Hal : (alignment | alignedPtr mod ringBufSize st)).
  { apply mod_pow2_multiple; try assumption.
    apply land_mask_multiple; assumption. }
  assert (Hb : 0 <= alignedPtr mod ringBufSize st < ringBufSize st)
    by (apply Z.mod_pos_bound; lia).
  destruct H as [[-> Hcap'] | [-> Hnew]].
  - rewrite Hcap', Hcap1.
    destruct Hwrap as [[-> Hfit] | [-> Hfit]].
    + rewrite u32_small in Hfit by lia.
      split; [| lia].
      apply Z.mod_divide in Hal; [exact Hal | lia].
    + rewrite u32_small in Hfit by lia.
      split; [apply Z.mod_0_l; lia | lia].
  - split; [apply Z.mod_0_l; lia | lia].
Qed.

(** A request smaller than a buffer whose size is a power of two, with an
    alignment that is not larger than the buffer, returns an offset as long
    as the cursor stays away from the end of the 32 bits. *)
Lemma ringBufferAllocate_returns st size alignment :
  isPow2 (ringBufSize st) = true -> ringBufSize st <= 2 ^ 30 ->
  isPow2 alignment = true -> alignment <= ringBufSize st ->
  0 <= size < ringBufSize st ->
  0 <= ringBufPtr st -> ringBufPtr st + ringBufSize st + alignment <= 2 ^ 32 ->
  exists offset st', ringBufferAllocate st size alignment = Ok (offset, st').
Proof.
  intros Hps Hcap Hpa Hale Hsize Hp0 Hp.
  assert (Hapos : 0 < alignment)
    by (unfold isPow2 in Hpa; apply andb_true_iff in Hpa; lia).
  assert (Ha : isU32 alignment) by (unfold isU32; lia).
  assert (Hdiv : (alignment | ringBufSize st)).
  { destruct (pow2_divide_or alignment (ringBufSize st) Hpa Hps) as [H | H]; [exact H |].
    apply Z.divide_pos_le in H; [| lia].
    replace alignment with (ringBufSize st) by lia. apply Z.divide_refl. }
  unfold ringBufferAllocate.
  rewrite (assert_true (negb _)) by (apply negb_true_iff, Z.eqb_neq; lia).
  rewrite bind_Ok_l, (assert_true _ Hpa), bind_Ok_l.
  rewrite growFor_fits by lia. rewrite bind_Ok_l.
  rewrite (u32_small (alignment - 1)) by lia.
  rewrite (u32_small (ringBufPtr st + _)) by lia.
  rewrite land_mask_value by (try assumption; lia).
  set (x := ringBufPtr st + (alignment - 1)).
  assert (Hx : 0 <= x mod alignment < alignment) by (apply Z.mod_pos_bound; lia).
  rewrite assert_true by (apply Z.leb_le; unfold x in *; lia). rewrite bind_Ok_l.
  unfold umod at 1. destruct (Z.eqb_spec (ringBufSize st) 0) as [| Hne]; [lia |].
  rewrite bind_Ok_l.
  assert (Hlapped : forall st1 beginPtr,
             ringBufSize st1 = ringBufSize st ->
             exists offset st', outOfSpace st1 size beginPtr = Ok (offset, st')).
  { intros st1 beginPtr Hst1. unfold outOfSpace.
    destruct (_ <=? _); [| eauto].
    rewrite Hst1, (u32_small (_ * 2)) by lia.
    rewrite (assert_true (size <? _)) by (apply Z.ltb_lt; lia). rewrite bind_Ok_l.
    unfold recreateRingBuffer. cbn [ringBufPtr].
    rewrite (assert_true (0 =? 0)) by reflexivity. rewrite bind_Ok_l. eauto. }
  unfold wrapAround. destruct (_ <=? _).
  - unfold udiv. destruct (Z.eqb_spec (ringBufSize st) 0); [lia |]. rewrite bind_Ok_l.
    cbn [ringBufSize ringBufPtr lastSyncedRingBufPtr].
    set (q := ringBufPtr st / ringBufSize st).
    assert (Hq : 0 <= q * ringBufSize st <= ringBufPtr st).
    { unfold q. split; [apply Z.mul_nonneg_nonneg; [apply Z.div_pos |]; lia |].
      rewrite Z.mul_comm. apply Z.mul_div_le. lia. }
    assert (Hq0 : 0 <= q) by (unfold q; apply Z.div_pos; lia).
    assert (Hq1 : q + 1 <= 2 ^ 32 - 1) by nia.
    rewrite (u32_small (q + 1)) by lia.
    rewrite (u32_small ((q + 1) * _)) by nia.
    rewrite u32not_involutive by lia.
    set (ptr := (q + 1) * ringBufSize st).
    assert (Hptr : (alignment | ptr)) by (apply Z.divide_mul_r; exact Hdiv).
    assert (Hptr_range : 0 <= ptr /\ ptr + alignment <= 2 ^ 32) by (unfold ptr; nia).
    destruct (isPow2_spec _ Hpa) as (k & Hk & Ek).
    assert (Hlow : Z.land ptr (alignment - 1) = 0).
    { rewrite Ek. replace (2 ^ k - 1) with (Z.ones k) by (rewrite Z.ones_equiv; lia).
      rewrite Z.land_ones by lia. rewrite <- Ek.
      apply Z.mod_divide; [lia | exact Hptr]. }
    rewrite Hlow, (assert_true (0 =? 0)) by reflexivity. rewrite bind_Ok_l.
    rewrite (u32_small (ptr + _)) by lia.
    rewrite land_mask_value by (try assumption; lia).
    assert (Hal : ptr + (alignment - 1) - (ptr + (alignment - 1)) mod alignment = ptr).
    { destruct Hptr as [m Hm]. rewrite Hm.
      rewrite (Z.add_comm (m * alignment)), Z.mod_add by lia.
      rewrite Z.mod_small by lia. lia. }
    rewrite Hal. unfold umod. destruct (Z.eqb_spec (ringBufSize st) 0); [lia |].
    rewrite bind_Ok_l.
    assert (Hbegin : ptr mod ringBufSize st = 0) by (unfold ptr; apply Z.mod_mul; lia).
    rewrite Hbegin, Z.add_0_l, (u32_small size) by lia.
    rewrite (assert_true (size <? _)) by (apply Z.ltb_lt; lia). rewrite bind_Ok_l.
    rewrite (assert_true (0 =? 0)) by reflexivity. rewrite !bind_Ok_l.
    apply Hlapped. reflexivity.
  - rewrite bind_Ok_l. apply Hlapped. reflexivity.
Qed.

End RingProofs.

Section RingSequences.

Import Ring.

Lemma land_u32not_diag x : 0 <= x < 2 ^ 32 -> Z.land x (u32not x) = 0.
Proof.
  intros Hx. unfold u32not, u32. rewrite <- (Z.land_ones _ 32) by lia.
  rewrite Z.land_assoc, Z.land_lnot_diag. apply Z.land_0_l.
Qed.

Lemma isPow2_u32_le v : isPow2 v = true -> isU32 v -> 0 < v <= 2 ^ 31.
Proof.
  intros (k & Hk & ->)%isPow2_spec [_ Hlt].
  assert (k < 32) by (apply (Z.pow_lt_mono_r_iff 2); lia).
  split; [apply Z.pow_pos_nonneg; lia | apply Z.pow_le_mono_r; lia].
Qed.

(** C1 (as amended).  In every sequence of [ringBufferAllocate] calls,
    from whatever state of the ring, a call whose size is at most the
    capacity at the time, whose alignment is a nonzero power of two, and
    which finds a capacity that is a power of two, returns an offset that
    is a multiple of the alignment, and the block [offset, offset + size)
    ends before the end of the buffer as it is after the call. *)
Theorem ring_offsets_aligned_and_inside st evs st' ev :
  run st evs st' ->
  ev ∈ evs ->
  isU32 (evSize ev) -> isU32 (evAlignment ev) ->
  isPow2 (evAlignment ev) = true ->
  evSize ev <= evCapacityBefore ev ->
  isU32 (evCapacityBefore ev) -> isPow2 (evCapacityBefore ev) = true ->
  evOffset ev mod evAlignment ev = 0 /\
  0 <= evOffset ev /\
  evOffset ev + evSize ev < evCapacityAfter ev.
Proof.
  intros Hrun. induction Hrun as [| st size alignment offset st1 evs st2 Hcall _ IH].
  - intros Hin. apply elem_of_nil in Hin. destruct Hin.
  - intros [-> | Hin]%elem_of_cons; [| exact (IH Hin)].
    simpl. intros Hsize Ha Hpa Hle Hcap Hps.
    apply (ringBufferAllocate_offset st size alignment offset st1); try assumption.
    apply isPow2_u32_le; assumption.
Qed.

(** A run of three calls on a buffer of 1024 bytes: the second block is
    moved up to the alignment, the third one does not fit before the end
    and goes back to offset 0. *)
Lemma ring_offsets_aligned_and_inside_witness :
  112 mod 16 = 0 /\ 0 <= 112 /\ 112 + 100 < 1024.
Proof.
  apply (ring_offsets_aligned_and_inside
           (mkState 1024 0 1000)
           [mkEvent 100 16 1024 0 1024; mkEvent 100 16 1024 112 1024;
            mkEvent 900 16 1024 0 1024]
           (mkState 1024 1924 1000)
           (mkEvent 100 16 1024 112 1024)).
  - apply (run_cons (mkState 1024 0 1000) 100 16 0 (mkState 1024 100 1000));
      [reflexivity |].
    apply (run_cons (mkState 1024 100 1000) 100 16 112 (mkState 1024 212 1000));
      [reflexivity |].
    apply (run_cons (mkState 1024 212 1000) 900 16 0 (mkState 1024 1924 1000));
      [reflexivity |].
    apply run_nil.
  - apply list_elem_of_further, list_elem_of_here.
  - unfold isU32; simpl; lia.
  - unfold isU32; simpl; lia.
  - reflexivity.
  - simpl; lia.
  - unfold isU32; simpl; lia.
  - reflexivity.
Defined.

(** C1 as it is written fails.  On a buffer of [2^32 - 1] bytes the sum
    [beginPtr + size] leaves the 32 bits: after a first block of [2^31]
    bytes, a request for [2^31 + 5] bytes is given offset [2^31] and runs
    past the end.  On a buffer of [3 * 2^30 - 1] bytes, after a first block
    that leaves one byte, a request aligned to [2^30] is given offset 1.
    On a buffer of 100 bytes, whose cursor and synchronisation mark have
    moved on to 211, a request aligned to 64 is given offset 56. *)
Lemma ring_offsets_counterexample :
  (run (mkState 4294967295 0 0)
       [mkEvent 2147483648 1 4294967295 0 4294967295;
        mkEvent 2147483653 1 4294967295 2147483648 4294967295]
       (mkState 4294967295 5 0) /\
   2147483653 <= 4294967295 /\ isPow2 1 = true /\
   ~ (2147483648 + 2147483653 <= 4294967295)) /\
  (run (mkState 3221225471 0 0)
       [mkEvent 3221225470 1 3221225471 0 3221225471;
        mkEvent 1073741831 1073741824 3221225471 1 3221225471]
       (mkState 3221225471 7 0) /\
   1073741831 <= 3221225471 /\ isPow2 1073741824 = true /\
   ~ (1 mod 1073741824 = 0)) /\
  (run (mkState 100 211 211) [mkEvent 10 64 100 56 100] (mkState 100 266 211) /\
   10 <= 100 /\ isPow2 64 = true /\
   ~ (56 mod 64 = 0)).
Proof.
  split; [| split].
  - split; [| repeat split; [lia | lia]].
    apply (run_cons (mkState 4294967295 0 0) 2147483648 1 0
             (mkState 4294967295 2147483648 0)); [reflexivity |].
    apply (run_cons (mkState 4294967295 2147483648 0) 2147483653 1 2147483648
             (mkState 4294967295 5 0)); [reflexivity |].
    apply run_nil.
  - split; [| split; [lia | split; [reflexivity | intros H; discriminate H]]].
    apply (run_cons (mkState 3221225471 0 0) 3221225470 1 0
             (mkState 3221225471 3221225470 0)); [reflexivity |].
    apply (run_cons (mkState 3221225471 3221225470 0) 1073741831 1073741824 1
             (mkState 3221225471 7 0)); [reflexivity |].
    apply run_nil.
  - split; [| split; [lia | split; [reflexivity | intros H; discriminate H]]].
    apply (run_cons (mkState 100 211 211) 10 64 56 (mkState 100 266 211));
      [reflexivity |].
    apply run_nil.
Qed.

(** A request that would fill the buffer to its last byte fails the guard
    [beginPtr + size < ringBufSize]. *)
Lemma ringBufferAllocate_full st st1 size alignment :
  growFor st size = Ok st1 -> ringBufSize st1 = size -> 0 < size <= 2 ^ 31 ->
  ringBufferAllocate st size alignment = AssertFail.
Proof.
  intros Hgrow Hcap Hsize. unfold ringBufferAllocate.
  do 2 guard_case.
  rewrite Hgrow, bind_Ok_l.
  guard_case.
  set (alignedPtr := Z.land _ _).
  assert (Hb : 0 <= alignedPtr mod ringBufSize st1 < ringBufSize st1)
    by (apply Z.mod_pos_bound; lia).
  assert (Hne : (ringBufSize st1 =? 0) = false) by (apply Z.eqb_neq; lia).
  unfold umod at 1. rewrite Hne, bind_Ok_l.
  unfold wrapAround.
  destruct (Z.leb_spec (ringBufSize st1) (u32 (alignedPtr mod ringBufSize st1 + size)))
    as [_ | Hlt]; [| rewrite u32_small in Hlt by lia; lia].
  unfold udiv. rewrite Hne, bind_Ok_l. cbn [ringBufSize ringBufPtr].
  guard_case.
  unfold umod. rewrite Hne, bind_Ok_l.
  set (beginPtr := _ mod ringBufSize st1).
  assert (Hb' : 0 <= beginPtr < ringBufSize st1)
    by (apply Z.mod_pos_bound; lia).
  rewrite assert_false_bind; [reflexivity |].
  apply Z.ltb_ge. rewrite u32_small by lia. lia.
Qed.

(** A request for exactly the capacity. *)
Lemma ringBufferAllocate_exact_fit st size alignment :
  ringBufSize st = size -> 0 < size <= 2 ^ 31 ->
  ringBufferAllocate st size alignment = AssertFail.
Proof.
  intros Hcap Hsize. apply (ringBufferAllocate_full st st); try assumption.
  apply growFor_fits. lia.
Qed.

Lemma nextPow2_pow2 size : isPow2 size = true -> size <= 2 ^ 31 -> nextPow2 size = size.
Proof.
  intros (k & Hk & ->)%isPow2_spec Hsize.
  assert (k <= 31) by (apply (Z.pow_le_mono_r_iff 2); lia).
  unfold nextPow2. rewrite Z.log2_up_pow2 by lia. apply u32_small.
  split; [apply Z.pow_nonneg; lia |]. apply Z.pow_lt_mono_r; lia.
Qed.

(** A request larger than the capacity whose size is a power of two: the
    new buffer has exactly the size of the request. *)
Lemma ringBufferAllocate_grow_pow2 st size alignment :
  ringBufSize st < size -> isPow2 size = true -> size <= 2 ^ 31 ->
  ringBufferAllocate st size alignment = AssertFail.
Proof.
  intros Hgrow Hp Hsize.
  assert (0 < size) by (unfold isPow2 in Hp; apply andb_true_iff in Hp; lia).
  apply (ringBufferAllocate_full st (recreateRingBuffer st (nextPow2 size)));
    [| simpl; by apply nextPow2_pow2 | lia].
  unfold growFor. destruct (Z.ltb_spec (ringBufSize st) size); [reflexivity | lia].
Qed.

(** [nextPow2] gives the least power of two that is not below its
    argument. *)
Lemma nextPow2_least size :
  0 < size <= 2 ^ 31 ->
  isPow2 (nextPow2 size) = true /\ size <= nextPow2 size /\
  forall p, isPow2 p = true -> size <= p -> nextPow2 size <= p.
Proof.
  intros Hsize.
  assert (Hlog : 0 <= Z.log2_up size <= 31).
  { split; [apply Z.log2_up_nonneg | apply Z.log2_up_le_pow2; lia]. }
  assert (Hnext : nextPow2 size = 2 ^ Z.log2_up size).
  { unfold nextPow2. apply u32_small. split; [apply Z.pow_nonneg; lia |].
    apply Z.pow_lt_mono_r; lia. }
  rewrite Hnext. split; [apply isPow2_pow; lia |]. split.
  - assert (size = 1 \/ 1 < size) as [-> | H1] by lia; [reflexivity |].
    pose proof (Z.log2_up_spec size H1). lia.
  - intros p (k & Hk & ->)%isPow2_spec Hp.
    apply Z.pow_le_mono_r; [lia |]. apply Z.log2_up_le_pow2; lia.
Qed.

(** A request that fits between the cursor, rounded up to the alignment,
    and the end of the buffer, and does not reach the synchronisation
    mark, is placed at the rounded cursor. *)
Lemma ringBufferAllocate_behind st size alignment :
  isU32 alignment -> isPow2 alignment = true -> 0 <= size ->
  0 <= ringBufPtr st <= 2 ^ 31 -> ringBufSize st <= 2 ^ 32 ->
  let start := (ringBufPtr st + alignment - 1) / alignment * alignment in
  start + size < ringBufSize st ->
  start + size < u32 (lastSyncedRingBufPtr st + ringBufSize st) ->
  ringBufPtr st <= start /\
  ringBufferAllocate st size alignment
  = Ok (start, mkState (ringBufSize st) (start + size) (lastSyncedRingBufPtr st)).
Proof.
  intros Ha Hpa Hsize Hptr Hcap start Hfits Hsync.
  pose proof (isPow2_u32_le alignment Hpa Ha) as Hrange.
  assert (Hx : 0 <= ringBufPtr st + (alignment - 1) < 2 ^ 32) by lia.
  assert (Hstart : Z.land (ringBufPtr st + (alignment - 1)) (u32not (alignment - 1)) = start).
  { rewrite (land_mask_value _ _ Hpa Ha Hx). unfold start.
    replace (ringBufPtr st + alignment - 1) with (ringBufPtr st + (alignment - 1)) by lia.
    pose proof (Z.div_mod (ringBufPtr st + (alignment - 1)) alignment ltac:(lia)). lia. }
  assert (Hle : ringBufPtr st <= start).
  { rewrite <- Hstart, (land_mask_value _ _ Hpa Ha Hx).
    pose proof (Z.mod_pos_bound (ringBufPtr st + (alignment - 1)) alignment ltac:(lia)). lia. }
  split; [exact Hle |].
  unfold ringBufferAllocate.
  rewrite (assert_true (negb _)) by (apply negb_true_iff, Z.eqb_neq; lia).
  rewrite bind_Ok_l, (assert_true _ Hpa), bind_Ok_l.
  unfold growFor. destruct (Z.ltb_spec (ringBufSize st) size); [lia |].
  rewrite bind_Ok_l, !(u32_small (alignment - 1)) by lia.
  rewrite (u32_small (ringBufPtr st + (alignment - 1))) by exact Hx.
  rewrite Hstart.
  rewrite (assert_true (_ <=? _)) by (apply Z.leb_le; exact Hle). rewrite bind_Ok_l.
  unfold umod. destruct (Z.eqb_spec (ringBufSize st) 0); [lia |].
  rewrite bind_Ok_l, (Z.mod_small start) by lia.
  unfold wrapAround. rewrite (u32_small (start + size)) by lia.
  destruct (Z.leb_spec (ringBufSize st) (start + size)); [lia |].
  rewrite bind_Ok_l. unfold outOfSpace.
  cbn [ringBufPtr ringBufSize lastSyncedRingBufPtr].
  rewrite (u32_small (start + size)) by lia.
  destruct (Z.leb_spec (u32 (lastSyncedRingBufPtr st + ringBufSize st)) (start + size));
    [lia | reflexivity].
Qed.

(** C2 (as amended).  A request larger than the capacity, of a size that
    is at most [2^31] and not a power of two: the buffer is recreated with
    the next power of two at or above the size, which is more than the old
    capacity, and the cursor is reset to 0; the request itself is then
    placed at offset 0 of the new buffer and leaves the cursor at its
    size, unless the cursor is found to have lapped the synchronisation
    mark.  The request that follows, when it fits between that cursor,
    rounded up to its alignment, and the end of the new buffer and stays
    below the synchronisation mark plus the capacity, is placed at the
    rounded cursor, behind the first block and not at offset 0. *)
Theorem ringBufferAllocate_grows st size alignment :
  ringBufSize st < size -> 0 < size <= 2 ^ 31 ->
  isPow2 size = false ->
  isU32 alignment -> isPow2 alignment = true ->
  size < u32 (lastSyncedRingBufPtr st + nextPow2 size) ->
  ringBufSize st < nextPow2 size /\
  growFor st size = Ok (mkState (nextPow2 size) 0 (lastSyncedRingBufPtr st)) /\
  ringBufferAllocate st size alignment
    = Ok (0, mkState (nextPow2 size) size (lastSyncedRingBufPtr st)) /\
  forall size2 alignment2,
    isU32 alignment2 -> isPow2 alignment2 = true -> 0 <= size2 ->
    let start := (size + alignment2 - 1) / alignment2 * alignment2 in
    start + size2 < nextPow2 size ->
    start + size2 < u32 (lastSyncedRingBufPtr st + nextPow2 size) ->
    0 < size <= start /\
    ringBufferAllocate (mkState (nextPow2 size) size (lastSyncedRingBufPtr st))
      size2 alignment2
    = Ok (start, mkState (nextPow2 size) (start + size2) (lastSyncedRingBufPtr st)).
Proof.
  intros Hgrow Hsize Hnp Ha Hpa Hlap.
  destruct (nextPow2_least size Hsize) as (Hp & Hle & _).
  assert (Hlt : size < nextPow2 size).
  { assert (size <> nextPow2 size) by (intros E; rewrite <- E in Hp; congruence). lia. }
  split; [lia |].
  assert (Hfirst : growFor st size = Ok (mkState (nextPow2 size) 0 (lastSyncedRingBufPtr st))).
  { unfold growFor. destruct (Z.ltb_spec (ringBufSize st) size); [reflexivity | lia]. }
  split; [exact Hfirst |].
  split.
  - assert (Hapos : 0 < alignment)
      by (unfold isPow2 in Hpa; apply andb_true_iff in Hpa; lia).
    unfold isU32 in Ha.
    unfold ringBufferAllocate.
    rewrite (assert_true (negb _)) by (apply negb_true_iff, Z.eqb_neq; lia).
    rewrite bind_Ok_l, (assert_true _ Hpa), bind_Ok_l.
    rewrite Hfirst, bind_Ok_l.
    cbn [ringBufPtr ringBufSize lastSyncedRingBufPtr].
    rewrite Z.add_0_l, !(u32_small (alignment - 1)) by lia.
    rewrite land_u32not_diag by lia.
    rewrite (assert_true (0 <=? 0)) by reflexivity. rewrite bind_Ok_l.
    unfold umod. destruct (Z.eqb_spec (nextPow2 size) 0); [lia |].
    rewrite bind_Ok_l, Z.mod_0_l by lia.
    unfold wrapAround. cbn [ringBufPtr ringBufSize lastSyncedRingBufPtr].
    rewrite Z.add_0_l, (u32_small size) by lia.
    destruct (Z.leb_spec (nextPow2 size) size); [lia |].
    rewrite bind_Ok_l. unfold outOfSpace.
    cbn [ringBufPtr ringBufSize lastSyncedRingBufPtr].
    rewrite Z.add_0_l, (u32_small size) by lia.
    destruct (Z.leb_spec (u32 (lastSyncedRingBufPtr st + nextPow2 size)) size); [lia |].
    reflexivity.
  - intros size2 alignment2 Ha2 Hpa2 Hsize2 start Hfits Hsync.
    assert (Hnext : nextPow2 size <= 2 ^ 32).
    { unfold nextPow2. pose proof (u32_range (2 ^ Z.log2_up size)). lia. }
    destruct (ringBufferAllocate_behind
                (mkState (nextPow2 size) size (lastSyncedRingBufPtr st)) size2 alignment2
                Ha2 Hpa2 Hsize2 ltac:(cbn; lia) Hnext Hfits Hsync) as [Hbehind Hsecond].
    cbn [ringBufPtr ringBufSize lastSyncedRingBufPtr] in Hbehind, Hsecond.
    split; [fold start in Hbehind; lia | exact Hsecond].
Qed.

(** A request for 1500 bytes on a buffer of 1024 bytes, followed by a
    request for 100 bytes at an alignment of 256: the second block is at
    offset 1536. *)
Lemma ringBufferAllocate_grows_witness :
  1024 < nextPow2 1500 /\
  growFor (mkState 1024 0 0) 1500 = Ok (mkState (nextPow2 1500) 0 0) /\
  ringBufferAllocate (mkState 1024 0 0) 1500 256 = Ok (0, mkState (nextPow2 1500) 1500 0) /\
  0 < 1500 <= 1536 /\
  ringBufferAllocate (mkState (nextPow2 1500) 1500 0) 100 256
  = Ok (1536, mkState (nextPow2 1500) (1536 + 100) 0).
Proof.
  destruct (ringBufferAllocate_grows (mkState 1024 0 0) 1500 256)
    as (Hmore & Hgrown & Hfirst & Hnext).
  - simpl. lia.
  - lia.
  - reflexivity.
  - unfold isU32. lia.
  - reflexivity.
  - vm_compute. reflexivity.
  - split; [exact Hmore |]. split; [exact Hgrown |]. split; [exact Hfirst |].
    apply (Hnext 100 256).
    + unfold isU32. lia.
    + reflexivity.
    + lia.
    + vm_compute. reflexivity.
    + vm_compute. reflexivity.
Defined.

(** Where the request that follows does not fit behind the first block,
    the allocator goes back to the start of the buffer, finds the cursor
    on the synchronisation mark, and replaces the buffer once more: the
    block is at offset 0 of a buffer of twice the size. *)
Example ringBufferAllocate_after_growth_wraps :
  ringBufferAllocate (mkState 2048 1500 0) 600 4 = Ok (0, mkState 4096 600 0).
Proof. reflexivity. Qed.

(** C2 as it is written fails.  After a request for 1500 bytes has made
    the buffer grow from 1024 to 2048 bytes, the next request, for 100
    bytes, is placed behind the first block, at offset 1500.  And a
    request for 2048 bytes, a power of two, makes the buffer grow to 2048
    bytes, which the block would fill to the last byte: the guard
    [beginPtr + size < ringBufSize] ends the call. *)
Lemma ringBufferAllocate_grows_counterexample :
  (run (mkState 1024 0 0)
       [mkEvent 1500 4 1024 0 2048; mkEvent 100 4 2048 1500 2048]
       (mkState 2048 1600 0) /\
   1024 < 1500 /\ 100 <= 1500 /\ 1500 <> 0) /\
  (nextPow2 2048 = 2048 /\
   ringBufferAllocate (mkState 1024 0 0) 2048 256 = AssertFail).
Proof.
  split; [split; [| lia] | split; reflexivity].
  apply (run_cons (mkState 1024 0 0) 1500 4 0 (mkState 2048 1500 0)); [reflexivity |].
  apply (run_cons (mkState 2048 1500 0) 100 4 1500 (mkState 2048 1600 0)); [reflexivity |].
  apply run_nil.
Qed.

End RingSequences.

(** ** The shader cache: lookup *)

Section CacheLookup.

Import Cache.

Variable spirvCacheDir : string.
Variable fileExists : string -> bool.
Variable readFile : string -> string.
Variable getFileTimestamp : string -> Z.

Lemma dependenciesUpToDate_false cacheTime deps :
  (exists f, f ∈ deps /\ cacheTime < getFileTimestamp f) ->
  dependenciesUpToDate getFileTimestamp cacheTime deps = false.
Proof.
  intros (f & Hin & Hnewer). induction deps as [| d deps IH].
  - apply elem_of_nil in Hin. destruct Hin.
  - simpl. destruct (Z.ltb_spec cacheTime (getFileTimestamp d)); [reflexivity |].
    apply elem_of_cons in Hin as [-> | Hin]; [lia | exact (IH Hin)].
Qed.

Lemma dependenciesUpToDate_true cacheTime deps :
  Forall (fun f => getFileTimestamp f <= cacheTime) deps ->
  dependenciesUpToDate getFileTimestamp cacheTime deps = true.
Proof.
  induction 1 as [| d deps Hd _ IH]; [reflexivity |].
  simpl. destruct (Z.ltb_spec cacheTime (getFileTimestamp d)); [lia | exact IH].
Qed.

(** C5.  [loadCachedSPV] answers [false] and loads nothing when the
    version of the cache record is not the current one, whatever the time
    stamps are; when the binary file the record names is missing; when the
    source file is newer than the cache record; and when one of the
    dependencies listed in the record is newer than the cache record. *)
Theorem loadCachedSPV_miss name shaderName :
  let cacheName := spirvCacheDir +:+ shaderName +:+ ".cache" in
  let cacheData := parse (readFile cacheName) in
  let spvName := spirvCacheDir +:+ hex8 (hash cacheData) +:+ ".spv" in
  version cacheData <> shaderVersion \/
  fileExists spvName = false \/
  getFileTimestamp cacheName < getFileTimestamp name \/
  (exists f, f ∈ dependencies cacheData /\
             getFileTimestamp cacheName < getFileTimestamp f) ->
  loadCachedSPV spirvCacheDir fileExists readFile getFileTimestamp name shaderName = None.
Proof.
  intros cacheName cacheData spvName H. unfold loadCachedSPV.
  fold cacheName. fold cacheData. fold spvName.
  destruct (fileExists cacheName); [simpl | reflexivity].
  destruct (Z.eqb_spec (version cacheData) shaderVersion) as [Hv | Hv];
    [simpl | reflexivity].
  destruct (fileExists spvName) eqn:Hspv; [simpl | reflexivity].
  destruct (Z.ltb_spec (getFileTimestamp cacheName) (getFileTimestamp name));
    [reflexivity |].
  destruct H as [H | [H | [H | H]]]; [contradiction | discriminate | lia |].
  rewrite (dependenciesUpToDate_false _ _ H). reflexivity.
Qed.

(** The other way round: when none of the four conditions holds, and the
    binary is a whole number of words, [loadCachedSPV] answers [true] and
    loads the words of the binary. *)
Lemma loadCachedSPV_hit name shaderName :
  let cacheName := spirvCacheDir +:+ shaderName +:+ ".cache" in
  let cacheData := parse (readFile cacheName) in
  let spvName := spirvCacheDir +:+ hex8 (hash cacheData) +:+ ".spv" in
  fileExists cacheName = true ->
  version cacheData = shaderVersion ->
  fileExists spvName = true ->
  getFileTimestamp name <= getFileTimestamp cacheName ->
  Forall (fun f => getFileTimestamp f <= getFileTimestamp cacheName)
         (dependencies cacheData) ->
  Z.of_nat (String.length (readFile spvName)) mod 4 = 0 ->
  loadCachedSPV spirvCacheDir fileExists readFile getFileTimestamp name shaderName
  = Some (wordsOf (readFile spvName)).
Proof.
  intros cacheName cacheData spvName Hcache Hv Hspv Hsrc Hdeps Hsize.
  unfold loadCachedSPV. fold cacheName. fold cacheData. fold spvName.
  rewrite Hcache, Hv, Z.eqb_refl, Hspv. simpl.
  destruct (Z.ltb_spec (getFileTimestamp cacheName) (getFileTimestamp name)); [lia |].
  rewrite (dependenciesUpToDate_true _ _ Hdeps), Hsize. reflexivity.
Qed.

End CacheLookup.

Lemma loadCachedSPV_miss_witness :
  Cache.loadCachedSPV "cache/"
    (fun f => bool_decide (is_Some (lookupFile staleFiles f)))
    (fun f => from_option fst "" (lookupFile staleFiles f))
    (fun f => from_option snd 0 (lookupFile staleFiles f))
    "smaa.frag" "smaa.frag" = None.
Proof.
  apply loadCachedSPV_miss.
  right. right. right. exists "smaa.h"%string. split.
  - vm_compute. apply list_elem_of_here.
  - vm_compute. reflexivity.
Defined.

(** The same directory with the header older than the record: a hit, and
    the two words of the binary. *)
Example loadCachedSPV_hit_example :
  Cache.loadCachedSPV "cache/"
    (fun f => bool_decide (is_Some (lookupFile staleFiles f)))
    (fun f => from_option fst "" (lookupFile staleFiles f))
    (fun f => if decide (f = "smaa.h"%string) then 4
              else from_option snd 0 (lookupFile staleFiles f))
    "smaa.frag" "smaa.frag" = Some [1684234849; 1751606885].
Proof. vm_compute. reflexivity. Qed.

(** ** The shader cache: the text of a cache record *)

Section CacheText.

Import Cache.

Lemma string_app_cons c (s1 s2 : string) : String c s1 +:+ s2 = String c (s1 +:+ s2).
Proof. reflexivity. Qed.

Lemma string_app_empty_l (s : string) : "" +:+ s = s.
Proof. reflexivity. Qed.

Lemma string_app_empty_r (s : string) : s +:+ "" = s.
Proof.
  induction s as [| c s IH]; [reflexivity |].
  rewrite string_app_cons, IH. reflexivity.
Qed.

Lemma string_app_assoc (s1 s2 s3 : string) : (s1 +:+ s2) +:+ s3 = s1 +:+ (s2 +:+ s3).
Proof.
  induction s1 as [| c s1 IH]; [reflexivity |].
  rewrite !string_app_cons, IH. reflexivity.
Qed.

(** *** [split] *)

Lemma split_none sep s : occurs sep s = false -> split sep s = [s].
Proof.
  induction s as [| c s IH]; simpl; [reflexivity |].
  intros [Hc Hs]%orb_false_iff. rewrite Hc, (IH Hs). reflexivity.
Qed.

Lemma split_first sep s rest :
  occurs sep s = false ->
  split sep (s +:+ String sep rest) = s :: split sep rest.
Proof.
  induction s as [| c s IH].
  - intros _. rewrite string_app_empty_l. simpl. rewrite Ascii.eqb_refl. reflexivity.
  - intros [Hc Hs]%orb_false_iff. rewrite string_app_cons. simpl.
    rewrite Hc, (IH Hs). reflexivity.
Qed.

Lemma split_fields s deps :
  occurs "," s = false ->
  Forall (fun f => occurs "," f = false) deps ->
  split "," (s +:+ dependencyFields deps) = s :: deps.
Proof.
  intros Hs Hdeps. revert s Hs.
  induction Hdeps as [| f deps Hf _ IH]; intros s Hs; simpl.
  - rewrite string_app_empty_r. apply split_none. exact Hs.
  - rewrite string_app_cons, string_app_empty_l, split_first by exact Hs.
    f_equal. apply IH. exact Hf.
Qed.

Lemma foldl_fields s deps :
  foldl (fun cacheStr f => cacheStr +:+ "," +:+ f) s deps = s +:+ dependencyFields deps.
Proof.
  induction deps as [| f deps IH] in s |- *; simpl.
  - symmetry. apply string_app_empty_r.
  - rewrite IH, !string_app_assoc. reflexivity.
Qed.

Lemma serialize_fields c :
  serialize c
  = showDec (version c) +:+ "," +:+ showHex (hash c) +:+ dependencyFields (dependencies c).
Proof. unfold serialize. rewrite foldl_fields, !string_app_assoc. reflexivity. Qed.

(** *** Digits *)

Lemma digitValue_digitChar d : 0 <= d < 16 -> digitValue (digitChar d) = Some d.
Proof.
  intros Hd.
  assert (d = 0 \/ d = 1 \/ d = 2 \/ d = 3 \/ d = 4 \/ d = 5 \/ d = 6 \/ d = 7 \/
          d = 8 \/ d = 9 \/ d = 10 \/ d = 11 \/ d = 12 \/ d = 13 \/ d = 14 \/ d = 15)
    as H by lia.
  repeat (destruct H as [-> | H]; [reflexivity |]). subst. reflexivity.
Qed.

Lemma digitIn_digitChar base d :
  base <= 16 -> 0 <= d < base -> digitIn base (digitChar d) = Some d.
Proof.
  intros Hb Hd. unfold digitIn. rewrite digitValue_digitChar by lia.
  destruct (Z.ltb_spec d base); [reflexivity | lia].
Qed.

Lemma isDigit_digitChar d : 0 <= d < 16 -> isDigit (digitChar d) = true.
Proof. intros Hd. unfold isDigit. by rewrite digitValue_digitChar. Qed.

(** A digit is no white space, no sign, no [x] and no comma. *)
Lemma isDigit_plain c :
  isDigit c = true ->
  isspace c = false /\ c <> "-"%char /\ c <> "+"%char /\
  (charCode c =? 120) || (charCode c =? 88) = false /\
  Ascii.eqb c "," = false.
Proof.
  destruct c as [[] [] [] [] [] [] [] []]; vm_compute; intros H;
    try discriminate H; repeat split; congruence.
Qed.

Lemma showDigits_S base fuel n acc :
  showDigits base (S fuel) n acc
  = if n / base =? 0 then String (digitChar (n mod base)) acc
    else showDigits base fuel (n / base) (String (digitChar (n mod base)) acc).
Proof. reflexivity. Qed.

(** The digits [showDigits] writes in front of [acc] are read back by
    [readDigits] as the number they stand for. *)
Lemma readDigits_showDigits base fuel :
  2 <= base <= 16 ->
  forall n acc a seen,
    0 <= n < base ^ Z.of_nat (S fuel) ->
    exists k, 0 <= k /\
      readDigits base (showDigits base (S fuel) n acc) a seen
      = readDigits base acc (a * base ^ k + n) true.
Proof.
  intros Hbase. induction fuel as [| fuel IH]; intros n acc a seen Hn.
  - exists 1. split; [lia |].
    change (base ^ Z.of_nat 1) with (base ^ 1) in Hn. rewrite Z.pow_1_r in Hn.
    rewrite showDigits_S, Z.mod_small, Z.div_small by lia.
    cbn [readDigits Z.eqb]. rewrite digitIn_digitChar by lia.
    rewrite Z.pow_1_r. reflexivity.
  - rewrite showDigits_S.
    assert (Hd : 0 <= n mod base < base) by (apply Z.mod_pos_bound; lia).
    destruct (Z.eqb_spec (n / base) 0) as [Hq | Hq].
    + exists 1. split; [lia |].
      cbn [readDigits]. rewrite digitIn_digitChar by lia.
      rewrite Z.pow_1_r. f_equal.
      pose proof (Z.div_mod n base ltac:(lia)). lia.
    + assert (Hq' : 0 <= n / base < base ^ Z.of_nat (S fuel)).
      { split; [apply Z.div_pos; lia |].
        apply Z.div_lt_upper_bound; [lia |].
        rewrite <- Z.pow_succ_r by lia. rewrite <- Nat2Z.inj_succ. lia. }
      destruct (IH (n / base) (String (digitChar (n mod base)) acc) a seen Hq')
        as (k & Hk & ->).
      exists (k + 1). split; [lia |].
      cbn [readDigits]. rewrite digitIn_digitChar by lia. f_equal.
      rewrite Z.pow_add_r, Z.pow_1_r by lia.
      pose proof (Z.div_mod n base ltac:(lia)). lia.
Qed.

Lemma allChars_showDigits base fuel n acc :
  2 <= base <= 16 ->
  allChars isDigit acc = true ->
  allChars isDigit (showDigits base fuel n acc) = true.
Proof.
  intros Hbase. revert n acc. induction fuel as [| fuel IH]; intros n acc Hacc; simpl.
  - exact Hacc.
  - assert (Hd : 0 <= n mod base < base) by (apply Z.mod_pos_bound; lia).
    assert (Hacc' : allChars isDigit (String (digitChar (n mod base)) acc) = true).
    { simpl. rewrite isDigit_digitChar by lia. exact Hacc. }
    destruct (n / base =? 0); [exact Hacc' | apply IH; exact Hacc'].
Qed.

Lemma showDigits_nonempty base fuel n acc :
  showDigits base (S fuel) n acc <> "".
Proof.
  revert n acc. induction fuel as [| fuel IH]; intros n acc.
  - simpl. destruct (n / base =? 0); discriminate.
  - rewrite showDigits_S. destruct (n / base =? 0); [discriminate | apply IH].
Qed.

Lemma allChars_occurs s c :
  allChars isDigit s = true -> Ascii.eqb c "," = true -> occurs c s = false.
Proof.
  intros Hs Hc. apply Ascii.eqb_eq in Hc. subst c.
  induction s as [| c s IH]; simpl in *; [reflexivity |].
  apply andb_true_iff in Hs as [Hc Hs].
  apply isDigit_plain in Hc as (_ & _ & _ & _ & ->). simpl. exact (IH Hs).
Qed.

(** *** [stoull] reads what [std::hex] writes *)

Lemma stoull16_showHex h : 0 <= h < 2 ^ 64 -> stoull16 (showHex h) = Some h.
Proof.
  intros Hh. unfold stoull16, showHex.
  pose proof (allChars_showDigits 16 16 h "" ltac:(lia) eq_refl) as Hall.
  pose proof (showDigits_nonempty 16 15 h "") as Hne.
  destruct (readDigits_showDigits 16 15 ltac:(lia) h "" 0 false ltac:(simpl; lia))
    as (k & Hk & Hread).
  destruct (showDigits 16 16 h "") as [| c s]; [congruence |].
  simpl in Hall. apply andb_true_iff in Hall as [Hc Hs].
  destruct (isDigit_plain c Hc) as (Hsp & Hminus & Hplus & _ & _).
  cbn [skipSpace]. rewrite Hsp.
  assert (Hsign : readSign (String c s) = (false, String c s)).
  { unfold readSign.
    destruct c as [[] [] [] [] [] [] [] []]; try reflexivity; congruence. }
  rewrite Hsign.
  assert (Hprefix : skipHexPrefix (String c s) = String c s).
  { unfold skipHexPrefix.
    destruct s as [| x [| c' s']];
      try (by destruct c as [[] [] [] [] [] [] [] []]).
    simpl in Hs. apply andb_true_iff in Hs as [Hx _].
    destruct (isDigit_plain x Hx) as (_ & _ & _ & -> & _).
    by destruct c as [[] [] [] [] [] [] [] []]. }
  rewrite Hprefix, Hread. cbn [readDigits negb].
  rewrite Z.mul_0_l, Z.add_0_l.
  destruct (Z.leb_spec (2 ^ 64) h); [lia | reflexivity].
Qed.

Lemma showHex_no_comma h : occurs "," (showHex h) = false.
Proof.
  apply allChars_occurs; [| reflexivity].
  apply allChars_showDigits; [lia | reflexivity].
Qed.

(** C6 (as amended).  A cache record that carries the current version, any
    64-bit hash and dependency paths without a comma is read back from its
    text as it was. *)
Theorem parse_serialize h deps :
  0 <= h < 2 ^ 64 ->
  Forall (fun f => occurs "," f = false) deps ->
  parse (serialize (mkCacheData shaderVersion h deps)) = mkCacheData shaderVersion h deps.
Proof.
  intros Hh Hdeps. rewrite serialize_fields. cbn [version hash dependencies].
  unfold parse.
  change (showDec shaderVersion +:+ "," +:+ showHex h +:+ dependencyFields deps)
    with ("20" +:+ String "," (showHex h +:+ dependencyFields deps)).
  rewrite split_first by reflexivity.
  rewrite split_fields by (try apply showHex_no_comma; assumption).
  cbn [length Nat.ltb Nat.leb nth version hash dependencies].
  change (u32 (atoi "20")) with shaderVersion.
  rewrite Z.eqb_refl. cbn [negb].
  rewrite stoull16_showHex by exact Hh.
  destruct deps as [| f deps]; reflexivity.
Qed.

Lemma parse_serialize_witness :
  parse (serialize (mkCacheData shaderVersion 18364758544493064720
                      ["smaa.h"; "shaderDefines.h"]%string))
  = mkCacheData shaderVersion 18364758544493064720 ["smaa.h"; "shaderDefines.h"]%string.
Proof.
  apply parse_serialize.
  - lia.
  - repeat constructor.
Defined.

(** C6 as it is written fails in two ways.  A record with another version
    is not read past the version: the hash and the dependencies are lost.
    A dependency path with a comma is read as two paths. *)
Lemma parse_serialize_counterexample :
  parse (serialize (mkCacheData 5 255 ["smaa.h"]%string))
    = mkCacheData 5 0 [] /\
  parse (serialize (mkCacheData shaderVersion 255 ["a,b.h"]%string))
    = mkCacheData shaderVersion 255 ["a"; "b.h"]%string.
Proof. split; vm_compute; reflexivity. Qed.

End CacheText.

(** ** The shader cache: the name of a shader variant *)

Section ShaderName.

Import Cache.

Lemma occurs_app c s1 s2 : occurs c (s1 +:+ s2) = occurs c s1 || occurs c s2.
Proof.
  induction s1 as [| c1 s1 IH]; [reflexivity |].
  rewrite string_app_cons. simpl. rewrite IH. apply orb_assoc.
Qed.

(** Two texts cut at the first [c] are equal part by part. *)
Lemma string_app_cut c s1 s2 t1 t2 :
  occurs c s1 = false -> occurs c s2 = false ->
  startsWith c t1 -> startsWith c t2 ->
  s1 +:+ t1 = s2 +:+ t2 -> s1 = s2 /\ t1 = t2.
Proof.
  revert s2. induction s1 as [| d1 s1 IH]; intros [| d2 s2] H1 H2 Ht1 Ht2 E.
  - split; [reflexivity | exact E].
  - rewrite string_app_empty_l, string_app_cons in E. subst t1. simpl in Ht1, H2.
    apply orb_false_iff in H2 as [H2 _]. apply Ascii.eqb_neq in H2. contradiction.
  - rewrite string_app_empty_l, string_app_cons in E. subst t2. simpl in Ht2, H1.
    apply orb_false_iff in H1 as [H1 _]. apply Ascii.eqb_neq in H1. contradiction.
  - rewrite !string_app_cons in E. injection E as -> E. simpl in H1, H2.
    apply orb_false_iff in H1 as [_ H1]. apply orb_false_iff in H2 as [_ H2].
    destruct (IH s2 H1 H2 Ht1 Ht2 E) as [-> ->]. split; reflexivity.
Qed.

Lemma startsWith_macroSuffix l : startsWith "_" (macroSuffix l).
Proof. destruct l; simpl; [exact I | reflexivity]. Qed.

Lemma macroSuffix_inj l1 l2 :
  Forall (fun s => occurs "_" s = false) l1 ->
  Forall (fun s => occurs "_" s = false) l2 ->
  macroSuffix l1 = macroSuffix l2 -> l1 = l2.
Proof.
  intros H1. revert l2. induction H1 as [| s1 l1 Hs1 _ IH]; intros l2 H2 E.
  - destruct l2; [reflexivity | discriminate E].
  - destruct H2 as [| s2 l2 Hs2 H2]; [discriminate E |].
    simpl in E. rewrite !string_app_cons, !string_app_empty_l in E. injection E as E.
    apply string_app_cut with (c := "_"%char) in E as [-> E];
      try assumption; try apply startsWith_macroSuffix.
    f_equal. apply IH; assumption.
Qed.

Lemma foldl_macroSuffix name sorted :
  foldl (fun shaderName s => shaderName +:+ ("_" +:+ s)) name sorted
  = name +:+ macroSuffix sorted.
Proof.
  induction sorted as [| s sorted IH] in name |- *; simpl.
  - symmetry. apply string_app_empty_r.
  - rewrite IH, !string_app_assoc. reflexivity.
Qed.

(** [macroString] keeps plain macros apart. *)
Lemma macroString_inj (x y : string * string) :
  uncurry plainMacro x -> uncurry plainMacro y ->
  macroString x = macroString y -> x = y.
Proof.
  destruct x as [k1 v1], y as [k2 v2]. unfold plainMacro, macroString. simpl.
  intros (_ & Hk1 & _) (_ & Hk2 & _) E.
  destruct (decide (v1 = "")) as [-> | Hv1], (decide (v2 = "")) as [-> | Hv2].
  - by subst.
  - subst k1. rewrite occurs_app in Hk1. simpl in Hk1.
    apply orb_false_iff in Hk1 as [_ Hk1]. discriminate Hk1.
  - subst k2. rewrite occurs_app in Hk2. simpl in Hk2.
    apply orb_false_iff in Hk2 as [_ Hk2]. discriminate Hk2.
  - rewrite !string_app_cons, !string_app_empty_l in E.
    apply string_app_cut with (c := "="%char) in E as [-> E]; try assumption; try reflexivity.
    by injection E as ->.
Qed.

Lemma macroString_plain (x : string * string) :
  uncurry plainMacro x -> occurs "_" (macroString x) = false.
Proof.
  destruct x as [k v]. unfold plainMacro, macroString. simpl.
  intros (Hk & _ & Hv). destruct (decide (v = "")); [exact Hk |].
  rewrite occurs_app, Hk. rewrite string_app_cons, string_app_empty_l. simpl. exact Hv.
Qed.

Lemma fmap_Permutation_inj_on {A B : Type} (f : A -> B) (P : A -> Prop) :
  (forall x y, P x -> P y -> f x = f y -> x = y) ->
  forall l k : list A, Forall P l -> Forall P k -> f <$> l ≡ₚ f <$> k -> l ≡ₚ k.
Proof.
  intros Hinj l. induction l as [| x l IH]; intros k Hl Hk E.
  - rewrite fmap_nil in E. apply Permutation_nil in E.
    apply fmap_nil_inv in E. by subst.
  - apply Forall_cons in Hl as [Hx Hl].
    assert (Hin : f x ∈ f <$> k) by (rewrite <- E, fmap_cons; apply list_elem_of_here).
    apply list_elem_of_fmap in Hin as (y & Hfy & Hy).
    assert (y = x) as ->.
    { apply Hinj; [| exact Hx | by symmetry].
      rewrite Forall_forall in Hk. by apply Hk. }
    apply elem_of_Permutation in Hy as [k' Hk'].
    rewrite Hk' in E, Hk. rewrite !fmap_cons in E.
    apply Permutation_cons_inv in E.
    apply Forall_cons in Hk as [_ Hk].
    rewrite Hk'. constructor. apply IH; assumption.
Qed.

(** C7 (as amended).  For a source name and two sets of macros whose names
    contain neither [_] nor [=] and whose values contain no [_], the names
    under which the two variants are cached are equal only if the two sets
    are equal. *)
Theorem shaderName_injective name (macros1 macros2 : gmap string string) :
  map_Forall plainMacro macros1 ->
  map_Forall plainMacro macros2 ->
  shaderName name macros1 = shaderName name macros2 ->
  macros1 = macros2.
Proof.
  intros H1%map_Forall_to_list H2%map_Forall_to_list E.
  unfold shaderName in E. rewrite !foldl_macroSuffix in E.
  apply (inj (String.app name)) in E.
  assert (Hplain : forall l : list (string * string),
             Forall (uncurry plainMacro) l ->
             Forall (fun s => occurs "_" s = false)
                    (merge_sort String.le (macroString <$> l))).
  { intros l Hl. rewrite merge_sort_Permutation. apply Forall_fmap.
    eapply Forall_impl; [exact Hl |]. intros x Hx. by apply macroString_plain. }
  apply macroSuffix_inj in E; [| by apply Hplain ..].
  apply map_to_list_inj.
  apply (fmap_Permutation_inj_on macroString (uncurry plainMacro));
    [intros x y; apply macroString_inj | assumption | assumption |].
  rewrite <- (merge_sort_Permutation String.le (macroString <$> map_to_list macros1)).
  rewrite E. apply merge_sort_Permutation.
Qed.

Lemma shaderName_injective_witness :
  ({[ "SMAAPRESET" := "2"; "EDGEMETHOD" := "1" ]} : gmap string string)
  = {[ "EDGEMETHOD" := "1"; "SMAAPRESET" := "2" ]}.
Proof.
  apply (shaderName_injective "smaaEdge.frag").
  - apply map_Forall_to_list. vm_compute. repeat constructor.
  - apply map_Forall_to_list. vm_compute. repeat constructor.
  - vm_compute. reflexivity.
Defined.

(** C7 as it is written fails: the macro [A_B] and the two macros [A] and
    [B] give the same name, and so do the macro [A] with the value [B=C]
    and the macro [A=B] with the value [C]. *)
Lemma shaderName_counterexample :
  (({[ "A_B" := "" ]} : gmap string string) <> {[ "A" := ""; "B" := "" ]} /\
   shaderName "smaa.frag" {[ "A_B" := "" ]}
   = shaderName "smaa.frag" {[ "A" := ""; "B" := "" ]}) /\
  (({[ "A" := "B=C" ]} : gmap string string) <> {[ "A=B" := "C" ]} /\
   shaderName "smaa.frag" {[ "A" := "B=C" ]}
   = shaderName "smaa.frag" {[ "A=B" := "C" ]}).
Proof.
  split; (split; [| vm_compute; reflexivity]).
  - intros E. apply (f_equal (fun m => m !! "A")) in E. vm_compute in E. discriminate E.
  - intros E. apply (f_equal (fun m => m !! "A")) in E. vm_compute in E. discriminate E.
Qed.

End ShaderName.

(** ** The frame state machine *)

Section FrameStateMachine.

Import GL.

Lemma get_Ok {T : Type} (c : gmap nat T) (handle : Handle) (r : T) :
  ResourceContainer.get c handle = Ok r <-> c !! handle = Some r.
Proof.
  unfold ResourceContainer.get. destruct (c !! handle); split; congruence.
Qed.

Lemma get_lookup {T : Type} (c : gmap nat T) (handle : Handle) (r : T) :
  c !! handle = Some r -> ResourceContainer.get c handle = Ok r.
Proof. apply get_Ok. Qed.

(** *** bindPipeline and the draw calls *)

Lemma bindPipeline_not_drawn st pipeline :
  pipelineDrawn st = false -> bindPipeline st pipeline = AssertFail.
Proof.
  intros H. unfold bindPipeline. do 3 guard_case.
  rewrite H. reflexivity.
Qed.

Lemma bindPipeline_Ok st pipeline st' :
  bindPipeline st pipeline = Ok st' ->
  pipelineDrawn st = true /\ pipelineDrawn st' = false /\
  inFrame st' = inFrame st /\ inRenderPass st' = inRenderPass st.
Proof.
  unfold bindPipeline. intros H. ok_steps H. injection H as <-.
  repeat split; assumption || reflexivity.
Qed.

Lemma beginFrame_Ok st st' :
  beginFrame st = Ok st' ->
  inFrame st = false /\ inFrame st' = true /\ pipelineDrawn st' = true.
Proof.
  unfold beginFrame. intros H. ok_steps H. injection H as <-.
  apply negb_true_iff in Hstep. repeat split; assumption || reflexivity.
Qed.

Lemma draw_Ok st firstVertex vertexCount st' :
  draw st firstVertex vertexCount = Ok st' -> st' = set_pipelineDrawn true st.
Proof. unfold draw. intros H. ok_steps H. by injection H as <-. Qed.

Lemma drawIndexedInstanced_Ok st vertexCount instanceCount st' :
  drawIndexedInstanced st vertexCount instanceCount = Ok st' ->
  st' = set_pipelineDrawn true st.
Proof. unfold drawIndexedInstanced. intros H. ok_steps H. by injection H as <-. Qed.

Lemma drawIndexedOffset_Ok st vertexCount firstIndex st' :
  drawIndexedOffset st vertexCount firstIndex = Ok st' ->
  st' = set_pipelineDrawn true st.
Proof. unfold drawIndexedOffset. intros H. ok_steps H. by injection H as <-. Qed.

(** *** presentFrame *)

Lemma guarded_bind {A B : Type} (r : result A) (k : A -> result B) :
  guarded r -> (forall a, r = Ok a -> guarded (k a)) -> guarded (r ≫= k).
Proof. destruct r; simpl; intros Hr Hk; [by apply Hk | exact I | destruct Hr ..]. Qed.

Lemma guarded_assert c : guarded (assert c).
Proof. by destruct c. Qed.

Lemma guarded_get {T : Type} (c : gmap nat T) handle :
  guarded (ResourceContainer.get c handle).
Proof. unfold ResourceContainer.get. by destruct (c !! handle). Qed.

Lemma guarded_remove {T : Type} (c : gmap nat T) handle :
  guarded (ResourceContainer.remove c handle).
Proof. unfold ResourceContainer.remove. by destruct (c !! handle). Qed.

Lemma releaseEphemeralBuffers_guarded ringBuffer handles buffers :
  guarded (releaseEphemeralBuffers ringBuffer handles buffers).
Proof.
  revert buffers. induction handles as [| handle handles IH]; intros buffers; simpl.
  - exact I.
  - apply guarded_bind; [apply guarded_get | intros buffer _].
    repeat (apply guarded_bind; [apply guarded_assert | intros _ _]).
    apply guarded_bind; [apply guarded_remove | intros buffers' _]. apply IH.
Qed.

Lemma presentFrame_guarded st image : guarded (presentFrame st image).
Proof.
  unfold presentFrame.
  apply guarded_bind; [apply guarded_assert | intros _ _].
  apply guarded_bind; [apply guarded_get | intros rt _].
  repeat (apply guarded_bind; [apply guarded_assert | intros _ _]).
  apply guarded_bind.
  - destruct (RenderTarget.readFBO rt =? 0); [| exact I].
    unfold glCreate.
    apply guarded_bind; [apply guarded_get | intros colorTex _].
    repeat (apply guarded_bind; [apply guarded_assert | intros _ _]). exact I.
  - intros st1 _.
    apply guarded_bind; [apply releaseEphemeralBuffers_guarded | intros buffers' _].
    exact I.
Qed.

Lemma presentFrame_ignores_inRenderPass st image b :
  presentFrame (set_inRenderPass b st) image
  = st' ← presentFrame st image; Ok (set_inRenderPass b st').
Proof.
  unfold presentFrame.
  cbn [inFrame set_inRenderPass set_inFrame renderTargets swapchainDesc].
  destruct (inFrame st); [| reflexivity].
  change (assert true) with (Ok tt : result unit). rewrite !bind_Ok_l.
  destruct (ResourceContainer.get (renderTargets st) image) as [rt | | |];
    [rewrite !bind_Ok_l | reflexivity ..].
  repeat guard_split.
  destruct (RenderTarget.readFBO rt =? 0).
  - unfold glCreate. cbn.
    destruct (ResourceContainer.get (textures st) (RenderTarget.texture rt))
      as [colorTex | | |]; [rewrite !bind_Ok_l | reflexivity ..].
    repeat guard_split. cbn.
    destruct (releaseEphemeralBuffers _ _ _); reflexivity.
  - rewrite !bind_Ok_l. cbn.
    destruct (releaseEphemeralBuffers _ _ _); reflexivity.
Qed.

(** C3 (as amended).  [presentFrame] fails a guard when the renderer is
    not in a frame and when the layout of the target is not [TransferSrc];
    it never ends in another kind of failure.  It does not look at
    [inRenderPass]: with the flag set either way it does the same. *)
Theorem presentFrame_guards st image :
  (inFrame st = false -> presentFrame st image = AssertFail) /\
  (forall rt,
      renderTargets st !! image = Some rt ->
      RenderTarget.currentLayout rt <> Layout.TransferSrc ->
      presentFrame st image = AssertFail) /\
  guarded (presentFrame st image) /\
  (forall b,
      presentFrame (set_inRenderPass b st) image
      = st' ← presentFrame st image; Ok (set_inRenderPass b st')).
Proof.
  split; [| split; [| split]].
  - intros H. unfold presentFrame. rewrite H. reflexivity.
  - intros rt Hrt Hlayout. unfold presentFrame. guard_case.
    cbn [renderTargets set_inFrame]. rewrite (get_lookup _ _ _ Hrt), bind_Ok_l.
    rewrite assert_false_bind; [reflexivity |]. by apply bool_decide_eq_false.
  - apply presentFrame_guarded.
  - intros b. apply presentFrame_ignores_inRenderPass.
Qed.

(** Outside a frame, and in a frame whose target has not been rendered
    to. *)
Lemma presentFrame_guards_witness :
  presentFrame demoRenderer 1%nat = AssertFail /\
  presentFrame (stateAfter [BeginFrame]) 1%nat = AssertFail.
Proof.
  split.
  - apply (proj1 (presentFrame_guards demoRenderer 1%nat)). reflexivity.
  - apply (proj1 (proj2 (presentFrame_guards (stateAfter [BeginFrame]) 1%nat))
             (RenderTarget.mk 256 256 1%nat 0 Layout.Undefined)).
    + vm_compute. reflexivity.
    + simpl. discriminate.
Defined.

(** C3 as it is written fails: in the second frame of [demoRenderer],
    inside a render pass, with the target still in the layout the first
    frame left it in, [presentFrame] goes through. *)
Lemma presentFrame_inside_render_pass :
  exists trace st',
    calls demoRenderer secondFrameCalls = Ok (trace, stateAfter secondFrameCalls) /\
    inFrame (stateAfter secondFrameCalls) = true /\
    inRenderPass (stateAfter secondFrameCalls) = true /\
    presentFrame (stateAfter secondFrameCalls) 1%nat = Ok st'.
Proof.
  eexists _, _. split; [vm_compute; reflexivity |].
  split; [reflexivity |]. split; [reflexivity |]. vm_compute. reflexivity.
Qed.

(** *** Ephemeral buffers *)

Lemma add_fresh {T : Type} (initial : T) (c : gmap nat T) handle c' :
  ResourceContainer.add initial c = (handle, c') ->
  c !! handle = None /\ handle <> 0%nat /\ c' = <[handle := initial]> c.
Proof.
  unfold ResourceContainer.add. intros [= <- <-].
  pose proof (is_fresh ({[0%nat]} ∪ dom c)) as Hfresh.
  split; [| split; [| reflexivity]].
  - apply not_elem_of_dom. set_solver.
  - set_solver.
Qed.

(** What the loop of [presentFrame] leaves in the container: none of the
    handles it went through, and nothing that was not there before. *)
Lemma releaseEphemeralBuffers_Ok ringBuffer handles buffers buffers' :
  releaseEphemeralBuffers ringBuffer handles buffers = Ok buffers' ->
  (forall h, h ∈ handles -> buffers' !! h = None) /\
  (forall h, buffers !! h = None -> buffers' !! h = None).
Proof.
  revert buffers. induction handles as [| handle handles IH]; intros buffers H; simpl in H.
  - injection H as <-. split; [| auto].
    intros h Hin. apply elem_of_nil in Hin. destruct Hin.
  - ok_steps H. unfold ResourceContainer.remove in Hstep3.
    rewrite lookup_insert_eq in Hstep3. injection Hstep3 as <-.
    apply IH in H as [Hgone Hmono].
    assert (Hstay : forall h, buffers !! h = None ->
                              delete handle (<[handle := Buffer.mk 0 false (Buffer.beginOffs a) 0]>
                                               buffers) !! h = None).
    { intros h Hh. destruct (decide (h = handle)) as [-> | Hne].
      - apply lookup_delete_eq.
      - by rewrite lookup_delete_ne, lookup_insert_ne. }
    split.
    + intros h [-> | Hin]%elem_of_cons; [| by apply Hgone].
      apply Hmono, lookup_delete_eq.
    + intros h Hh. by apply Hmono, Hstay.
Qed.

Lemma presentFrame_Ok st image st' :
  presentFrame st image = Ok st' ->
  ephemeralBuffers st' = [] /\ inFrame st' = false /\
  pipelineDrawn st' = pipelineDrawn st /\
  (forall h, h ∈ ephemeralBuffers st -> buffers st' !! h = None).
Proof.
  unfold presentFrame. intros H. ok_steps H. injection H as <-.
  assert (Hsame : ephemeralBuffers a6 = ephemeralBuffers st /\ inFrame a6 = false /\
                  pipelineDrawn a6 = pipelineDrawn st).
  { destruct (RenderTarget.readFBO a0 =? 0).
    - unfold glCreate in Hstep6. cbn in Hstep6. ok_steps Hstep6.
      injection Hstep6 as <-. repeat split; reflexivity.
    - injection Hstep6 as <-. repeat split; reflexivity. }
  destruct Hsame as (Heph & Hframe & Hdrawn). rewrite Heph in Hstep7.
  apply releaseEphemeralBuffers_Ok in Hstep7 as [Hgone _].
  split; [reflexivity |]. split; [exact Hframe |]. split; [exact Hdrawn | exact Hgone].
Qed.

(** *** bindPipeline after bindPipeline *)


(** The calls other than [beginFrame] and the draw calls leave a cleared
    [pipelineDrawn] as it is. *)
Lemma call_keeps_not_drawn st c h st' :
  c <> BeginFrame -> isDraw c = false ->
  call st c = Ok (h, st') ->
  pipelineDrawn st = false -> pipelineDrawn st' = false.
Proof.
  intros Hbegin Hdraw H Hnot.
  destruct c; try congruence; try discriminate Hdraw; simpl in H; ok_step H.
  - destruct a as [handle st1]. injection H as <- <-.
    unfold createBuffer in Hstep. ok_steps Hstep.
    destruct (ResourceContainer.add _ _) as [handle' buffers'].
    unfold glCreate in Hstep. by injection Hstep as <- <-.
  - destruct a as [handle st1]. injection H as <- <-.
    unfold createEphemeralBuffer in Hstep. ok_steps Hstep.
    destruct a1 as [beginPtr ring']. cbn [buffers set_ring] in Hstep.
    destruct (ResourceContainer.add _ _) as [handle' buffers'].
    by injection Hstep as <- <-.
  - injection H as <- <-. unfold deleteBuffer in Hstep. ok_step Hstep.
    by injection Hstep as <-.
  - injection H as <- <-. apply presentFrame_Ok in Hstep as (_ & _ & Hsame & _).
    congruence.
  - injection H as <- <-. unfold beginRenderPass in Hstep. ok_steps Hstep.
    by injection Hstep as <-.
  - injection H as <- <-. unfold endRenderPass in Hstep. ok_steps Hstep.
    by injection Hstep as <-.
  - injection H as <- <-. by apply bindPipeline_Ok in Hstep as (_ & ? & _).
  - injection H as <- <-. unfold setScissorRect in Hstep. ok_steps Hstep.
    by injection Hstep as <-.
  - injection H as <- <-. unfold setViewport in Hstep. ok_steps Hstep.
    by injection Hstep as <-.
  - injection H as <- <-. unfold bindIndexBuffer in Hstep. ok_steps Hstep.
    by injection Hstep as <-.
  - injection H as <- <-. unfold bindVertexBuffer in Hstep. ok_steps Hstep.
    destruct (PipelineDesc.vertexBuffers _ !! _); [| discriminate Hstep].
    by injection Hstep as <-.
Qed.

Lemma calls_keep_not_drawn st cs trace st' :
  Forall (fun c => c <> BeginFrame /\ isDraw c = false) cs ->
  calls st cs = Ok (trace, st') ->
  pipelineDrawn st = false -> pipelineDrawn st' = false.
Proof.
  intros Hcs. revert st trace. induction Hcs as [| c cs [Hb Hd] _ IH]; intros st trace H Hnot.
  - by injection H as _ <-.
  - simpl in H. ok_step H. destruct a as [h st1].
    ok_step H. destruct a as [trace1 st2]. injection H as _ <-.
    eapply IH; [exact Hstep0 |]. eapply call_keeps_not_drawn; eassumption.
Qed.

(** C8.  [bindPipeline] fails its guard when no draw has been issued since
    the last [bindPipeline]: whenever [pipelineDrawn] is cleared, and so
    after a [bindPipeline] that went through, whatever calls other than
    [beginFrame] and the draw calls have gone through since.  [beginFrame]
    and each of the three draw calls set [pipelineDrawn], and with
    [pipelineDrawn] set [bindPipeline] goes through when its other guards
    hold. *)
Theorem bindPipeline_requires_draw :
  (forall st pipeline,
      pipelineDrawn st = false -> bindPipeline st pipeline = AssertFail) /\
  (forall st pipeline st1 cs trace st2 pipeline',
      bindPipeline st pipeline = Ok st1 ->
      Forall (fun c => c <> BeginFrame /\ isDraw c = false) cs ->
      calls st1 cs = Ok (trace, st2) ->
      bindPipeline st2 pipeline' = AssertFail) /\
  (forall st c h st',
      c = BeginFrame \/ isDraw c = true ->
      call st c = Ok (h, st') -> pipelineDrawn st' = true) /\
  (forall st pipeline p,
      pipelineDrawn st = true ->
      inFrame st = true -> inRenderPass st = true -> isValid pipeline = true ->
      pipelines st !! pipeline = Some p ->
      PipelineDesc.renderPass_ (Pipeline.desc p) = currentRenderPass st ->
      exists st', bindPipeline st pipeline = Ok st').
Proof.
  split; [exact bindPipeline_not_drawn |]. split; [| split].
  - intros st pipeline st1 cs trace st2 pipeline' H Hcs Hcalls.
    apply bindPipeline_Ok in H as (_ & H & _).
    apply bindPipeline_not_drawn. eapply calls_keep_not_drawn; eassumption.
  - intros st c h st' [-> | Hc] H.
    + simpl in H. ok_step H. injection H as _ <-.
      by apply beginFrame_Ok in Hstep as (_ & _ & ?).
    + destruct c; try discriminate Hc; simpl in H; ok_step H; injection H as _ <-.
      * by apply draw_Ok in Hstep as ->.
      * by apply drawIndexedInstanced_Ok in Hstep as ->.
      * by apply drawIndexedOffset_Ok in Hstep as ->.
  - intros st pipeline p Hdrawn Hframe Hpass Hvalid Hp Hrp.
    unfold bindPipeline. rewrite Hframe, Hvalid, Hpass, Hdrawn.
    change (assert true) with (Ok tt : result unit). rewrite !bind_Ok_l.
    cbn [pipelines set_currentPipeline set_scissorSet set_validPipeline set_pipelineDrawn].
    rewrite (get_lookup _ _ _ Hp), bind_Ok_l.
    cbn [currentRenderPass].
    rewrite assert_true by (apply bool_decide_eq_true; exact Hrp).
    rewrite bind_Ok_l. eauto.
Qed.

(** In the first frame of [demoRenderer]: after [bindPipeline] and the
    creation of a buffer a second [bindPipeline] fails, and after a draw
    it goes through. *)
Lemma bindPipeline_requires_draw_witness :
  bindPipeline
    (stateAfter [BeginFrame; BeginRenderPass 1%nat 1%nat; BindPipeline 1%nat;
                 CreateBuffer 16 None]) 1%nat
  = AssertFail /\
  exists st',
    bindPipeline
      (stateAfter [BeginFrame; BeginRenderPass 1%nat 1%nat; BindPipeline 1%nat; Draw 0 3])
      1%nat
    = Ok st'.
Proof.
  destruct bindPipeline_requires_draw as (_ & Htwice & _ & Hbind). split.
  - apply (Htwice (stateAfter [BeginFrame; BeginRenderPass 1%nat 1%nat]) 1%nat
             (stateAfter [BeginFrame; BeginRenderPass 1%nat 1%nat; BindPipeline 1%nat])
             [CreateBuffer 16 None] [(CreateBuffer 16 None, Some 1%nat)]).
    + vm_compute. reflexivity.
    + repeat constructor. discriminate.
    + vm_compute. reflexivity.
  - apply (Hbind _ 1%nat (Pipeline.mk demoPipelineDesc 6)); vm_compute; reflexivity.
Defined.

End FrameStateMachine.

Section EphemeralBuffers.

Import GL.


Lemma createBuffer_Ok st size contents handle st' :
  createBuffer st size contents = Ok (handle, st') ->
  buffers st !! handle = None /\
  buffers st' = <[handle := Buffer.mk (glNames st) false 0 size]> (buffers st) /\
  ephemeralBuffers st' = ephemeralBuffers st.
Proof.
  unfold createBuffer. intros H. ok_steps H.
  destruct (ResourceContainer.add _ _) as [handle' buffers'] eqn:Hadd.
  apply add_fresh in Hadd as (Hfresh & _ & ->).
  unfold glCreate in H. injection H as <- <-.
  split; [exact Hfresh |]. split; [| reflexivity].
  cbn. apply insert_insert_eq.
Qed.

Lemma createEphemeralBuffer_Ok st size contents handle st' :
  createEphemeralBuffer st size contents = Ok (handle, st') ->
  exists beginPtr,
    buffers st !! handle = None /\
    buffers st' = <[handle := Buffer.mk (ringBuffer st) true beginPtr size]> (buffers st) /\
    ephemeralBuffers st' = ephemeralBuffers st ++ [handle].
Proof.
  unfold createEphemeralBuffer. intros H. ok_steps H.
  destruct a1 as [beginPtr ring'].
  cbn [buffers set_ring ringBuffer ephemeralBuffers] in H.
  destruct (ResourceContainer.add _ _) as [handle' buffers'] eqn:Hadd.
  apply add_fresh in Hadd as (Hfresh & _ & ->).
  injection H as <- <-. exists beginPtr.
  split; [exact Hfresh |]. split; [| reflexivity].
  cbn. apply insert_insert_eq.
Qed.

Lemma deleteBuffer_Ok st handle st' :
  deleteBuffer st handle = Ok st' ->
  exists b, buffers st !! handle = Some b /\ Buffer.ringBufferAlloc b = false /\
            buffers st' = delete handle (buffers st) /\
            ephemeralBuffers st' = ephemeralBuffers st.
Proof.
  unfold deleteBuffer, ResourceContainer.removeWith. intros H.
  ok_step H. injection H as <-.
  ok_step Hstep. apply get_Ok in Hstep0. rename a0 into b.
  ok_step Hstep. injection Hstep as <-.
  ok_steps Hstep1. simpl in Hstep3. apply negb_true_iff in Hstep3.
  exists b. repeat split; assumption || reflexivity.
Qed.

Lemma deleteBuffer_ringBufferAlloc st handle b :
  buffers st !! handle = Some b -> Buffer.ringBufferAlloc b = true ->
  deleteBuffer st handle = AssertFail.
Proof.
  intros Hb Halloc. unfold deleteBuffer, ResourceContainer.removeWith.
  rewrite (get_lookup _ _ _ Hb), bind_Ok_l.
  do 2 guard_case. simpl. rewrite Halloc. reflexivity.
Qed.

(** The calls other than [presentFrame] change the container of buffers
    and the list of ephemeral buffers only by creating and deleting. *)
Lemma call_buffers st c h st' :
  isPresentFrame c = false ->
  call st c = Ok (h, st') ->
  match c with
  | CreateBuffer _ _ | CreateEphemeralBuffer _ _ | DeleteBuffer _ => True
  | _ => buffers st' = buffers st /\ ephemeralBuffers st' = ephemeralBuffers st
  end.
Proof.
  intros Hc H.
  destruct c; try exact I; try discriminate Hc; simpl in H; ok_step H;
    injection H as _ <-.
  - unfold beginFrame in Hstep. ok_steps Hstep. by injection Hstep as <-.
  - unfold beginRenderPass in Hstep. ok_steps Hstep. by injection Hstep as <-.
  - unfold endRenderPass in Hstep. ok_steps Hstep. by injection Hstep as <-.
  - unfold bindPipeline in Hstep. ok_steps Hstep. by injection Hstep as <-.
  - unfold setScissorRect in Hstep. ok_steps Hstep. by injection Hstep as <-.
  - unfold setViewport in Hstep. ok_steps Hstep. by injection Hstep as <-.
  - unfold bindIndexBuffer in Hstep. ok_steps Hstep. by injection Hstep as <-.
  - unfold bindVertexBuffer in Hstep. ok_steps Hstep.
    destruct (PipelineDesc.vertexBuffers _ !! _); [| discriminate Hstep].
    by injection Hstep as <-.
  - by apply draw_Ok in Hstep as ->.
  - by apply drawIndexedInstanced_Ok in Hstep as ->.
  - by apply drawIndexedOffset_Ok in Hstep as ->.
Qed.


Lemma call_ephemeralBuffers st c h st' :
  isPresentFrame c = false ->
  call st c = Ok (h, st') ->
  ephemeralBuffers st' = ephemeralBuffers st ++ createdEphemeral [(c, h)].
Proof.
  intros Hc H. pose proof (call_buffers st c h st' Hc H) as Hsame.
  destruct c;
    try (match type of Hsame with
         | _ /\ _ => destruct Hsame as [_ ->]; symmetry; apply app_nil_r
         end);
    simpl in H; ok_step H.
  - destruct a as [handle st1]. injection H as <- <-.
    apply createBuffer_Ok in Hstep as (_ & _ & ->). symmetry. apply app_nil_r.
  - destruct a as [handle st1]. injection H as <- <-.
    by apply createEphemeralBuffer_Ok in Hstep as (beginPtr & _ & _ & ->).
  - injection H as <- <-.
    apply deleteBuffer_Ok in Hstep as (b & _ & _ & _ & ->). symmetry. apply app_nil_r.
Qed.

Lemma calls_cons st c cs trace st2 :
  calls st (c :: cs) = Ok (trace, st2) ->
  exists h st1 trace1,
    call st c = Ok (h, st1) /\ calls st1 cs = Ok (trace1, st2) /\
    trace = (c, h) :: trace1.
Proof.
  simpl. intros H. ok_step H. destruct a as [h st1].
  ok_step H. destruct a as [trace1 st2']. injection H as <- <-.
  eauto 10.
Qed.

Lemma calls_ephemeralBuffers st cs trace st' :
  Forall (fun c => isPresentFrame c = false) cs ->
  calls st cs = Ok (trace, st') ->
  ephemeralBuffers st' = ephemeralBuffers st ++ createdEphemeral trace.
Proof.
  intros Hcs. revert st trace. induction Hcs as [| c cs Hc _ IH]; intros st trace H.
  - injection H as <- <-. symmetry. apply app_nil_r.
  - apply calls_cons in H as (h & st1 & trace1 & Hcall & Hrest & ->).
    rewrite (IH _ _ Hrest), (call_ephemeralBuffers _ _ _ _ Hc Hcall).
    rewrite <- app_assoc. f_equal.
    unfold createdEphemeral. simpl. by destruct c, h.
Qed.

Lemma elem_of_createdEphemeral trace size contents h :
  (CreateEphemeralBuffer size contents, Some h) ∈ trace -> h ∈ createdEphemeral trace.
Proof.
  intros Hin. unfold createdEphemeral. apply list_elem_of_omap.
  exists (CreateEphemeralBuffer size contents, Some h). split; [exact Hin | reflexivity].
Qed.

(** C4.  A frame starts with an empty list of ephemeral buffers.  Whatever
    calls other than [presentFrame] are made then, once [presentFrame]
    has gone through none of the handles that [createEphemeralBuffer] has
    returned in between is left in the container of buffers, the list of
    ephemeral buffers is empty again, and the renderer is out of the
    frame, so that [beginFrame] goes through. *)
Theorem presentFrame_releases_ephemeral st cs trace st1 image st2 :
  ephemeralBuffers st = [] ->
  Forall (fun c => isPresentFrame c = false) cs ->
  calls st cs = Ok (trace, st1) ->
  presentFrame st1 image = Ok st2 ->
  (forall size contents h,
      (CreateEphemeralBuffer size contents, Some h) ∈ trace ->
      buffers st2 !! h = None) /\
  ephemeralBuffers st2 = [] /\
  inFrame st2 = false /\
  exists st3, beginFrame st2 = Ok st3.
Proof.
  intros Hempty Hcs Hcalls Hpresent.
  apply calls_ephemeralBuffers in Hcalls; [| exact Hcs].
  rewrite Hempty, app_nil_l in Hcalls.
  apply presentFrame_Ok in Hpresent as (Hnil & Hframe & _ & Hgone).
  split; [| split; [exact Hnil | split; [exact Hframe |]]].
  - intros size contents h Hin. apply Hgone. rewrite Hcalls.
    by eapply elem_of_createdEphemeral.
  - unfold beginFrame. rewrite Hframe. simpl. eauto.
Qed.

(** A frame of [demoRenderer]: the ephemeral buffer gets the handle 1, the
    other buffer the handle 2, and after [presentFrame] only the second is
    left. *)
Lemma presentFrame_releases_ephemeral_witness :
  buffers (stateAfter (frameCalls ++ [PresentFrame 1%nat])) !! 1%nat = None /\
  ephemeralBuffers (stateAfter (frameCalls ++ [PresentFrame 1%nat])) = [] /\
  inFrame (stateAfter (frameCalls ++ [PresentFrame 1%nat])) = false /\
  exists st3, beginFrame (stateAfter (frameCalls ++ [PresentFrame 1%nat])) = Ok st3.
Proof.
  destruct (presentFrame_releases_ephemeral demoRenderer frameCalls
              [(BeginFrame, None); (CreateEphemeralBuffer 64 (Some "uniforms"), Some 1%nat);
               (CreateBuffer 16 None, Some 2%nat);
               (BeginRenderPass 1%nat 1%nat, None); (BindPipeline 1%nat, None);
               (BindVertexBuffer 0 1%nat, None);
               (Draw 0 3, None); (EndRenderPass, None)]
              (stateAfter frameCalls) 1%nat
              (stateAfter (frameCalls ++ [PresentFrame 1%nat])))
    as (Hgone & Hrest).
  - reflexivity.
  - repeat constructor.
  - vm_compute. reflexivity.
  - vm_compute. reflexivity.
  - split; [| exact Hrest].
    apply (Hgone 64 (Some "uniforms") 1%nat).
    apply list_elem_of_further, list_elem_of_here.
Defined.

(** The frame as a whole, with [presentFrame] at its end, goes through
    without failing a guard. *)
Example frame_goes_through :
  exists trace st, calls demoRenderer (frameCalls ++ [PresentFrame 1%nat]) = Ok (trace, st).
Proof. eexists _, _. vm_compute. reflexivity. Qed.

(** In the same frame the other buffer is still there after
    [presentFrame]. *)
Example presentFrame_keeps_other_buffers :
  buffers (stateAfter (frameCalls ++ [PresentFrame 1%nat])) !! 2%nat
  = Some (Buffer.mk 7 false 0 16).
Proof. vm_compute. reflexivity. Qed.

(** A buffer taken from the ring buffer stays as it is through the calls
    other than [presentFrame]. *)
Lemma call_keeps_ephemeral st c r st' h b :
  isPresentFrame c = false ->
  call st c = Ok (r, st') ->
  buffers st !! h = Some b -> Buffer.ringBufferAlloc b = true ->
  buffers st' !! h = Some b.
Proof.
  intros Hc H Hb Halloc. pose proof (call_buffers st c r st' Hc H) as Hsame.
  destruct c;
    try (match type of Hsame with
         | _ /\ _ => destruct Hsame as [-> _]; exact Hb
         end);
    simpl in H; ok_step H.
  - destruct a as [handle st1]. injection H as <- <-.
    apply createBuffer_Ok in Hstep as (Hfresh & -> & _).
    rewrite lookup_insert_ne; [exact Hb | congruence].
  - destruct a as [handle st1]. injection H as <- <-.
    apply createEphemeralBuffer_Ok in Hstep as (beginPtr & Hfresh & -> & _).
    rewrite lookup_insert_ne; [exact Hb | congruence].
  - injection H as <- <-.
    apply deleteBuffer_Ok in Hstep as (b' & Hb' & Halloc' & -> & _).
    rewrite lookup_delete_ne; [exact Hb | congruence].
Qed.

Lemma calls_keep_ephemeral st cs trace st' h b :
  Forall (fun c => isPresentFrame c = false) cs ->
  calls st cs = Ok (trace, st') ->
  buffers st !! h = Some b -> Buffer.ringBufferAlloc b = true ->
  buffers st' !! h = Some b.
Proof.
  intros Hcs. revert st trace. induction Hcs as [| c cs Hc _ IH]; intros st trace H Hb Halloc.
  - by injection H as <- <-.
  - apply calls_cons in H as (r & st1 & trace1 & Hcall & Hrest & ->).
    eapply IH; [exact Hrest | | exact Halloc].
    eapply call_keeps_ephemeral; eassumption.
Qed.

(** C10.  Once [createEphemeralBuffer] has returned a handle, and through
    whatever calls other than [presentFrame] go through afterwards, the
    buffer stays in the container, marked as an allocation from the ring
    buffer, and [deleteBuffer] on its handle fails the guard of the
    clean-up. *)
Theorem deleteBuffer_ephemeral_asserts st size contents h st1 cs trace st2 :
  createEphemeralBuffer st size contents = Ok (h, st1) ->
  Forall (fun c => isPresentFrame c = false) cs ->
  calls st1 cs = Ok (trace, st2) ->
  (exists b, buffers st2 !! h = Some b /\ Buffer.ringBufferAlloc b = true) /\
  deleteBuffer st2 h = AssertFail.
Proof.
  intros Hcreate Hcs Hcalls.
  apply createEphemeralBuffer_Ok in Hcreate as (beginPtr & _ & Hbuffers & _).
  assert (Hb : buffers st2 !! h = Some (Buffer.mk (ringBuffer st) true beginPtr size)).
  { eapply calls_keep_ephemeral; [exact Hcs | exact Hcalls | | reflexivity].
    rewrite Hbuffers. apply lookup_insert_eq. }
  split; [eauto |]. eapply deleteBuffer_ringBufferAlloc; [exact Hb | reflexivity].
Qed.

(** In a frame of [demoRenderer], after the ephemeral buffer has been
    created and a pass has been drawn. *)
Lemma deleteBuffer_ephemeral_asserts_witness :
  (exists b, buffers (stateAfter frameCalls) !! 1%nat = Some b /\
             Buffer.ringBufferAlloc b = true) /\
  deleteBuffer (stateAfter frameCalls) 1%nat = AssertFail.
Proof.
  apply (deleteBuffer_ephemeral_asserts
           (stateAfter [BeginFrame]) 64 (Some "uniforms") 1%nat
           (stateAfter [BeginFrame; CreateEphemeralBuffer 64 (Some "uniforms")])
           [CreateBuffer 16 None; BeginRenderPass 1%nat 1%nat; BindPipeline 1%nat;
            BindVertexBuffer 0 1%nat; Draw 0 3; EndRenderPass]
           [(CreateBuffer 16 None, Some 2%nat);
            (BeginRenderPass 1%nat 1%nat, None); (BindPipeline 1%nat, None);
            (BindVertexBuffer 0 1%nat, None);
            (Draw 0 3, None); (EndRenderPass, None)]).
  - vm_compute. reflexivity.
  - repeat constructor.
  - vm_compute. reflexivity.
Defined.

(** The buffer of its own of the same frame can be deleted. *)
Example deleteBuffer_standalone :
  exists st, deleteBuffer (stateAfter frameCalls) 2%nat = Ok st /\
             buffers st !! 2%nat = None.
Proof. eexists. split; vm_compute; reflexivity. Qed.

End EphemeralBuffers.

(** ** Shader resources against descriptor-set layouts *)

Section ShaderResources.

Import GL.

Variable MAX_DESCRIPTOR_SETS : nat.
Variable glLinkStatus : Z -> Z -> bool.





End ShaderResources.



(** The case the design names: the layout [{UniformBuffer@0, Texture@1,
End}] and a shader with a sampler at set 0, binding 1. *)
Example checkShaderResources_sampler_for_texture :
  GL.readLayout
    [GL.DescriptorLayout.mk GL.DescriptorType.UniformBuffer 0;
     GL.DescriptorLayout.mk GL.DescriptorType.Texture 8;
     GL.DescriptorLayout.mk GL.DescriptorType.End_ 0] = Ok demoLayout /\
  GL.checkShaderResources 4 "blit.frag"
    [GL.ShaderResource.mk 0 1 GL.DescriptorType.Sampler] [demoLayout; []; []; []]
  = Ok [GL.DoesNotMatchLayout 0 1 "Sampler" "blit.frag" "Texture"].
Proof. split; reflexivity. Qed.

(** ** The ring-buffer allocator: calls that leave the buffer in place *)

(** The first step of a hypothesis [c ≫= k = Ok x], with names for the
    value and for the equation of the step. *)
Ltac ok_bind H a Ha :=
  apply bind_Ok in H; destruct H as (a & Ha & H);
  try (apply assert_Ok in Ha).

Section RingInPlace.

Import Ring.

Lemma log2_up_large size : 2 ^ 31 < size < 2 ^ 32 -> Z.log2_up size = 32.
Proof.
  intros Hsize.
  pose proof (Z.log2_up_spec size ltac:(lia)) as [Hlo Hhi].
  assert (31 < Z.log2_up size).
  { apply (Z.pow_lt_mono_r_iff 2); [lia | | lia].
    pose proof (Z.log2_up_nonneg size). lia. }
  assert (Z.pred (Z.log2_up size) < 32).
  { apply (Z.pow_lt_mono_r_iff 2); lia. }
  lia.
Qed.

(** What the first [if] leaves: the buffer as it was, or a buffer that is
    larger than the old one and not smaller than the request, or, for a
    request above [2^31], a buffer of no bytes. *)
Lemma growFor_Ok st size st1 :
  growFor st size = Ok st1 -> isU32 size -> 0 <= ringBufSize st ->
  (size <= ringBufSize st /\ st1 = st) \/
  (ringBufSize st < size /\ lastSyncedRingBufPtr st1 = lastSyncedRingBufPtr st /\
   ((size <= ringBufSize st1 /\ isPow2 (ringBufSize st1) = true /\
     ringBufSize st1 <= 2 ^ 31) \/
    ringBufSize st1 = 0)).
Proof.
  unfold growFor. intros H Hsize Hcap. unfold isU32 in Hsize.
  destruct (Z.ltb_spec (ringBufSize st) size) as [Hlt | Hge].
  - ok_steps H. injection H as <-. right. cbn.
    split; [exact Hlt |]. split; [reflexivity |].
    destruct (Z_le_gt_dec size (2 ^ 31)) as [Hs | Hs].
    + left. destruct (nextPow2_least size ltac:(lia)) as (Hp & Hle & _).
      split; [exact Hle |]. split; [exact Hp |].
      apply isPow2_u32_le; [exact Hp |]. apply u32_range.
    + right. unfold nextPow2. rewrite log2_up_large by lia. reflexivity.
  - injection H as <-. left. split; [lia | reflexivity].
Qed.

(** The second [if] in full: either nothing has changed and the block
    fits before the end, or the cursor has moved to the next multiple of
    the capacity and the block starts the buffer anew. *)
Lemma wrapAround_cases st size add mask alignedPtr beginPtr st1 alignedPtr1 beginPtr1 :
  wrapAround st size add mask alignedPtr beginPtr = Ok (st1, alignedPtr1, beginPtr1) ->
  ringBufSize st1 = ringBufSize st /\
  lastSyncedRingBufPtr st1 = lastSyncedRingBufPtr st /\
  ((u32 (beginPtr + size) < ringBufSize st /\
    st1 = st /\ alignedPtr1 = alignedPtr /\ beginPtr1 = beginPtr) \/
   (ringBufSize st <= u32 (beginPtr + size) /\ ringBufSize st <> 0 /\
    ringBufPtr st1 = u32 (u32 (ringBufPtr st / ringBufSize st + 1) * ringBufSize st) /\
    alignedPtr1 = Z.land (u32 (ringBufPtr st1 + add)) mask /\
    alignedPtr1 mod ringBufSize st = 0 /\
    beginPtr1 = 0 /\ u32 (0 + size) < ringBufSize st)).
Proof.
  unfold wrapAround.
  destruct (Z.leb_spec (ringBufSize st) (u32 (beginPtr + size))) as [Hge | Hlt].
  - intros H. ok_bind H q Hq. unfold udiv in Hq.
    destruct (Z.eqb_spec (ringBufSize st) 0) as [| Hne]; [discriminate |].
    injection Hq as <-.
    ok_bind H u1 Hlow. ok_bind H b Hmod. apply umod_Ok in Hmod as [_ ->].
    ok_bind H u2 Hfit. ok_bind H u3 Hzero. injection H as <- <- <-.
    cbn in *. apply Z.eqb_eq in Hzero. apply Z.ltb_lt in Hfit.
    rewrite Hzero in Hfit.
    split; [reflexivity |]. split; [reflexivity |]. right.
    repeat split; assumption || reflexivity.
  - intros [= <- <- <-]. split; [reflexivity |]. split; [reflexivity |]. left.
    repeat split; assumption || reflexivity.
Qed.

(** A call that returns and leaves the capacity as it was has taken
    neither of the two branches that replace the buffer: it does what the
    allocator over a buffer of fixed size does, and the cursor stays below the
    synchronisation mark plus the capacity. *)
Lemma ringBufferAllocate_in_place st size alignment offset st' :
  ringBufferAllocate st size alignment = Ok (offset, st') ->
  ringBufSize st' = ringBufSize st ->
  isU32 size -> 0 <= ringBufSize st <= 2 ^ 31 ->
  size <= ringBufSize st /\
  alignment <> 0 /\ isPow2 alignment = true /\
  FixedRing.ringBufferAllocate st size alignment = Ok (offset, st') /\
  ringBufPtr st' < u32 (lastSyncedRingBufPtr st + ringBufSize st).
Proof.
  intros H Hcap Hsize Hrange.
  unfold ringBufferAllocate in H.
  ok_bind H u1 Hnz. apply negb_true_iff, Z.eqb_neq in Hnz.
  ok_bind H u2 Hpow. ok_bind H st1 Hgrow.
  assert (Hfit : size <= ringBufSize st /\ st1 = st).
  { destruct (growFor_Ok _ _ _ Hgrow Hsize ltac:(lia)) as [Hfit | (Hlt & _ & Hnew)];
      [exact Hfit | exfalso].
    ok_bind H u3 Hle. ok_bind H b Hmod. apply umod_Ok in Hmod as [Hne _].
    ok_bind H w Hwrap. destruct w as [[st2 alignedPtr2] beginPtr2].
    apply wrapAround_Ok in Hwrap as [Hcap2 _].
    apply outOfSpace_Ok in H. cbn in H.
    destruct Hnew as [(Hle1 & _ & _) | Hzero]; [| congruence].
    destruct H as [[_ Hsame] | [_ Hdouble]]; lia. }
  destruct Hfit as [Hfit ->].
  split; [exact Hfit |]. split; [exact Hnz |]. split; [exact Hpow |].
  unfold FixedRing.ringBufferAllocate.
  ok_bind H u3 Hle. rewrite (assert_true _ Hle), bind_Ok_l.
  ok_bind H b Hmod. rewrite Hmod, bind_Ok_l. apply umod_Ok in Hmod as [Hne _].
  ok_bind H w Hwrap. rewrite Hwrap, bind_Ok_l.
  destruct w as [[st2 alignedPtr2] beginPtr2].
  apply wrapAround_cases in Hwrap as (Hcap2 & Hsync2 & _).
  unfold outOfSpace in H. cbn [ringBufSize ringBufPtr lastSyncedRingBufPtr] in H.
  destruct (Z.leb_spec (u32 (lastSyncedRingBufPtr st2 + ringBufSize st2))
              (u32 (alignedPtr2 + size))) as [Hlap | Hfree].
  - exfalso. ok_bind H u4 Hnew. ok_bind H u5 Hzero. injection H as _ <-. cbn in Hcap.
    rewrite Hcap2 in Hcap. unfold u32 in Hcap.
    destruct (Z_lt_le_dec (ringBufSize st * 2) (2 ^ 32)).
    + rewrite Z.mod_small in Hcap by lia. lia.
    + replace (ringBufSize st * 2) with (2 ^ 32) in Hcap by lia.
      rewrite Z.mod_same in Hcap by lia. lia.
  - injection H as <- <-. split; [reflexivity |]. cbn.
    rewrite <- Hsync2, <- Hcap2. exact Hfree.
Qed.

(** The block of a call that leaves the buffer in place, seen on the line
    of the cursor: it starts at or after the cursor, at a place [v] whose
    remainder by the capacity is the offset returned, and the cursor ends
    behind it. *)
Lemma ringBufferAllocate_virtual st size alignment offset st' :
  ringBufferAllocate st size alignment = Ok (offset, st') ->
  ringBufSize st' = ringBufSize st ->
  isU32 size -> notLapped st ->
  lastSyncedRingBufPtr st + 3 * ringBufSize st + alignment <= 2 ^ 32 ->
  notLapped st' /\ lastSyncedRingBufPtr st' = lastSyncedRingBufPtr st /\
  exists v, ringBufPtr st <= v /\ ringBufPtr st' = v + size /\
            offset = v mod ringBufSize st /\ offset + size < ringBufSize st.
Proof.
  intros H Hcap Hsize [HL Hlap] Hbound.
  assert (Hpa : isPow2 alignment = true).
  { unfold ringBufferAllocate in H. ok_bind H u1 Hnz. ok_bind H u2 Hpow. exact Hpow. }
  assert (Hapos : 0 < alignment)
    by (unfold isPow2 in Hpa; apply andb_true_iff in Hpa; lia).
  destruct (ringBufferAllocate_in_place _ _ _ _ _ H Hcap Hsize ltac:(lia))
    as (Hfit & _ & _ & Hold & Hfree).
  clear H. unfold isU32 in Hsize.
  set (cap := ringBufSize st) in *. set (L := lastSyncedRingBufPtr st) in *.
  unfold FixedRing.ringBufferAllocate in Hold.
  ok_bind Hold u1 Hle. ok_bind Hold b Hmod. apply umod_Ok in Hmod as [Hne ->].
  fold cap in Hne.
  assert (Ha : isU32 alignment) by (unfold isU32; lia).
  rewrite (u32_small (alignment - 1)) in * by lia.
  rewrite (u32_small (ringBufPtr st + _)) in * by lia.
  rewrite land_mask_value in * by (try assumption; lia).
  set (x := ringBufPtr st + (alignment - 1)) in *.
  assert (Hx : 0 <= x mod alignment < alignment) by (apply Z.mod_pos_bound; lia).
  set (v0 := x - x mod alignment) in *.
  assert (Hv0 : ringBufPtr st <= v0 < ringBufPtr st + alignment).
  { assert (x = ringBufPtr st + (alignment - 1)) by reflexivity. unfold v0. lia. }
  assert (Hb0 : 0 <= v0 mod cap < cap) by (apply Z.mod_pos_bound; lia).
  rewrite (u32_small (L + cap)) in Hfree by lia.
  ok_bind Hold w Hwrap. destruct w as [[st1 v] beginPtr].
  injection Hold as <- <-. cbn in Hfree, Hcap |- *.
  apply wrapAround_cases in Hwrap as (Hcap1 & Hsync1 & Hwrap). fold cap L in Hcap1, Hsync1.
  rewrite Hsync1, Hcap1.
  destruct Hwrap as [(Hin & -> & -> & ->) | (Hout & _ & Hptr & Hv & Hzero & -> & Hsmall)].
  - fold cap in Hin. rewrite (u32_small (_ + size)) in Hin by lia.
    rewrite (u32_small (v0 + size)) in * by lia.
    split; [unfold notLapped; cbn; fold L cap; lia |]. split; [reflexivity |].
    exists v0. fold cap. repeat split; lia.
  - fold cap in Hout, Hptr, Hzero, Hsmall. rewrite Z.add_0_l, u32_small in Hsmall by lia.
    set (q := ringBufPtr st / cap) in *.
    assert (Hq : 0 <= q * cap <= ringBufPtr st /\ ringBufPtr st < (q + 1) * cap).
    { unfold q. pose proof (Z.mul_div_le (ringBufPtr st) cap ltac:(lia)).
      pose proof (Z.mul_succ_div_gt (ringBufPtr st) cap ltac:(lia)).
      assert (0 <= ringBufPtr st / cap) by (apply Z.div_pos; lia). nia. }
    assert (Hq0 : 0 <= q) by (unfold q; apply Z.div_pos; lia).
    rewrite (u32_small (q + 1)) in Hptr by nia.
    rewrite (u32_small ((q + 1) * cap)) in Hptr by nia.
    rewrite Hptr in Hv.
    rewrite (u32_small (_ + (alignment - 1))) in Hv by nia.
    rewrite land_mask_value in Hv by (try assumption; nia).
    set (y := (q + 1) * cap + (alignment - 1)) in *.
    assert (Hy : 0 <= y mod alignment < alignment) by (apply Z.mod_pos_bound; lia).
    assert (Hv1 : (q + 1) * cap <= v < (q + 1) * cap + alignment).
    { assert (y = (q + 1) * cap + (alignment - 1)) by reflexivity. lia. }
    rewrite (u32_small (v + size)) in * by nia.
    split; [unfold notLapped; cbn; fold L cap; nia |]. split; [reflexivity |].
    exists v. fold cap. rewrite Hzero. repeat split; lia.
Qed.

(** A run in which no call replaces the buffer: every block lies, on the
    line of the cursor, between the cursor at the start and the cursor at
    the end of the run. *)
Lemma run_in_place st evs st' :
  run st evs st' -> notLapped st ->
  Forall (fun ev => evCapacityAfter ev = evCapacityBefore ev /\ isU32 (evSize ev) /\
                    lastSyncedRingBufPtr st + 3 * ringBufSize st + evAlignment ev <= 2 ^ 32)
         evs ->
  notLapped st' /\ ringBufSize st' = ringBufSize st /\
  lastSyncedRingBufPtr st' = lastSyncedRingBufPtr st /\
  ringBufPtr st <= ringBufPtr st' /\
  forall ev, ev ∈ evs ->
    exists v, ringBufPtr st <= v /\ v + evSize ev <= ringBufPtr st' /\
              evOffset ev = v mod ringBufSize st /\
              evOffset ev + evSize ev < ringBufSize st.
Proof.
  induction 1 as [st | st size alignment offset st1 evs st2 Hcall Hrun IH];
    intros Hinv Hevs.
  - split; [exact Hinv |]. split; [reflexivity |]. split; [reflexivity |].
    split; [lia |].
    intros ev Hin. apply elem_of_nil in Hin. destruct Hin.
  - apply Forall_cons in Hevs as [(Hsame & Hsize & Hbound) Hevs]. cbn in Hsame, Hsize, Hbound.
    destruct (ringBufferAllocate_virtual _ _ _ _ _ Hcall Hsame Hsize Hinv Hbound)
      as (Hinv1 & Hsync1 & v & Hv & Hptr1 & Hoff & Hend).
    rewrite <- Hsame, <- Hsync1 in Hevs.
    destruct (IH Hinv1 Hevs) as (Hinv2 & Hcap2 & Hsync2 & Hmono & Hblocks).
    rewrite Hsame in Hcap2, Hblocks. rewrite Hsync1 in Hsync2.
    unfold isU32 in Hsize.
    split; [exact Hinv2 |]. split; [exact Hcap2 |]. split; [exact Hsync2 |].
    split; [lia |].
    intros ev [-> | Hin]%elem_of_cons.
    + exists v. cbn. repeat split; lia.
    + destruct (Hblocks ev Hin) as (v' & Hv' & Hend' & Hoff' & Hfit').
      exists v'. repeat split; lia.
Qed.

(** X1.  In a run of the allocator that starts with the cursor at or
    after the synchronisation mark and less than one capacity ahead of it,
    in which no call replaces the buffer and no sum leaves the 32 bits,
    the blocks returned by two different calls have no byte in common. *)
Theorem ring_blocks_disjoint st evs st' i j e1 e2 x :
  run st evs st' -> notLapped st ->
  Forall (fun ev => evCapacityAfter ev = evCapacityBefore ev /\ isU32 (evSize ev) /\
                    lastSyncedRingBufPtr st + 3 * ringBufSize st + evAlignment ev <= 2 ^ 32)
         evs ->
  (i < j)%nat -> evs !! i = Some e1 -> evs !! j = Some e2 ->
  inBlock e1 x -> ~ inBlock e2 x.
Proof.
  intros Hrun. revert i j.
  induction Hrun as [st | st size alignment offset st1 evs st2 Hcall Hrun IH];
    intros i j Hinv Hevs Hij Hi Hj [Hx1 Hx1'] [Hx2 Hx2'].
  - discriminate Hi.
  - apply Forall_cons in Hevs as [(Hsame & Hsize & Hbound) Hevs]. cbn in Hsame, Hsize, Hbound.
    destruct (ringBufferAllocate_virtual _ _ _ _ _ Hcall Hsame Hsize Hinv Hbound)
      as (Hinv1 & Hsync1 & v1 & Hv1 & Hptr1 & Hoff1 & Hend1).
    rewrite <- Hsame, <- Hsync1 in Hevs.
    destruct j as [| j]; [lia |]. cbn in Hj.
    destruct i as [| i]; cbn in Hi.
    + injection Hi as <-. cbn in Hx1, Hx1'.
      destruct (run_in_place _ _ _ Hrun Hinv1 Hevs) as ((HL2 & Hlap2) & Hcap2 & Hsync2 & _ & Hblocks).
      destruct (Hblocks e2 (list_elem_of_lookup_2 _ _ _ Hj)) as (v2 & Hv2 & Hend2 & Hoff2 & _).
      rewrite Hsame in Hoff2, Hcap2. rewrite Hsync1 in Hsync2. rewrite Hcap2, Hsync2 in Hlap2.
      destruct Hinv as [HL _].
      set (cap := ringBufSize st) in *.
      assert (Hcap : 0 < cap) by lia.
      pose proof (Z.div_mod v1 cap ltac:(lia)) as E1.
      pose proof (Z.div_mod v2 cap ltac:(lia)) as E2.
      rewrite <- Hoff1 in E1. rewrite <- Hoff2 in E2.
      assert (Hq : v2 / cap = v1 / cap \/ v2 / cap <= v1 / cap - 1 \/ v1 / cap + 1 <= v2 / cap)
        by lia.
      destruct Hq as [Hq | [Hq | Hq]]; [rewrite Hq in E2; lia | nia | nia].
    + apply (IH i j); try assumption; [lia | split; assumption | split; assumption].
Qed.

(** A buffer of 1024 bytes with the cursor and the synchronisation mark at
    1000: a block of 100 bytes does not fit before the end and is placed
    at offset 0, the next block, of 200 bytes, at offset 256. *)
Lemma ring_blocks_disjoint_witness :
  ~ inBlock (mkEvent 200 256 1024 256 1024) 50.
Proof.
  apply (ring_blocks_disjoint (mkState 1024 1000 1000)
           [mkEvent 100 4 1024 0 1024; mkEvent 200 256 1024 256 1024]
           (mkState 1024 1480 1000) 0 1 (mkEvent 100 4 1024 0 1024)).
  - apply (run_cons (mkState 1024 1000 1000) 100 4 0 (mkState 1024 1124 1000));
      [reflexivity |].
    apply (run_cons (mkState 1024 1124 1000) 200 256 256 (mkState 1024 1480 1000));
      [reflexivity |].
    apply run_nil.
  - unfold notLapped. cbn. lia.
  - repeat constructor; cbn; unfold isU32; lia.
  - lia.
  - reflexivity.
  - reflexivity.
  - unfold inBlock. cbn. lia.
Defined.

(** The third [if] in full. *)
Lemma outOfSpace_cases st size beginPtr offset st' :
  outOfSpace st size beginPtr = Ok (offset, st') ->
  (offset = beginPtr /\ st' = st) \/
  (offset = 0 /\ ringBufSize st' = u32 (ringBufSize st * 2) /\ size < ringBufSize st').
Proof.
  unfold outOfSpace.
  destruct (u32 (lastSyncedRingBufPtr st + ringBufSize st) <=? ringBufPtr st).
  - intros H. ok_bind H u1 Hnew. ok_bind H u2 Hzero. injection H as <- <-. cbn.
    right. split; [reflexivity |]. split; [reflexivity |]. apply Z.ltb_lt. exact Hnew.
  - intros [= <- <-]. left. split; reflexivity.
Qed.

(** X2.  A call that returns never leaves a smaller buffer behind, as
    long as the buffer has at most [2^31] bytes. *)
Theorem ring_capacity_never_shrinks st size alignment offset st' :
  ringBufferAllocate st size alignment = Ok (offset, st') ->
  isU32 size -> 0 <= ringBufSize st <= 2 ^ 31 ->
  ringBufSize st <= ringBufSize st'.
Proof.
  intros H Hsize Hrange. unfold ringBufferAllocate in H.
  ok_bind H u1 Hnz. ok_bind H u2 Hpow. ok_bind H st1 Hgrow. ok_bind H u3 Hle.
  ok_bind H b Hmod. ok_bind H w Hwrap. destruct w as [[st2 alignedPtr2] beginPtr2].
  apply umod_Ok in Hmod as [Hne _].
  apply wrapAround_cases in Hwrap as (Hcap2 & _ & _).
  apply outOfSpace_cases in H. cbn in H.
  pose proof Hsize as [Hs0 _].
  destruct (growFor_Ok _ _ _ Hgrow Hsize ltac:(lia)) as [[_ ->] | (Hlt & _ & Hnew)].
  - destruct H as [[_ ->] | (_ & -> & Hdouble)]; cbn; [lia |].
    rewrite Hcap2 in *. unfold u32 in *.
    destruct (Z_lt_le_dec (ringBufSize st * 2) (2 ^ 32)).
    + rewrite Z.mod_small by lia. lia.
    + replace (ringBufSize st * 2) with (2 ^ 32) in Hdouble by lia.
      rewrite Z.mod_same in Hdouble by lia. lia.
  - destruct Hnew as [(Hfit & _ & _) | Hzero]; [| congruence].
    destruct H as [[_ ->] | (_ & _ & Hdouble)]; cbn; lia.
Qed.

(** A request for 1500 bytes on a buffer of 1024 bytes leaves a buffer of
    2048 bytes. *)
Lemma ring_capacity_never_shrinks_witness :
  ringBufSize (mkState 1024 0 0) <= ringBufSize (mkState 2048 1500 0).
Proof.
  apply (ring_capacity_never_shrinks (mkState 1024 0 0) 1500 256 0 (mkState 2048 1500 0)).
  - reflexivity.
  - unfold isU32. lia.
  - cbn. lia.
Defined.

(** Above [2^31] bytes the doubling of the third [if] leaves the 32 bits:
    a buffer of [3 * 2^30] bytes whose cursor has lapped the
    synchronisation mark is replaced by one of [2^31] bytes. *)
Example ring_capacity_shrinks_above :
  ringBufferAllocate (mkState (3 * 2 ^ 30) (3 * 2 ^ 30) 0) 16 4
  = Ok (0, mkState (2 ^ 31) 16 0).
Proof. reflexivity. Qed.

(** X3.  Whenever the current allocator returns and leaves the buffer in
    place, the allocator over a buffer of fixed size returns the same offset
    from the same state and leaves the same cursor. *)
Theorem ringBufferAllocate_extends_fixed st size alignment offset st' :
  ringBufferAllocate st size alignment = Ok (offset, st') ->
  ringBufSize st' = ringBufSize st ->
  isU32 size -> 0 <= ringBufSize st <= 2 ^ 31 ->
  FixedRing.ringBufferAllocate st size alignment = Ok (offset, st').
Proof.
  intros H Hcap Hsize Hrange.
  by destruct (ringBufferAllocate_in_place _ _ _ _ _ H Hcap Hsize Hrange)
    as (_ & _ & _ & Hold & _).
Qed.

Lemma ringBufferAllocate_extends_fixed_witness :
  FixedRing.ringBufferAllocate (mkState 1024 1000 1000) 100 4
  = Ok (0, mkState 1024 1124 1000).
Proof.
  apply ringBufferAllocate_extends_fixed.
  - reflexivity.
  - reflexivity.
  - unfold isU32. lia.
  - cbn. lia.
Defined.

End RingInPlace.

(** ** The shader cache: records that are not taken *)

Section CacheRecords.

Import Cache.

(** X4.  A record that [parse] does not give the current version carries
    nothing: its hash is 0 and it has no dependencies, whatever the text
    holds. *)
Theorem parse_rejected_is_empty cacheStr :
  version (parse cacheStr) <> shaderVersion ->
  hash (parse cacheStr) = 0 /\ dependencies (parse cacheStr) = [].
Proof.
  unfold parse.
  destruct (length (split "," cacheStr) <? 2)%nat; [by split |].
  cbn [version hash dependencies].
  destruct (Z.eqb_spec (u32 (atoi (nth 0 (split "," cacheStr) ""))) shaderVersion)
    as [Hv | Hv]; cbn [negb]; [| by split].
  destruct (stoull16 (nth 1 (split "," cacheStr) "")) as [h |]; [| by split].
  destruct (3 <=? length (split "," cacheStr))%nat; cbn [version]; congruence.
Qed.

Lemma parse_rejected_is_empty_witness :
  hash (parse "19,ff,smaa.h") = 0 /\ dependencies (parse "19,ff,smaa.h") = [].
Proof.
  apply parse_rejected_is_empty. vm_compute. discriminate.
Defined.

Lemma parse_without_comma cacheStr :
  occurs "," cacheStr = false -> parse cacheStr = mkCacheData 0 0 [].
Proof. intros H. unfold parse. rewrite (split_none _ _ H). reflexivity. Qed.

Variable spirvCacheDir : string.
Variable fileExists : string -> bool.
Variable readFile : string -> string.
Variable getFileTimestamp : string -> Z.

(** X5.  A cache record without a comma, such as an empty file or one cut
    off after the version, is a miss, whatever else is in the cache
    directory. *)
Theorem loadCachedSPV_record_without_comma name shaderName :
  occurs "," (readFile (spirvCacheDir +:+ shaderName +:+ ".cache")) = false ->
  loadCachedSPV spirvCacheDir fileExists readFile getFileTimestamp name shaderName = None.
Proof.
  intros H. unfold loadCachedSPV.
  destruct (fileExists _); [| reflexivity].
  rewrite (parse_without_comma _ H). reflexivity.
Qed.

Lemma dependenciesUpToDate_Forall cacheTime deps :
  dependenciesUpToDate getFileTimestamp cacheTime deps = true ->
  Forall (fun f => getFileTimestamp f <= cacheTime) deps.
Proof.
  induction deps as [| d deps IH]; [constructor |].
  simpl. destruct (Z.ltb_spec cacheTime (getFileTimestamp d)) as [| Hd]; [discriminate |].
  intros Hrest. constructor; [lia | exact (IH Hrest)].
Qed.

(** [loadCachedSPV] answers [true] in exactly one case: the cache
    record exists and carries the current version, the binary it names
    exists and is a whole number of words, and neither the source nor a
    dependency of the record is newer than the record.  What it loads are
    the words of that binary. *)
Lemma loadCachedSPV_hit_iff name shaderName spirv :
  let cacheName := spirvCacheDir +:+ shaderName +:+ ".cache" in
  let cacheData := parse (readFile cacheName) in
  let spvName := spirvCacheDir +:+ hex8 (hash cacheData) +:+ ".spv" in
  loadCachedSPV spirvCacheDir fileExists readFile getFileTimestamp name shaderName
  = Some spirv <->
  fileExists cacheName = true /\
  version cacheData = shaderVersion /\
  fileExists spvName = true /\
  getFileTimestamp name <= getFileTimestamp cacheName /\
  Forall (fun f => getFileTimestamp f <= getFileTimestamp cacheName)
         (dependencies cacheData) /\
  Z.of_nat (String.length (readFile spvName)) mod 4 = 0 /\
  spirv = wordsOf (readFile spvName).
Proof.
  intros cacheName cacheData spvName. split.
  - unfold loadCachedSPV. fold cacheName. fold cacheData. fold spvName.
    destruct (fileExists cacheName); [cbn [negb] | discriminate].
    destruct (Z.eqb_spec (version cacheData) shaderVersion) as [Hv | Hv];
      [cbn [negb] | discriminate].
    destruct (fileExists spvName); [cbn [negb] | discriminate].
    destruct (Z.ltb_spec (getFileTimestamp cacheName) (getFileTimestamp name));
      [discriminate |].
    destruct (dependenciesUpToDate _ _ _) eqn:Hdeps; [cbn [negb] | discriminate].
    destruct (Z.eqb_spec (Z.of_nat (String.length (readFile spvName)) mod 4) 0) as [Hsize | Hsize];
      [cbn [negb] | discriminate].
    intros [= <-]. repeat split; try assumption || reflexivity.
    apply dependenciesUpToDate_Forall. exact Hdeps.
  - intros (Hcache & Hv & Hspv & Hsrc & Hdeps & Hsize & ->).
    apply loadCachedSPV_hit; assumption.
Qed.

End CacheRecords.

Lemma loadCachedSPV_record_without_comma_witness :
  Cache.loadCachedSPV "cache/"
    (fun f => bool_decide (is_Some (lookupFile truncatedFiles f)))
    (fun f => from_option fst "" (lookupFile truncatedFiles f))
    (fun f => from_option snd 0 (lookupFile truncatedFiles f))
    "smaa.frag" "smaa.frag" = None.
Proof.
  apply loadCachedSPV_record_without_comma. vm_compute. reflexivity.
Defined.

(** ** The shader cache: what is written is what is read *)

Section CacheFiles.

Import Cache Compiler.

Lemma charCode_byteChar z : charCode (byteChar z) = z mod 2 ^ 8.
Proof.
  unfold charCode, byteChar.
  assert (Hz : 0 <= z mod 2 ^ 8 < 2 ^ 8) by (apply Z.mod_pos_bound; lia).
  rewrite N_ascii_embedding by lia. lia.
Qed.

Lemma word_of_bytes w :
  0 <= w < 2 ^ 32 ->
  w mod 2 ^ 8 + 2 ^ 8 * ((w / 2 ^ 8) mod 2 ^ 8) + 2 ^ 16 * ((w / 2 ^ 16) mod 2 ^ 8)
    + 2 ^ 24 * ((w / 2 ^ 24) mod 2 ^ 8) = w.
Proof.
  intros Hw.
  change (2 ^ 8) with 256. change (2 ^ 16) with 65536. change (2 ^ 24) with 16777216.
  change (2 ^ 32) with 4294967296 in Hw.
  Z.div_mod_to_equations. lia.
Qed.

Lemma bytesOf_words words : Forall isU32 words -> wordsOf (bytesOf words) = words.
Proof.
  induction 1 as [| w words Hw _ IH]; [reflexivity |].
  cbn [bytesOf wordsOf]. rewrite !charCode_byteChar, IH.
  f_equal. apply word_of_bytes. exact Hw.
Qed.

Lemma bytesOf_length words : String.length (bytesOf words) = (4 * length words)%nat.
Proof.
  induction words as [| w words IH]; [reflexivity |].
  cbn [bytesOf String.length length]. rewrite IH. lia.
Qed.

(** X6.  The words of a binary are read back from the bytes written for
    them, and these bytes are a whole number of words. *)
Theorem wordsOf_bytesOf words :
  Forall isU32 words ->
  wordsOf (bytesOf words) = words /\
  Z.of_nat (String.length (bytesOf words)) mod 4 = 0.
Proof.
  intros Hwords. split; [exact (bytesOf_words _ Hwords) |].
  rewrite bytesOf_length, Nat2Z.inj_mul, Z.mul_comm. apply Z.mod_mul. lia.
Qed.

Lemma wordsOf_bytesOf_witness :
  wordsOf (bytesOf [119734787; 65536]) = [119734787; 65536] /\
  Z.of_nat (String.length (bytesOf [119734787; 65536])) mod 4 = 0.
Proof.
  apply wordsOf_bytesOf. repeat constructor; unfold isU32; lia.
Defined.

(** *** The record and the binary that [compileSpirv] writes *)

Lemma parse_written h deps :
  0 <= h < 2 ^ 64 ->
  version (parse (serialize (mkCacheData shaderVersion h deps))) = shaderVersion /\
  hash (parse (serialize (mkCacheData shaderVersion h deps))) = h /\
  (Forall (fun f => occurs "," f = false) deps ->
   dependencies (parse (serialize (mkCacheData shaderVersion h deps))) = deps).
Proof.
  intros Hh. rewrite serialize_fields. cbn [version hash dependencies].
  unfold parse.
  change (showDec shaderVersion +:+ "," +:+ showHex h +:+ dependencyFields deps)
    with ("20" +:+ String "," (showHex h +:+ dependencyFields deps)).
  rewrite split_first by reflexivity.
  assert (Hsplit : exists rest,
             split "," (showHex h +:+ dependencyFields deps) = showHex h :: rest /\
             (Forall (fun f => occurs "," f = false) deps -> rest = deps)).
  { destruct deps as [| f deps].
    - exists []. split; [| reflexivity].
      cbn [dependencyFields]. rewrite string_app_empty_r.
      apply split_none, showHex_no_comma.
    - exists (split "," (f +:+ dependencyFields deps)). split.
      + cbn [dependencyFields]. rewrite string_app_cons, string_app_empty_l.
        apply split_first, showHex_no_comma.
      + intros [Hf Hdeps]%Forall_cons. by apply split_fields. }
  destruct Hsplit as (rest & -> & Hrest).
  cbn [length Nat.ltb Nat.leb nth version hash dependencies].
  change (u32 (atoi "20")) with shaderVersion.
  rewrite Z.eqb_refl. cbn [negb].
  rewrite stoull16_showHex by exact Hh.
  destruct rest as [| f rest]; cbn [length Nat.leb version hash dependencies drop app].
  - split; [reflexivity |]. split; [reflexivity |]. exact Hrest.
  - split; [reflexivity |]. split; [reflexivity |]. exact Hrest.
Qed.

Lemma string_app_nonempty (s t : string) : t <> "" -> s +:+ t <> "".
Proof. destruct s; [by rewrite string_app_empty_l | by rewrite string_app_cons]. Qed.

Lemma lastChar_app (s t : string) : t <> "" -> lastChar (s +:+ t) = lastChar t.
Proof.
  intros Ht. induction s as [| c s IH]; [reflexivity |].
  rewrite string_app_cons. pose proof (string_app_nonempty s t Ht) as Hne.
  cbn [lastChar]. destruct (s +:+ t); [congruence | exact IH].
Qed.

(** The record and the binary have different names. *)
Lemma cacheName_neq_spvName (dir shaderName buffer : string) :
  dir +:+ shaderName +:+ ".cache" <> dir +:+ buffer +:+ ".spv".
Proof.
  intros E. apply (f_equal lastChar) in E.
  rewrite (lastChar_app dir (shaderName +:+ ".cache")) in E
    by (apply string_app_nonempty; discriminate).
  rewrite (lastChar_app dir (buffer +:+ ".spv")) in E
    by (apply string_app_nonempty; discriminate).
  rewrite (lastChar_app shaderName ".cache"), (lastChar_app buffer ".spv") in E
    by discriminate.
  discriminate E.
Qed.

Variable spirvCacheDir : string.
Variable XXH64 : list Z -> Z.
Hypothesis XXH64_range : forall words, 0 <= XXH64 words < 2 ^ 64.

(** What [storeCachedSPV] leaves on the disk. *)
Lemma storeCachedSPV_Ok d shaderName spirv cache d' :
  storeCachedSPV spirvCacheDir XXH64 d shaderName spirv cache = Ok d' ->
  let cacheName := spirvCacheDir +:+ shaderName +:+ ".cache" in
  let spvName := spirvCacheDir +:+ hex8 (XXH64 spirv) +:+ ".spv" in
  let deps := (map_to_list cache).*1 in
  spirv <> [] /\
  files d' = <[spvName := mkFile (bytesOf spirv) (clock d)]>
               (<[cacheName := mkFile (serialize (mkCacheData shaderVersion (XXH64 spirv) deps))
                                 (clock d)]> (files d)) /\
  clock d' = clock d.
Proof.
  unfold storeCachedSPV. cbn [version hash dependencies app].
  destruct spirv as [| w spirv]; [discriminate |].
  intros [= <-]. cbn. split; [discriminate |]. split; reflexivity.
Qed.

Lemma getFileTimestamp_written d shaderName spirv cache d' f :
  storeCachedSPV spirvCacheDir XXH64 d shaderName spirv cache = Ok d' ->
  getFileTimestamp d' (spirvCacheDir +:+ shaderName +:+ ".cache") = clock d /\
  (getFileTimestamp d f <= clock d -> getFileTimestamp d' f <= clock d).
Proof.
  intros (_ & Hfiles & _)%storeCachedSPV_Ok. unfold getFileTimestamp. rewrite Hfiles.
  split.
  - rewrite lookup_insert_ne by (symmetry; apply cacheName_neq_spvName).
    rewrite lookup_insert_eq. reflexivity.
  - intros Hf.
    destruct (decide (f = spirvCacheDir +:+ hex8 (XXH64 spirv) +:+ ".spv")) as [-> | Hspv];
      [rewrite lookup_insert_eq; reflexivity |].
    rewrite lookup_insert_ne by congruence.
    destruct (decide (f = spirvCacheDir +:+ shaderName +:+ ".cache")) as [-> | Hcache];
      [rewrite lookup_insert_eq; reflexivity |].
    rewrite lookup_insert_ne by congruence. exact Hf.
Qed.

(** After the record and the binary have been written, a lookup can miss
    only on the time stamps of the source and of the dependencies that
    the record lists. *)
Lemma storeCachedSPV_lookup d shaderName spirv cache d' name :
  storeCachedSPV spirvCacheDir XXH64 d shaderName spirv cache = Ok d' ->
  Forall isU32 spirv ->
  let cacheName := spirvCacheDir +:+ shaderName +:+ ".cache" in
  getFileTimestamp d' name <= getFileTimestamp d' cacheName ->
  Forall (fun f => getFileTimestamp d' f <= getFileTimestamp d' cacheName)
         (dependencies (parse (fileContents d' cacheName))) ->
  Compiler.loadCachedSPV spirvCacheDir d' name shaderName = Some spirv.
Proof.
  intros Hstore Hwords cacheName Hsource Hdeps.
  destruct (storeCachedSPV_Ok _ _ _ _ _ Hstore) as (_ & Hfiles & _).
  set (spvName := spirvCacheDir +:+ hex8 (XXH64 spirv) +:+ ".spv") in Hfiles.
  fold cacheName in Hfiles.
  set (record := mkCacheData shaderVersion (XXH64 spirv) (map_to_list cache).*1) in Hfiles.
  assert (Hne : spvName <> cacheName) by (symmetry; apply cacheName_neq_spvName).
  assert (Hcache : files d' !! cacheName = Some (mkFile (serialize record) (clock d))).
  { rewrite Hfiles, lookup_insert_ne by exact Hne. apply lookup_insert_eq. }
  assert (Hspv : files d' !! spvName = Some (mkFile (bytesOf spirv) (clock d))).
  { rewrite Hfiles. apply lookup_insert_eq. }
  assert (Htext : fileContents d' cacheName = serialize record).
  { unfold fileContents. rewrite Hcache. reflexivity. }
  destruct (parse_written (XXH64 spirv) (map_to_list cache).*1 (XXH64_range spirv))
    as (Hversion & Hhash & _).
  fold record in Hversion, Hhash.
  unfold Compiler.loadCachedSPV.
  rewrite (loadCachedSPV_hit spirvCacheDir (fileExists d') (fileContents d')
             (getFileTimestamp d') name shaderName).
  - fold cacheName. rewrite Htext, Hhash. fold spvName.
    unfold fileContents. rewrite Hspv. cbn [from_option contents].
    rewrite bytesOf_words by exact Hwords. reflexivity.
  - fold cacheName. unfold fileExists. rewrite Hcache. apply bool_decide_eq_true. eauto.
  - fold cacheName. rewrite Htext. exact Hversion.
  - fold cacheName. rewrite Htext, Hhash. fold spvName.
    unfold fileExists. rewrite Hspv. apply bool_decide_eq_true. eauto.
  - exact Hsource.
  - exact Hdeps.
  - fold cacheName. rewrite Htext, Hhash. fold spvName.
    unfold fileContents. rewrite Hspv. cbn [from_option contents].
    rewrite bytesOf_length, Nat2Z.inj_mul, Z.mul_comm. apply Z.mod_mul. lia.
Qed.

(** X7.  When [compileSpirv] has written the record and the binary of a
    shader variant, the lookup of that variant finds the binary and loads
    the words that were written, provided that neither the source nor a
    file that the compiler has included carries a time later than the
    time of writing, and that no included file has a comma in its
    name. *)
Theorem storeCachedSPV_then_load d shaderName spirv cache d' name :
  storeCachedSPV spirvCacheDir XXH64 d shaderName spirv cache = Ok d' ->
  Forall isU32 spirv ->
  fileExists d name = true -> getFileTimestamp d name <= clock d ->
  (forall f, is_Some (cache !! f) ->
             occurs "," f = false /\ fileExists d f = true /\
             getFileTimestamp d f <= clock d) ->
  Compiler.loadCachedSPV spirvCacheDir d' name shaderName = Some spirv.
Proof.
  intros Hstore Hwords _ Hsource Hcache.
  apply (storeCachedSPV_lookup d shaderName spirv cache); try assumption.
  - destruct (getFileTimestamp_written _ _ _ _ _ name Hstore) as [-> Hle]. by apply Hle.
  - destruct (storeCachedSPV_Ok _ _ _ _ _ Hstore) as (_ & Hfiles & _).
    assert (Htext : fileContents d' (spirvCacheDir +:+ shaderName +:+ ".cache")
                    = serialize (mkCacheData shaderVersion (XXH64 spirv) (map_to_list cache).*1)).
    { unfold fileContents.
      rewrite Hfiles, lookup_insert_ne by (symmetry; apply cacheName_neq_spvName).
      rewrite lookup_insert_eq. reflexivity. }
    assert (Hkeys : Forall (fun f => is_Some (cache !! f)) (map_to_list cache).*1).
    { apply Forall_forall. intros f ([f' c] & -> & Hin)%list_elem_of_fmap.
      apply elem_of_map_to_list in Hin. eauto. }
    destruct (parse_written (XXH64 spirv) (map_to_list cache).*1 (XXH64_range spirv))
      as (_ & _ & Hdeps).
    rewrite Htext, Hdeps.
    + eapply Forall_impl; [exact Hkeys |]. intros f Hf. cbn beta.
      destruct (getFileTimestamp_written _ _ _ _ _ f Hstore) as [-> Hle].
      apply Hle. by apply Hcache.
    + eapply Forall_impl; [exact Hkeys |]. intros f Hf. by apply Hcache.
Qed.

Variable optimizeShaders : bool.
Variable CompileGlslToSpv : string -> ShaderKind -> string -> gmap string string -> Compilation.
Variable optimizerRun : list Z -> option (list Z).
Variable remap : list Z -> list Z.

(** X8.  With the shader cache in use, a call of [compileSpirv] that has
    returned a binary is followed by calls that return the same binary
    from the cache, without reading the source or compiling, as long as
    [loadCachedSPV] finds neither the source nor a dependency of the
    record newer than the record. *)
Theorem compileSpirv_twice st name macros kind_ spirv st1 :
  compileSpirv spirvCacheDir false optimizeShaders CompileGlslToSpv optimizerRun remap XXH64
    st name macros kind_ = Ok (spirv, st1) ->
  Forall isU32 spirv ->
  let cacheName := spirvCacheDir +:+ shaderName name macros +:+ ".cache" in
  getFileTimestamp (disk st1) name <= getFileTimestamp (disk st1) cacheName ->
  Forall (fun f => getFileTimestamp (disk st1) f <= getFileTimestamp (disk st1) cacheName)
         (dependencies (parse (fileContents (disk st1) cacheName))) ->
  compileSpirv spirvCacheDir false optimizeShaders CompileGlslToSpv optimizerRun remap XXH64
    st1 name macros kind_ = Ok (spirv, st1).
Proof.
  intros H Hwords cacheName Hsource Hdeps.
  assert (Hhit : Compiler.loadCachedSPV spirvCacheDir (disk st1) name (shaderName name macros)
                 = Some spirv).
  { unfold compileSpirv in H. cbn [negb] in H.
    destruct (Compiler.loadCachedSPV spirvCacheDir (disk st) name (shaderName name macros))
      as [words |] eqn:Hfirst.
    - injection H as <- <-. exact Hfirst.
    - ok_bind H r Hload. destruct r as [src st2].
      destruct src as [| c src]; [discriminate |].
      ok_bind H r Hrun. destruct r as [status cache].
      destruct status as [words |]; [| discriminate].
      ok_bind H optimized Hopt. ok_bind H d Hstore. injection H as <- <-.
      cbn [disk] in *.
      by apply (storeCachedSPV_lookup (disk st2) _ _ cache). }
  unfold compileSpirv. cbn [negb]. rewrite Hhit. reflexivity.
Qed.

(** X9.  A source that [loadSource] has returned once is answered from
    memory from then on: the file is not read again, whatever has become
    of it. *)
Theorem loadSource_cached st name source st1 d :
  loadSource st name = Ok (source, st1) ->
  loadSource (mkState (shaderSources st1) d) name
  = Ok (source, mkState (shaderSources st1) d).
Proof.
  unfold loadSource. intros H.
  destruct (shaderSources st !! name) as [cached |] eqn:Hcached.
  - injection H as <- <-. cbn [shaderSources]. rewrite Hcached. reflexivity.
  - ok_bind H text Hread. injection H as <- <-. cbn [shaderSources].
    rewrite lookup_insert_eq. reflexivity.
Qed.

End CacheFiles.

Lemma demoHash_range words : 0 <= demoHash words < 2 ^ 64.
Proof. unfold demoHash. apply Z.mod_pos_bound. lia. Qed.

(** The binary of [smaa.frag] and its record, written at time 5 to
    [demoDisk]. *)
Lemma storeCachedSPV_then_load_witness :
  exists d',
    Compiler.storeCachedSPV "cache/" demoHash demoDisk "smaa.frag" [119734787; 65536]
      {[ "smaa.h"%string := "#define SMAA"%string ]} = Ok d' /\
    Compiler.loadCachedSPV "cache/" d' "smaa.frag" "smaa.frag" = Some [119734787; 65536].
Proof.
  eexists. split; [reflexivity |].
  apply (storeCachedSPV_then_load "cache/" demoHash demoHash_range demoDisk "smaa.frag"
           [119734787; 65536] {[ "smaa.h"%string := "#define SMAA"%string ]}).
  - reflexivity.
  - repeat constructor; unfold isU32; lia.
  - vm_compute. reflexivity.
  - vm_compute. discriminate.
  - intros f [c Hf]. apply lookup_singleton_Some in Hf as [<- _].
    split; [reflexivity |]. split; vm_compute; [reflexivity | discriminate].
Defined.

(** [smaa.frag] compiled on [demoDisk], and once more. *)
Lemma compileSpirv_twice_witness :
  exists st1,
    Compiler.compileSpirv "cache/" false false demoCompile (fun _ => None) (fun w => w) demoHash
      (Compiler.mkState ∅ demoDisk) "smaa.frag" ∅ Compiler.Fragment
    = Ok ([119734787; 65536], st1) /\
    Compiler.compileSpirv "cache/" false false demoCompile (fun _ => None) (fun w => w) demoHash
      st1 "smaa.frag" ∅ Compiler.Fragment
    = Ok ([119734787; 65536], st1).
Proof.
  eexists. split; [vm_compute; reflexivity |].
  apply (compileSpirv_twice "cache/" demoHash demoHash_range false demoCompile
           (fun _ => None) (fun w => w) (Compiler.mkState ∅ demoDisk)).
  - vm_compute. reflexivity.
  - repeat constructor; unfold isU32; lia.
  - vm_compute. discriminate.
  - vm_compute. repeat constructor; discriminate.
Defined.

(** [smaa.frag] loaded from [demoDisk], and once more from an empty
    disk. *)
Lemma loadSource_cached_witness :
  Compiler.loadSource
    (Compiler.mkState {[ "smaa.frag"%string := "void main() {}"%string ]}
       (Compiler.mkDisk ∅ 9))
    "smaa.frag"
  = Ok ("void main() {}"%string,
        Compiler.mkState {[ "smaa.frag"%string := "void main() {}"%string ]}
          (Compiler.mkDisk ∅ 9)).
Proof.
  refine (loadSource_cached (Compiler.mkState ∅ demoDisk) "smaa.frag" "void main() {}"
            (Compiler.mkState {[ "smaa.frag"%string := "void main() {}"%string ]} demoDisk)
            (Compiler.mkDisk ∅ 9) _).
  vm_compute. reflexivity.
Defined.

(** ** The order of the calls *)

Section CallOrder.

Import GL.

(** What one call does to the four flags of the state machine. *)
Ltac flags :=
  repeat split; try assumption; try reflexivity;
  try (intros _; assumption); try discriminate.

Lemma call_flags st c h st' :
  call st c = Ok (h, st') ->
  match c with
  | BeginFrame =>
      inFrame st = false /\ inFrame st' = true /\ inRenderPass st' = false /\
      validPipeline st' = false
  | PresentFrame _ =>
      inFrame st = true /\ inFrame st' = false /\ inRenderPass st' = inRenderPass st /\
      validPipeline st' = validPipeline st
  | BeginRenderPass _ _ =>
      inFrame st = true /\ inRenderPass st = false /\
      inFrame st' = true /\ inRenderPass st' = true /\ validPipeline st' = false
  | EndRenderPass =>
      inFrame st = true /\ inRenderPass st = true /\
      inFrame st' = true /\ inRenderPass st' = false /\
      validPipeline st' = validPipeline st
  | BindPipeline _ =>
      inFrame st = true /\ inRenderPass st = true /\
      inFrame st' = true /\ inRenderPass st' = true /\ validPipeline st' = true
  | _ =>
      inFrame st' = inFrame st /\ inRenderPass st' = inRenderPass st /\
      validPipeline st' = validPipeline st /\
      (needsPipeline c = true -> validPipeline st = true)
  end.
Proof.
  intros H. destruct c; simpl in H; ok_bind H r Hcall.
  - destruct r as [handle st1]. injection H as <- <-.
    unfold createBuffer in Hcall. ok_bind Hcall u1 Hsize.
    destruct (ResourceContainer.add _ _) as [handle' buffers'].
    unfold glCreate in Hcall. injection Hcall as <- <-.
    flags.
  - destruct r as [handle st1]. injection H as <- <-.
    unfold createEphemeralBuffer in Hcall.
    ok_bind Hcall u1 Hsize. ok_bind Hcall u2 Hcontents. ok_bind Hcall a Halloc.
    destruct a as [beginPtr ring']. cbn [buffers set_ring] in Hcall.
    destruct (ResourceContainer.add _ _) as [handle' buffers'].
    injection Hcall as <- <-. flags.
  - injection H as <- <-. unfold deleteBuffer in Hcall. ok_bind Hcall b Hremove.
    injection Hcall as <-. flags.
  - injection H as <- <-. unfold beginFrame in Hcall. ok_bind Hcall u1 Hframe.
    injection Hcall as <-. apply negb_true_iff in Hframe. flags.
  - injection H as <- <-. unfold presentFrame in Hcall.
    ok_bind Hcall u1 Hframe. ok_bind Hcall rt Hrt. ok_bind Hcall u2 Hlayout.
    ok_bind Hcall u3 Hw. ok_bind Hcall u4 Hh. ok_bind Hcall u5 Hw0. ok_bind Hcall u6 Hh0.
    ok_bind Hcall st1 Hfbo. ok_bind Hcall buffers' Hrelease. injection Hcall as <-.
    assert (Hsame : inFrame st1 = false /\ inRenderPass st1 = inRenderPass st /\
                    validPipeline st1 = validPipeline st).
    { destruct (RenderTarget.readFBO rt =? 0).
      - unfold glCreate in Hfbo. cbn in Hfbo.
        ok_bind Hfbo tex Htex. ok_bind Hfbo u7 Hrtex. ok_bind Hfbo u8 Hname.
        injection Hfbo as <-. flags.
      - injection Hfbo as <-. flags. }
    destruct Hsame as (Hf & Hp & Hv). flags.
  - injection H as <- <-. unfold beginRenderPass in Hcall.
    ok_bind Hcall u1 Hframe. ok_bind Hcall u2 Hpass. ok_bind Hcall u3 Hfb.
    ok_bind Hcall fb Hget. ok_bind Hcall u4 Hfbo. ok_bind Hcall u5 Hrp.
    ok_bind Hcall u6 Hfbo'. ok_bind Hcall u7 Hw. ok_bind Hcall u8 Hh.
    injection Hcall as <-. apply negb_true_iff in Hpass.
    flags.
  - injection H as <- <-. unfold endRenderPass in Hcall.
    ok_bind Hcall u1 Hframe. ok_bind Hcall u2 Hpass. ok_bind Hcall pass Hget.
    ok_bind Hcall fb Hfb. ok_bind Hcall rt Hrt. injection Hcall as <-.
    flags.
  - injection H as <- <-. unfold bindPipeline in Hcall.
    ok_bind Hcall u1 Hframe. ok_bind Hcall u2 Hvalid. ok_bind Hcall u3 Hpass.
    ok_bind Hcall u4 Hdrawn. ok_bind Hcall p Hget. ok_bind Hcall u5 Hrp.
    injection Hcall as <-. flags.
  - injection H as <- <-. unfold setScissorRect in Hcall.
    ok_bind Hcall u1 Hvalid. ok_bind Hcall u2 Hscissor. injection Hcall as <-.
    flags.
  - injection H as <- <-. unfold setViewport in Hcall. ok_bind Hcall u1 Hframe.
    injection Hcall as <-. flags.
  - injection H as <- <-. unfold bindIndexBuffer in Hcall.
    ok_bind Hcall u1 Hframe. ok_bind Hcall u2 Hvalid. ok_bind Hcall b Hget.
    ok_bind Hcall u3 Hguards. injection Hcall as <-.
    flags.
  - injection H as <- <-. unfold bindVertexBuffer in Hcall.
    ok_bind Hcall u1 Hframe. ok_bind Hcall u2 Hvalid. ok_bind Hcall b Hget.
    ok_bind Hcall u3 Hguards.
    destruct (PipelineDesc.vertexBuffers _ !! _); [| discriminate Hcall].
    injection Hcall as <-.
    flags.
  - injection H as <- <-. unfold draw in Hcall.
    ok_bind Hcall u1 Hpass. ok_bind Hcall u2 Hvalid. ok_bind Hcall u3 Hcount.
    ok_bind Hcall u4 Hguards. injection Hcall as <-.
    flags.
  - injection H as <- <-. unfold drawIndexedInstanced in Hcall.
    ok_bind Hcall u1 Hpass. ok_bind Hcall u2 Hvalid. ok_bind Hcall u3 Hinst.
    ok_bind Hcall u4 Hcount. ok_bind Hcall u5 Hguards. injection Hcall as <-.
    flags.
  - injection H as <- <-. unfold drawIndexedOffset in Hcall.
    ok_bind Hcall u1 Hpass. ok_bind Hcall u2 Hvalid. ok_bind Hcall u3 Hcount.
    ok_bind Hcall u4 Hguards. injection Hcall as <-.
    flags.
Qed.

(** X10.  In every sequence of calls that goes through, [beginFrame] and
    [presentFrame] take turns: no frame is begun inside a frame, and none
    is presented outside one. *)
Theorem calls_frames_alternate st cs trace st' :
  calls st cs = Ok (trace, st') -> framesAlternate (inFrame st) cs = true.
Proof.
  revert st trace. induction cs as [| c cs IH]; intros st trace H; [reflexivity |].
  apply calls_cons in H as (h & st1 & trace1 & Hcall & Hrest & _).
  apply IH in Hrest. apply call_flags in Hcall.
  destruct c; cbn [framesAlternate];
    try (destruct Hcall as (Hframe & _); rewrite <- Hframe; exact Hrest).
  - destruct Hcall as (-> & Hframe & _). rewrite Hframe in Hrest. exact Hrest.
  - destruct Hcall as (-> & Hframe & _). rewrite Hframe in Hrest. exact Hrest.
  - destruct Hcall as (Hframe & _ & Hframe' & _). rewrite Hframe' in Hrest.
    rewrite Hframe. exact Hrest.
  - destruct Hcall as (Hframe & _ & Hframe' & _). rewrite Hframe' in Hrest.
    rewrite Hframe. exact Hrest.
  - destruct Hcall as (Hframe & _ & Hframe' & _). rewrite Hframe' in Hrest.
    rewrite Hframe. exact Hrest.
Qed.

Lemma calls_frames_alternate_witness :
  framesAlternate (inFrame demoRenderer) secondFrameCalls = true.
Proof.
  eapply (calls_frames_alternate demoRenderer secondFrameCalls).
  vm_compute. reflexivity.
Defined.

Lemma calls_app st cs1 cs2 trace st' :
  calls st (cs1 ++ cs2) = Ok (trace, st') ->
  exists trace1 st1 trace2,
    calls st cs1 = Ok (trace1, st1) /\ calls st1 cs2 = Ok (trace2, st').
Proof.
  revert st trace. induction cs1 as [| c cs1 IH]; intros st trace H.
  - exists [], st, trace. split; [reflexivity | exact H].
  - rewrite <- app_comm_cons in H.
    apply calls_cons in H as (h & st1 & trace1 & Hcall & Hrest & _).
    destruct (IH _ _ Hrest) as (t1 & st2 & t2 & H1 & H2).
    exists ((c, h) :: t1), st2, t2. split; [| exact H2].
    cbn [calls]. rewrite Hcall, bind_Ok_l. cbn. rewrite H1. reflexivity.
Qed.

(** Where a bound pipeline comes from: it was bound at the start and no
    call has taken it away, or some [bindPipeline] of the sequence has
    bound it and no later call has taken it away. *)
Lemma calls_validPipeline st cs trace st' :
  calls st cs = Ok (trace, st') -> validPipeline st' = true ->
  (validPipeline st = true /\ Forall (fun c => unbindsPipeline c = false) cs) \/
  exists cs1 pipeline cs2,
    cs = cs1 ++ BindPipeline pipeline :: cs2 /\
    Forall (fun c => unbindsPipeline c = false) cs2.
Proof.
  revert st trace. induction cs as [| c cs IH]; intros st trace H Hvalid.
  - injection H as _ <-. left. split; [exact Hvalid | constructor].
  - apply calls_cons in H as (h & st1 & trace1 & Hcall & Hrest & _).
    destruct (IH _ _ Hrest Hvalid) as [[Hvalid1 Hkeep] | (cs1 & pipeline & cs2 & -> & Hkeep)].
    + apply call_flags in Hcall.
      destruct c;
        try (left; destruct Hcall as (_ & _ & Hsame & _); rewrite <- Hsame;
             split; [exact Hvalid1 | by constructor]).
      * destruct Hcall as (_ & _ & _ & Hv). congruence.
      * left. destruct Hcall as (_ & _ & _ & Hsame). rewrite <- Hsame.
        split; [exact Hvalid1 | by constructor].
      * destruct Hcall as (_ & _ & _ & _ & Hv). congruence.
      * left. destruct Hcall as (_ & _ & _ & _ & Hsame). rewrite <- Hsame.
        split; [exact Hvalid1 | by constructor].
      * right. exists [], pipeline, cs. split; [reflexivity | exact Hkeep].
    + right. exists (c :: cs1), pipeline, cs2. split; [reflexivity | exact Hkeep].
Qed.

(** X11.  In a sequence of calls that goes through and starts without a
    bound pipeline, every draw call, and every [setScissorRect],
    [bindIndexBuffer] and [bindVertexBuffer], comes after a
    [bindPipeline], with neither [beginFrame] nor [beginRenderPass] in
    between. *)
Theorem calls_need_bindPipeline st cs1 c cs2 trace st' :
  calls st (cs1 ++ c :: cs2) = Ok (trace, st') ->
  validPipeline st = false ->
  needsPipeline c = true ->
  exists cs0 pipeline cs,
    cs1 = cs0 ++ BindPipeline pipeline :: cs /\
    Forall (fun c => unbindsPipeline c = false) cs.
Proof.
  intros H Hstart Hc.
  apply calls_app in H as (trace1 & st1 & trace2 & H1 & H2).
  apply calls_cons in H2 as (h & st2 & trace3 & Hcall & _ & _).
  assert (Hvalid : validPipeline st1 = true).
  { apply call_flags in Hcall.
    destruct c; try discriminate Hc; by destruct Hcall as (_ & _ & _ & Hv); apply Hv. }
  destruct (calls_validPipeline _ _ _ _ H1 Hvalid) as [[Hv _] | Hbound];
    [congruence | exact Hbound].
Qed.

(** The draw call of the first frame of [secondFrameCalls]. *)
Lemma calls_need_bindPipeline_witness :
  exists cs0 pipeline cs,
    [BeginFrame; BeginRenderPass 1%nat 1%nat; BindPipeline 1%nat]
    = cs0 ++ BindPipeline pipeline :: cs /\
    Forall (fun c => unbindsPipeline c = false) cs.
Proof.
  eapply (calls_need_bindPipeline demoRenderer
            [BeginFrame; BeginRenderPass 1%nat 1%nat; BindPipeline 1%nat] (Draw 0 3)
            [EndRenderPass; PresentFrame 1%nat; BeginFrame; BeginRenderPass 1%nat 1%nat]).
  - vm_compute. reflexivity.
  - reflexivity.
  - reflexivity.
Defined.

End CallOrder.

(** ** Pipelines, buffers and layouts *)

Section Resources.

Import GL.

(** X12.  A draw call that comes right after [bindPipeline] of a pipeline
    with scissor test fails its guards, whatever its arguments are; after
    [bindPipeline] of a pipeline without scissor test, [setScissorRect]
    fails its guard. *)
Theorem bindPipeline_scissor st pipeline p st1 :
  bindPipeline st pipeline = Ok st1 ->
  pipelines st !! pipeline = Some p ->
  (PipelineDesc.scissorTest_ (Pipeline.desc p) = true ->
   forall c, isDraw c = true -> call st1 c = AssertFail) /\
  (PipelineDesc.scissorTest_ (Pipeline.desc p) = false ->
   forall x y width height, setScissorRect st1 x y width height = AssertFail).
Proof.
  intros H Hp. unfold bindPipeline in H.
  ok_bind H u1 Hframe. ok_bind H u2 Hvalid. ok_bind H u3 Hpass. ok_bind H u4 Hdrawn.
  ok_bind H p' Hget. cbn [pipelines set_scissorSet set_validPipeline set_pipelineDrawn] in Hget.
  apply get_Ok in Hget. rewrite Hp in Hget. injection Hget as <-.
  ok_bind H u5 Hrp. injection H as <-. split.
  - intros Hscissor c Hc.
    assert (Hguards : drawGuards (set_currentPipeline (Pipeline.desc p)
                        (set_scissorSet false (set_validPipeline true
                           (set_pipelineDrawn false st)))) = AssertFail).
    { unfold drawGuards. cbn. rewrite Hscissor. reflexivity. }
    destruct c; try discriminate Hc; cbn [call].
    + unfold draw. do 3 guard_case. rewrite Hguards. reflexivity.
    + unfold drawIndexedInstanced. do 4 guard_case. rewrite Hguards. reflexivity.
    + unfold drawIndexedOffset. do 3 guard_case. rewrite Hguards. reflexivity.
  - intros Hscissor x y width height. unfold setScissorRect.
    cbn. rewrite Hscissor. reflexivity.
Qed.

(** The pipeline of [demoRenderer], which has no scissor test. *)
Lemma bindPipeline_scissor_witness :
  setScissorRect
    (stateAfter [BeginFrame; BeginRenderPass 1%nat 1%nat; BindPipeline 1%nat])
    0 0 256 256 = AssertFail.
Proof.
  refine (proj2 (bindPipeline_scissor (stateAfter [BeginFrame; BeginRenderPass 1%nat 1%nat])
                   1%nat (Pipeline.mk demoPipelineDesc 6)
                   (stateAfter [BeginFrame; BeginRenderPass 1%nat 1%nat; BindPipeline 1%nat])
                   _ _) _ 0 0 256 256).
  - vm_compute. reflexivity.
  - vm_compute. reflexivity.
  - reflexivity.
Defined.

(** A block that the allocator returns ends before the end of the buffer
    that the call leaves. *)
Lemma ringBufferAllocate_inside st size alignment offset st' :
  Ring.ringBufferAllocate st size alignment = Ok (offset, st') ->
  isU32 size ->
  u32 (offset + size) < Ring.ringBufSize st'.
Proof.
  intros H Hsize. unfold Ring.ringBufferAllocate in H.
  ok_bind H u1 Hnz. ok_bind H u2 Hpow. ok_bind H st1 Hgrow. ok_bind H u3 Hle.
  ok_bind H b Hmod. ok_bind H w Hwrap. destruct w as [[st2 alignedPtr2] beginPtr2].
  apply wrapAround_cases in Hwrap as (Hcap2 & _ & Hwrap).
  apply outOfSpace_cases in H. cbn in H.
  destruct H as [[-> ->] | (-> & _ & Hdouble)]; cbn.
  - rewrite Hcap2. destruct Hwrap as [(Hfit & _ & _ & ->) | (_ & _ & _ & _ & _ & -> & Hfit)];
      exact Hfit.
  - rewrite Z.add_0_l, u32_small by exact Hsize. exact Hdouble.
Qed.

(** X13.  A buffer that [createEphemeralBuffer] has returned passes the
    guards of [bindVertexBuffer] and [bindIndexBuffer] on the buffer they
    bind.  Inside a frame and with a bound pipeline, [bindIndexBuffer]
    goes through, and [bindVertexBuffer] goes through for a binding that
    the bound pipeline has a vertex buffer for; for any other binding it
    reads [vertexBuffers] past its end. *)
Theorem createEphemeralBuffer_bindable st size contents handle st1 :
  createEphemeralBuffer st size contents = Ok (handle, st1) ->
  isU32 size -> inFrame st1 = true -> validPipeline st1 = true ->
  (forall binding,
     bindVertexBuffer st1 binding handle
     = match PipelineDesc.vertexBuffers (currentPipeline st1) !! Z.to_nat binding with
       | Some _ => Ok st1
       | None => Undefined
       end) /\
  (forall bit16, exists st2, bindIndexBuffer st1 handle bit16 = Ok st2).
Proof.
  intros H Hsize Hframe Hvalid.
  assert (Hbuffer : exists beginPtr,
             buffers st1 !! handle = Some (Buffer.mk (ringBuffer st1) true beginPtr size) /\
             u32 (beginPtr + size) < Ring.ringBufSize (ring st1) /\ 0 < size).
  { unfold createEphemeralBuffer in H.
    ok_bind H u1 Hnz. ok_bind H u2 Hcontents. ok_bind H a Halloc.
    destruct a as [beginPtr ring']. cbn [buffers set_ring ringBuffer ephemeralBuffers] in H.
    destruct (ResourceContainer.add _ _) as [handle' buffers'] eqn:Hadd.
    apply add_fresh in Hadd as (_ & _ & ->). injection H as <- <-. cbn.
    exists beginPtr. split; [apply lookup_insert_eq |].
    split; [exact (ringBufferAllocate_inside _ _ _ _ _ Halloc Hsize) |].
    apply negb_true_iff, Z.eqb_neq in Hnz. unfold isU32 in Hsize. lia. }
  destruct Hbuffer as (beginPtr & Hlookup & Hinside & Hpos).
  assert (Hguards : bufferGuards st1 (Buffer.mk (ringBuffer st1) true beginPtr size) = Ok tt).
  { unfold bufferGuards. cbn.
    rewrite (assert_true (0 <? size)) by (apply Z.ltb_lt; exact Hpos). rewrite bind_Ok_l.
    rewrite (assert_true (_ =? _)) by apply Z.eqb_refl. rewrite bind_Ok_l.
    apply assert_true, Z.ltb_lt. exact Hinside. }
  split.
  - intros binding. unfold bindVertexBuffer.
    rewrite Hframe, Hvalid. change (assert true) with (Ok tt : result unit).
    rewrite !bind_Ok_l, (get_lookup _ _ _ Hlookup), bind_Ok_l, Hguards, bind_Ok_l.
    by destruct (PipelineDesc.vertexBuffers _ !! _).
  - intros bit16. unfold bindIndexBuffer.
    rewrite Hframe, Hvalid. change (assert true) with (Ok tt : result unit).
    rewrite !bind_Ok_l, (get_lookup _ _ _ Hlookup), bind_Ok_l, Hguards. eauto.
Qed.

(** X14.  [deleteBuffer] on a buffer that [createBuffer] has just
    returned goes through and leaves the container of buffers as it was
    before the two calls; a second [deleteBuffer] on the same handle
    fails.  The driver is taken never to give out the name 0. *)
Theorem createBuffer_deleteBuffer st size contents handle st1 :
  createBuffer st size contents = Ok (handle, st1) ->
  glNames st <> 0 ->
  exists st2,
    deleteBuffer st1 handle = Ok st2 /\ buffers st2 = buffers st /\
    deleteBuffer st2 handle = AssertFail.
Proof.
  intros H Hname.
  assert (Hsize : size <> 0).
  { unfold createBuffer in H. ok_bind H u1 Hnz. by apply negb_true_iff, Z.eqb_neq in Hnz. }
  apply createBuffer_Ok in H as (Hfresh & Hbuffers & _).
  assert (Hdelete : deleteBuffer st1 handle
                    = Ok (set_buffers (delete handle (buffers st1)) st1)).
  { unfold deleteBuffer, ResourceContainer.removeWith.
    rewrite Hbuffers at 1. rewrite (get_lookup _ _ _ (lookup_insert_eq _ _ _)), bind_Ok_l.
    cbn.
    rewrite (assert_true (negb (glNames st =? 0))) by (by apply negb_true_iff, Z.eqb_neq).
    rewrite bind_Ok_l.
    rewrite (assert_true (negb (size =? 0))) by (by apply negb_true_iff, Z.eqb_neq).
    reflexivity. }
  assert (Hback : delete handle (buffers st1) = buffers st).
  { rewrite Hbuffers, delete_insert_eq. apply delete_id. exact Hfresh. }
  eexists. split; [exact Hdelete |]. split; [exact Hback |].
  unfold deleteBuffer, ResourceContainer.removeWith, ResourceContainer.get. cbn.
  rewrite Hback, Hfresh. reflexivity.
Qed.

Lemma createEphemeralBuffer_bindable_witness :
  let st1 := stateAfter [BeginFrame; BeginRenderPass 1%nat 1%nat; BindPipeline 1%nat;
                         CreateEphemeralBuffer 64 (Some "uniforms"%string)] in
  (forall binding,
     bindVertexBuffer st1 binding 1%nat
     = match PipelineDesc.vertexBuffers (currentPipeline st1) !! Z.to_nat binding with
       | Some _ => Ok st1
       | None => Undefined
       end) /\
  (forall bit16, exists st2, bindIndexBuffer st1 1%nat bit16 = Ok st2).
Proof.
  apply (createEphemeralBuffer_bindable
           (stateAfter [BeginFrame; BeginRenderPass 1%nat 1%nat; BindPipeline 1%nat])
           64 (Some "uniforms"%string)).
  - vm_compute. reflexivity.
  - unfold isU32. lia.
  - vm_compute. reflexivity.
  - vm_compute. reflexivity.
Defined.

Lemma createBuffer_deleteBuffer_witness :
  exists st2,
    deleteBuffer (stateAfter [CreateBuffer 16 None]) 1%nat = Ok st2 /\
    buffers st2 = buffers demoRenderer /\
    deleteBuffer st2 1%nat = AssertFail.
Proof.
  apply (createBuffer_deleteBuffer demoRenderer 16 None).
  - vm_compute. reflexivity.
  - vm_compute. discriminate.
Defined.

(** What [readLayout] returns: the entries in front of the first [End]
    entry, whose offset is 0. *)
Lemma readLayout_Ok layout ls :
  readLayout layout = Ok ls ->
  exists e rest,
    layout = ls ++ e :: rest /\
    DescriptorLayout.type e = DescriptorType.End_ /\ DescriptorLayout.offset e = 0 /\
    Forall (fun l => DescriptorLayout.type l <> DescriptorType.End_) ls.
Proof.
  revert ls. induction layout as [| l layout IH]; intros ls H; [discriminate |].
  cbn [readLayout] in H. case_bool_decide as Hend.
  - ok_bind H u1 Hoffset. injection H as <-. apply Z.eqb_eq in Hoffset.
    exists l, layout. repeat split; [exact Hend | exact Hoffset | constructor].
  - ok_bind H ls' Hrest. injection H as <-.
    destruct (IH _ Hrest) as (e & rest & -> & He & Hoffset & Hls).
    exists e, rest. repeat split; [exact He | exact Hoffset | by constructor].
Qed.

(** X15.  The layout that [createDescriptorSetLayout] stores under the
    handle it returns is the part of the array in front of the first
    [End] entry: it holds no [End] entry itself, which is what
    [bindDescriptorSet] relies on.  The [End] entry has the offset 0. *)
Theorem createDescriptorSetLayout_stores_prefix st layout handle st1 :
  createDescriptorSetLayout st layout = Ok (handle, st1) ->
  exists ls e rest,
    layout = ls ++ e :: rest /\
    DescriptorLayout.type e = DescriptorType.End_ /\ DescriptorLayout.offset e = 0 /\
    Forall (fun l => DescriptorLayout.type l <> DescriptorType.End_) ls /\
    dsLayouts st !! handle = None /\
    dsLayouts st1 = <[handle := DescriptorSetLayout.mk ls]> (dsLayouts st).
Proof.
  unfold createDescriptorSetLayout. intros H.
  destruct (ResourceContainer.add _ _) as [handle' dsLayouts'] eqn:Hadd.
  apply add_fresh in Hadd as (Hfresh & _ & ->).
  ok_bind H ls Hread. injection H as <- <-.
  destruct (readLayout_Ok _ _ Hread) as (e & rest & Hlayout & He & Hoffset & Hls).
  exists ls, e, rest. repeat split; try assumption.
  cbn. apply insert_insert_eq.
Qed.

Lemma createDescriptorSetLayout_stores_prefix_witness :
  exists ls e rest,
    demoLayout ++ [DescriptorLayout.mk DescriptorType.End_ 0] = ls ++ e :: rest /\
    DescriptorLayout.type e = DescriptorType.End_ /\ DescriptorLayout.offset e = 0 /\
    Forall (fun l => DescriptorLayout.type l <> DescriptorType.End_) ls /\
    dsLayouts demoRenderer !! 2%nat = None /\
    dsLayouts (set_dsLayouts (<[2%nat := DescriptorSetLayout.mk demoLayout]>
                                (dsLayouts demoRenderer)) demoRenderer)
    = <[2%nat := DescriptorSetLayout.mk ls]> (dsLayouts demoRenderer).
Proof.
  apply (createDescriptorSetLayout_stores_prefix demoRenderer).
  vm_compute. reflexivity.
Defined.

(** X16.  An array without [End] entry is read past its end. *)
Theorem createDescriptorSetLayout_unterminated st layout :
  Forall (fun l => DescriptorLayout.type l <> DescriptorType.End_) layout ->
  createDescriptorSetLayout st layout = Undefined.
Proof.
  intros Hlayout. unfold createDescriptorSetLayout.
  destruct (ResourceContainer.add _ _) as [handle dsLayouts'].
  assert (Hread : readLayout layout = Undefined).
  { induction Hlayout as [| l layout Hl _ IH]; [reflexivity |].
    cbn [readLayout]. rewrite bool_decide_eq_false_2 by exact Hl.
    rewrite IH. reflexivity. }
  rewrite Hread. reflexivity.
Qed.

Lemma createDescriptorSetLayout_unterminated_witness :
  createDescriptorSetLayout demoRenderer demoLayout = Undefined.
Proof.
  apply createDescriptorSetLayout_unterminated.
  repeat constructor; discriminate.
Defined.

(** [presentFrame] of an image that is not in the layout [TransferSrc]. *)
Lemma presentFrame_wrong_layout st image rt :
  renderTargets st !! image = Some rt ->
  RenderTarget.currentLayout rt <> Layout.TransferSrc ->
  presentFrame st image = AssertFail.
Proof.
  intros Hrt Hlayout. unfold presentFrame. guard_case.
  change (renderTargets (set_inFrame false st)) with (renderTargets st).
  rewrite (get_lookup _ _ _ Hrt), bind_Ok_l.
  rewrite assert_false_bind; [reflexivity |].
  apply bool_decide_eq_false_2. exact Hlayout.
Qed.

(** What [endRenderPass] leaves in the colour target of the pass. *)
Lemma endRenderPass_Ok st st1 :
  endRenderPass st = Ok st1 ->
  exists pass fb rt,
    renderPasses st !! currentRenderPass st = Some pass /\
    framebuffers st !! currentFramebuffer st = Some fb /\
    renderTargets st1 !! nth 0 (Framebuffer.colors fb) 0%nat = Some rt /\
    RenderTarget.currentLayout rt = RenderPassDesc.colorFinalLayout_ (RenderPass.desc pass).
Proof.
  intros H. unfold endRenderPass in H.
  ok_bind H u1 Hframe. ok_bind H u2 Hin.
  ok_bind H pass Hpass. apply get_Ok in Hpass.
  ok_bind H fb Hfb. apply get_Ok in Hfb.
  ok_bind H rt Hrt. injection H as <-.
  eexists pass, fb, _. split; [exact Hpass |]. split; [exact Hfb |].
  split; [apply lookup_insert_eq | reflexivity].
Qed.

(** X17.  The layout that [endRenderPass] records decides whether the
    image can be presented: after a render pass whose final layout is not
    [TransferSrc], [presentFrame] of the colour target of that pass fails
    its guard. *)
Theorem endRenderPass_then_presentFrame st st1 pass fb :
  endRenderPass st = Ok st1 ->
  renderPasses st !! currentRenderPass st = Some pass ->
  framebuffers st !! currentFramebuffer st = Some fb ->
  RenderPassDesc.colorFinalLayout_ (RenderPass.desc pass) <> Layout.TransferSrc ->
  presentFrame st1 (nth 0 (Framebuffer.colors fb) 0%nat) = AssertFail.
Proof.
  intros H Hpass Hfb Hlayout.
  destruct (endRenderPass_Ok _ _ H) as (pass' & fb' & rt & Hpass' & Hfb' & Hrt & Hfinal).
  rewrite Hpass in Hpass'. injection Hpass' as <-.
  rewrite Hfb in Hfb'. injection Hfb' as <-.
  apply (presentFrame_wrong_layout _ _ rt Hrt). rewrite Hfinal. exact Hlayout.
Qed.

Lemma endRenderPass_then_presentFrame_witness :
  exists st1,
    endRenderPass offscreenRenderer = Ok st1 /\
    presentFrame st1 1%nat = AssertFail.
Proof.
  eexists. split; [vm_compute; reflexivity |].
  refine (endRenderPass_then_presentFrame offscreenRenderer _
            (RenderPass.mk (RenderPassDesc.mk (Some "offscreen"%string) Layout.ShaderRead))
            (Framebuffer.mk 3 1%nat [1%nat] 0%nat 256 256) _ _ _ _).
  - vm_compute. reflexivity.
  - vm_compute. reflexivity.
  - vm_compute. reflexivity.
  - discriminate.
Defined.

End Resources.

(** ** Textures and render targets *)

Section Textures.

Import GL GLResources.

Lemma mipSize_S w i : 0 < w -> mipSize (Z.max (w / 2) 1) i = mipSize w (S i).
Proof.
  intros Hw. unfold mipSize. rewrite Nat2Z.inj_succ, Z.pow_succ_r by lia.
  assert (Hp : 0 < 2 ^ Z.of_nat i) by (apply Z.pow_pos_nonneg; lia).
  destruct (Z_le_gt_dec 2 w) as [H2 | H1].
  - assert (1 <= w / 2) by (apply Z.div_le_lower_bound; lia).
    rewrite (Z.max_l (w / 2) 1) by lia. rewrite Z.div_div by lia. reflexivity.
  - replace w with 1 by lia. change (1 / 2) with 0. rewrite (Z.max_r 0 1) by lia.
    rewrite (Z.div_small 1 (2 * _)) by lia.
    assert (1 / 2 ^ Z.of_nat i <= 1) by (apply Z.div_le_upper_bound; lia).
    lia.
Qed.

Lemma uploadMips_Ok desc count i w h uploads :
  uploadMips desc count i w h = Ok uploads ->
  0 <= i -> 0 < w -> 0 < h ->
  length uploads = count /\
  forall k upload, uploads !! k = Some upload ->
    level upload = i + Z.of_nat k /\
    uploadWidth upload = mipSize w k /\ uploadHeight upload = mipSize h k /\
    glTexBaseFormat (TextureDesc.format_ desc) = Ok (uploadFormat upload) /\
    exists mip, TextureDesc.mipData_ desc !! Z.to_nat (i + Z.of_nat k) = Some mip /\
                pixels upload = MipLevel.data mip /\ is_Some (MipLevel.data mip).
Proof.
  revert i w h uploads. induction count as [| count IH]; intros i w h uploads H Hi Hw Hh.
  - injection H as <-. split; [reflexivity |]. intros k upload Hk. discriminate Hk.
  - cbn [uploadMips] in H.
    destruct (TextureDesc.mipData_ desc !! Z.to_nat i) as [mip |] eqn:Hmip; [| discriminate].
    ok_bind H u1 Hdata. ok_bind H u2 Hsize. ok_bind H format Hformat.
    ok_bind H rest Hrest. injection H as <-.
    apply bool_decide_eq_true in Hdata.
    destruct (IH _ _ _ _ Hrest) as [Hlength Hlevels]; [lia | lia | lia |].
    split; [cbn; lia |].
    intros [| k] upload Hk.
    + injection Hk as <-. cbn. unfold mipSize. cbn. rewrite !Z.div_1_r, Z.add_0_r.
      repeat split; try lia; try assumption. exists mip. repeat split; assumption.
    + cbn in Hk. destruct (Hlevels k upload Hk) as (Hl & Hwk & Hhk & Hf & Hm).
      rewrite mipSize_S in Hwk, Hhk by assumption.
      replace (i + Z.of_nat (S k)) with (i + 1 + Z.of_nat k) by lia.
      repeat split; assumption.
Qed.

(** X18.  [createTexture] uploads the mip levels 0, 1, ... below
    [numMips_] in this order, and level [i] with the width and the height
    of level 0 halved [i] times, rounded down and never below 1. *)
Theorem createTexture_mip_sizes st desc handle st1 uploads :
  createTexture st desc = Ok (handle, st1, uploads) ->
  length uploads = Z.to_nat (TextureDesc.numMips_ desc) /\
  forall i upload, uploads !! i = Some upload ->
    level upload = Z.of_nat i /\
    uploadWidth upload = mipSize (TextureDesc.width_ desc) i /\
    uploadHeight upload = mipSize (TextureDesc.height_ desc) i.
Proof.
  unfold createTexture. intros H.
  ok_bind H u1 Hw. ok_bind H u2 Hh. ok_bind H u3 Hmips.
  unfold glCreate in H. ok_bind H internal Hformat. ok_bind H ups Huploads.
  destruct (ResourceContainer.add _ _) as [handle' textures'].
  ok_bind H u4 Hrt. injection H as _ _ <-.
  apply Z.ltb_lt in Hw, Hh.
  destruct (uploadMips_Ok _ _ _ _ _ _ Huploads) as [Hlength Hlevels]; [lia | lia | lia |].
  split; [exact Hlength |].
  intros i upload Hi. destruct (Hlevels i upload Hi) as (Hl & Hwi & Hhi & _).
  repeat split; assumption || lia.
Qed.

Lemma createTexture_mip_sizes_witness :
  exists handle st1 uploads,
    createTexture demoRenderer demoTextureDesc = Ok (handle, st1, uploads) /\
    length uploads = Z.to_nat (TextureDesc.numMips_ demoTextureDesc) /\
    forall i upload, uploads !! i = Some upload ->
      level upload = Z.of_nat i /\
      uploadWidth upload = mipSize (TextureDesc.width_ demoTextureDesc) i /\
      uploadHeight upload = mipSize (TextureDesc.height_ demoTextureDesc) i.
Proof.
  eexists _, _, _. split; [vm_compute; reflexivity |].
  eapply (createTexture_mip_sizes demoRenderer demoTextureDesc).
  vm_compute. reflexivity.
Defined.

Variable newRenderTarget : RenderTarget.t.

(** What [createRenderTarget] adds: a texture that is marked as the
    texture of a render target, and the render target that owns it. *)
Lemma createRenderTarget_Ok st desc handle st1 :
  createRenderTarget newRenderTarget st desc = Ok (handle, st1) ->
  exists textureHandle,
    textures st !! textureHandle = None /\ textureHandle <> 0%nat /\
    renderTargets st !! handle = None /\
    textures st1
    = <[textureHandle := Texture.mk (glNames st) (RenderTargetDesc.width_ desc)
                           (RenderTargetDesc.height_ desc) true]> (textures st) /\
    renderTargets st1
    = <[handle := RenderTarget.mk (RenderTargetDesc.width_ desc)
                    (RenderTargetDesc.height_ desc) textureHandle
                    (RenderTarget.readFBO newRenderTarget)
                    (RenderTarget.currentLayout newRenderTarget)]> (renderTargets st).
Proof.
  unfold createRenderTarget. intros H.
  ok_bind H u1 Hw. ok_bind H u2 Hh. ok_bind H u3 Hformat. ok_bind H u4 Hname.
  unfold glCreate in H. ok_bind H internal Hinternal.
  cbn [textures set_glNames] in H.
  destruct (ResourceContainer.add newTexture (textures st)) as [textureHandle textures']
    eqn:Hadd.
  apply add_fresh in Hadd as (Hfresh & Hvalid & ->).
  cbn [renderTargets set_textures set_glNames] in H.
  destruct (ResourceContainer.add newRenderTarget (renderTargets st)) as [handle' renderTargets']
    eqn:Hadd.
  apply add_fresh in Hadd as (Hfresh' & _ & ->).
  injection H as <- <-.
  exists textureHandle. split; [exact Hfresh |]. split; [exact Hvalid |].
  split; [exact Hfresh' |]. split; [apply insert_insert_eq | apply insert_insert_eq].
Qed.

(** X19.  [deleteRenderTarget] on a render target that
    [createRenderTarget] has just returned goes through and takes away
    both the render target and its texture: the two containers are as
    they were before the two calls.  The driver is taken never to give
    out the name 0. *)
Theorem createRenderTarget_deleteRenderTarget st desc handle st1 :
  createRenderTarget newRenderTarget st desc = Ok (handle, st1) ->
  glNames st <> 0 ->
  exists st2,
    deleteRenderTarget st1 handle = Ok st2 /\
    textures st2 = textures st /\ renderTargets st2 = renderTargets st.
Proof.
  intros H Hname.
  destruct (createRenderTarget_Ok _ _ _ _ H)
    as (textureHandle & Hfresh & Hvalid & Hfresh' & Htextures & Htargets).
  eexists. split.
  - unfold deleteRenderTarget.
    rewrite Htargets at 1. rewrite (get_lookup _ _ _ (lookup_insert_eq _ _ _)), bind_Ok_l.
    cbn [RenderTarget.texture].
    rewrite (assert_true (isValid textureHandle))
      by (unfold isValid; apply negb_true_iff, Nat.eqb_neq; exact Hvalid).
    rewrite bind_Ok_l.
    rewrite Htextures at 1. rewrite (get_lookup _ _ _ (lookup_insert_eq _ _ _)), bind_Ok_l.
    cbn [Texture.renderTarget Texture.tex Texture.width Texture.height].
    change (assert true) with (Ok tt : result unit). rewrite bind_Ok_l.
    rewrite (assert_true (negb (glNames st =? 0))) by (by apply negb_true_iff, Z.eqb_neq).
    rewrite bind_Ok_l.
    change (textures (set_textures ?v st1)) with v.
    unfold ResourceContainer.remove. rewrite lookup_insert_eq, bind_Ok_l.
    reflexivity.
  - change (textures (set_renderTargets ?r (set_textures ?v ?s))) with v.
    change (renderTargets (set_renderTargets ?r ?s)) with r.
    change (renderTargets (set_textures ?v (set_textures ?v' st1))) with (renderTargets st1).
    rewrite Htextures, Htargets.
    split.
    + rewrite delete_insert_eq, delete_insert_eq. apply delete_id. exact Hfresh.
    + rewrite delete_insert_eq. apply delete_id. exact Hfresh'.
Qed.

(** X20.  The texture of a render target that [createRenderTarget] has
    returned is given out by [getRenderTargetTexture], and [deleteTexture]
    fails its guard on it: it goes away with the render target only. *)
Theorem createRenderTarget_owns_texture st desc handle st1 :
  createRenderTarget newRenderTarget st desc = Ok (handle, st1) ->
  exists textureHandle,
    getRenderTargetTexture st1 handle = Ok textureHandle /\
    deleteTexture st1 textureHandle = AssertFail.
Proof.
  intros H.
  destruct (createRenderTarget_Ok _ _ _ _ H)
    as (textureHandle & _ & _ & _ & Htextures & Htargets).
  exists textureHandle. split.
  - unfold getRenderTargetTexture.
    rewrite Htargets, (get_lookup _ _ _ (lookup_insert_eq _ _ _)), bind_Ok_l.
    cbn [RenderTarget.texture].
    rewrite Htextures, (get_lookup _ _ _ (lookup_insert_eq _ _ _)). reflexivity.
  - unfold deleteTexture, ResourceContainer.removeWith.
    rewrite Htextures, (get_lookup _ _ _ (lookup_insert_eq _ _ _)). reflexivity.
Qed.

End Textures.

Lemma createRenderTarget_deleteRenderTarget_witness :
  exists handle st1 st2,
    GLResources.createRenderTarget (GL.RenderTarget.mk 0 0 0%nat 0 GL.Layout.Undefined)
      demoRenderer (GLResources.RenderTargetDesc.mk 64 64 GLResources.Format.RGBA8 (Some "edges"%string))
    = Ok (handle, st1) /\
    GLResources.deleteRenderTarget st1 handle = Ok st2 /\
    GL.textures st2 = GL.textures demoRenderer /\
    GL.renderTargets st2 = GL.renderTargets demoRenderer.
Proof.
  eexists _, _. 
  destruct (createRenderTarget_deleteRenderTarget
              (GL.RenderTarget.mk 0 0 0%nat 0 GL.Layout.Undefined) demoRenderer
              (GLResources.RenderTargetDesc.mk 64 64 GLResources.Format.RGBA8 (Some "edges"%string))
              2%nat _ ltac:(vm_compute; reflexivity) ltac:(vm_compute; discriminate))
    as (st2 & Hdelete & Hsame).
  exists st2. split; [vm_compute; reflexivity |]. split; [exact Hdelete | exact Hsame].
Defined.

Lemma createRenderTarget_owns_texture_witness :
  exists handle st1 textureHandle,
    GLResources.createRenderTarget (GL.RenderTarget.mk 0 0 0%nat 0 GL.Layout.Undefined)
      demoRenderer (GLResources.RenderTargetDesc.mk 64 64 GLResources.Format.RGBA8 (Some "edges"%string))
    = Ok (handle, st1) /\
    GLResources.getRenderTargetTexture st1 handle = Ok textureHandle /\
    GLResources.deleteTexture st1 textureHandle = AssertFail.
Proof.
  eexists _, _.
  destruct (createRenderTarget_owns_texture
              (GL.RenderTarget.mk 0 0 0%nat 0 GL.Layout.Undefined) demoRenderer
              (GLResources.RenderTargetDesc.mk 64 64 GLResources.Format.RGBA8 (Some "edges"%string))
              2%nat _ ltac:(vm_compute; reflexivity))
    as (textureHandle & Hget & Hdelete).
  exists textureHandle. split; [vm_compute; reflexivity |]. split; [exact Hget | exact Hdelete].
Defined.

(** ** The vertex attributes of a pipeline *)

Section VertexAttribLoops.

Import VertexAttribs.

Lemma ctzFrom_spec fuel x i :
  (exists j, i <= j < i + Z.of_nat fuel /\ Z.testbit x j = true) ->
  i <= ctzFrom fuel x i /\ Z.testbit x (ctzFrom fuel x i) = true /\
  forall j, i <= j < ctzFrom fuel x i -> Z.testbit x j = false.
Proof.
  revert i. induction fuel as [| fuel IH]; intros i (j & Hj & Hbit); [lia |].
  cbn [ctzFrom]. destruct (Z.testbit x i) eqn:Hi.
  - split; [lia |]. split; [exact Hi |]. intros k Hk. lia.
  - destruct (IH (i + 1)) as (Hle & Hset & Hlow).
    { exists j. split; [| exact Hbit].
      assert (j <> i) by (intros ->; congruence). lia. }
    split; [lia |]. split; [exact Hset |].
    intros k Hk. destruct (decide (k = i)) as [-> | Hne]; [exact Hi | apply Hlow; lia].
Qed.

Lemma small_bits x j : 0 <= x < 2 ^ 32 -> 32 <= j -> Z.testbit x j = false.
Proof.
  intros Hx Hj. rewrite <- (Z.mod_small x (2 ^ 32)) by lia.
  apply Z.mod_pow2_bits_high. lia.
Qed.

Lemma ctz_spec x :
  0 < x < 2 ^ 32 ->
  0 <= ctz x < 32 /\ Z.testbit x (ctz x) = true /\
  forall j, 0 <= j < ctz x -> Z.testbit x j = false.
Proof.
  intros Hx.
  assert (Hlog : Z.testbit x (Z.log2 x) = true) by (apply Z.bit_log2; lia).
  assert (Hlt : 0 <= Z.log2 x < 32).
  { split; [apply Z.log2_nonneg | apply Z.log2_lt_pow2; lia]. }
  destruct (ctzFrom_spec 32 x 0) as (Hle & Hset & Hlow).
  { exists (Z.log2 x). split; [lia | exact Hlog]. }
  fold (ctz x) in Hle, Hset, Hlow.
  split; [| split; [exact Hset | exact Hlow]].
  split; [exact Hle |].
  destruct (Z_lt_le_dec (ctz x) 32) as [| Hge]; [assumption |].
  rewrite (Hlow (Z.log2 x)) in Hlog by lia. discriminate.
Qed.

Lemma shiftl_mask bit : 0 <= bit < 32 -> u32 (Z.shiftl 1 bit) = 2 ^ bit.
Proof.
  intros Hbit. rewrite Z.shiftl_1_l. apply u32_small.
  split; [apply Z.pow_nonneg; lia | apply Z.pow_lt_mono_r; lia].
Qed.

(** [x & ~(1 << bit)] is [x] without the bit. *)
Lemma clear_bit_bits x bit j :
  0 <= bit < 32 -> 0 <= j < 32 ->
  Z.testbit (Z.land x (u32not (2 ^ bit))) j = Z.testbit x j && negb (j =? bit).
Proof.
  intros Hbit Hj. rewrite Z.land_spec. f_equal.
  unfold u32not, u32. rewrite Z.mod_pow2_bits_low by lia.
  rewrite Z.lnot_spec by lia. rewrite Z.pow2_bits_eqb by lia.
  rewrite Z.eqb_sym. reflexivity.
Qed.

Lemma clear_bit_range x bit :
  0 <= x < 2 ^ 32 -> 0 <= bit < 32 -> 0 <= Z.land x (u32not (2 ^ bit)) < 2 ^ 32.
Proof.
  intros Hx Hbit.
  assert (Hm : 0 <= u32not (2 ^ bit)) by (unfold u32not; apply u32_range).
  assert (H0 : 0 <= Z.land x (u32not (2 ^ bit))) by (apply Z.land_nonneg; lia).
  split; [exact H0 |].
  destruct (decide (Z.land x (u32not (2 ^ bit)) = 0)) as [-> | Hne]; [lia |].
  apply Z.log2_lt_pow2; [lia |].
  pose proof (Z.log2_land x (u32not (2 ^ bit)) ltac:(lia) Hm).
  assert (Z.log2 x < 32).
  { destruct (decide (x = 0)) as [-> | Hx0]; [cbn; lia |]. apply Z.log2_lt_pow2; lia. }
  lia.
Qed.

Lemma filter_none (f : Z -> bool) l :
  (forall j, j ∈ l -> f j = false) -> List.filter f l = [].
Proof.
  induction l as [| a l IH]; intros H; [reflexivity |].
  cbn. rewrite (H a) by apply list_elem_of_here.
  apply IH. intros j Hj. apply H. by apply list_elem_of_further.
Qed.

Lemma filter_same (f g : Z -> bool) l :
  (forall j, j ∈ l -> f j = g j) -> List.filter f l = List.filter g l.
Proof.
  induction l as [| a l IH]; intros H; [reflexivity |].
  cbn. rewrite (H a) by apply list_elem_of_here.
  rewrite IH; [reflexivity |]. intros j Hj. apply H. by apply list_elem_of_further.
Qed.

(** The loop goes through the bits that are set, from the lowest, once
    each, and ends with [x] cleared, when it is given at least as many
    iterations as there are positions left. *)
Lemma forEachSetBit_from {A : Type} (body : Z -> Z -> A) fuel x p :
  0 <= p -> 32 <= p + Z.of_nat fuel -> 0 <= x < 2 ^ 32 ->
  (forall j, 0 <= j < p -> Z.testbit x j = false) ->
  forEachSetBit fuel x body
  = Some ((fun i => body i (2 ^ i)) <$> List.filter (Z.testbit x) (seqZ p (32 - p)), 0).
Proof.
  revert x p. induction fuel as [| fuel IH]; intros x p Hp Hfuel Hx Hlow.
  - assert (x = 0) as ->.
    { destruct (decide (x = 0)) as [| Hne]; [assumption | exfalso].
      destruct (ctz_spec x ltac:(lia)) as (Hb & Hset & _).
      rewrite Hlow in Hset by lia. discriminate. }
    cbn. rewrite filter_none; [reflexivity |]. intros j _. apply Z.bits_0.
  - cbn [forEachSetBit]. destruct (Z.eqb_spec x 0) as [-> | Hne].
    + rewrite filter_none; [reflexivity |]. intros j _. apply Z.bits_0.
    + destruct (ctz_spec x ltac:(lia)) as (Hb & Hset & Hbelow).
      cbv zeta. remember (ctz x) as bit eqn:Hbit. clear Hbit.
      assert (Hpb : p <= bit).
      { destruct (Z_le_gt_dec p bit); [assumption |].
        rewrite Hlow in Hset by lia. discriminate. }
      rewrite shiftl_mask by exact Hb.
      rewrite (IH _ (bit + 1)); [| lia | lia | by apply clear_bit_range |].
      * cbn [mbind option_bind]. f_equal. f_equal.
        replace (32 - p) with ((bit - p) + (32 - bit)) by lia.
        rewrite seqZ_app by lia. rewrite List.filter_app.
        rewrite (filter_none (Z.testbit x) (seqZ p (bit - p)))
          by (intros j Hj%elem_of_seqZ; apply Hbelow; lia).
        replace (p + (bit - p)) with bit by lia.
        rewrite (seqZ_cons bit (32 - bit)) by lia. cbn [app List.filter]. rewrite Hset.
        cbn [fmap list_fmap]. f_equal.
        replace (Z.succ bit) with (bit + 1) by lia.
        replace (Z.pred (32 - bit)) with (32 - (bit + 1)) by lia.
        f_equal. apply filter_same. intros j Hj%elem_of_seqZ.
        rewrite clear_bit_bits by lia.
        destruct (Z.eqb_spec j bit); [lia |]. apply andb_true_r.
      * intros j Hj. rewrite clear_bit_bits by lia.
        destruct (Z.eqb_spec j bit) as [-> | Hjb]; [apply andb_false_r |].
        rewrite Hbelow by lia. reflexivity.
Qed.

Lemma forEachSetBit_all {A : Type} (body : Z -> Z -> A) fuel x :
  (32 <= fuel)%nat -> 0 <= x < 2 ^ 32 ->
  forEachSetBit fuel x body = Some ((fun i => body i (2 ^ i)) <$> setBits x, 0).
Proof.
  intros Hfuel Hx. apply (forEachSetBit_from body fuel x 0); try lia.
Qed.

Lemma lxor_range a b : isU32 a -> isU32 b -> 0 <= Z.lxor a b < 2 ^ 32.
Proof.
  unfold isU32. intros Ha Hb.
  assert (H0 : 0 <= Z.lxor a b) by (apply Z.lxor_nonneg; lia).
  split; [exact H0 |].
  destruct (decide (Z.lxor a b = 0)) as [-> | Hne]; [lia |].
  apply Z.log2_lt_pow2; [lia |].
  pose proof (Z.log2_lxor a b ltac:(lia) ltac:(lia)).
  assert (Z.log2 a < 32).
  { destruct (decide (a = 0)) as [-> | Ha0]; [cbn; lia |]. apply Z.log2_lt_pow2; lia. }
  assert (Z.log2 b < 32).
  { destruct (decide (b = 0)) as [-> | Hb0]; [cbn; lia |]. apply Z.log2_lt_pow2; lia. }
  lia.
Qed.

(** An iteration of the first loop enables the attribute when its bit is
    set in the new mask, and disables it when it is not. *)
Lemma toggle_bit newMask i :
  0 <= i ->
  toggle newMask i (2 ^ i)
  = if Z.testbit newMask i then glEnableVertexAttribArray i
    else glDisableVertexAttribArray i.
Proof.
  intros Hi. unfold toggle.
  destruct (Z.testbit newMask i) eqn:Hbit.
  - destruct (Z.eqb_spec (Z.land newMask (2 ^ i)) 0) as [E | _]; [| reflexivity].
    apply (f_equal (fun z => Z.testbit z i)) in E.
    rewrite Z.land_spec, Hbit, Z.pow2_bits_true, Z.bits_0 in E by lia. discriminate.
  - destruct (Z.eqb_spec (Z.land newMask (2 ^ i)) 0) as [_ | Hne]; [reflexivity |].
    exfalso. apply Hne. apply Z.bits_inj_0. intros n.
    rewrite Z.land_spec. destruct (Z_lt_le_dec n 0); [by rewrite !Z.testbit_neg_r by lia |].
    rewrite Z.pow2_bits_eqb by lia.
    destruct (Z.eqb_spec i n) as [<- | _]; [by rewrite Hbit | apply andb_false_r].
Qed.

(** The enabled arrays after the calls of the first loop for the
    positions [l]: the bits of the new mask at these positions, the
    others as they were. *)
Lemma enabledAfter_bits newMask l :
  Forall (fun i => 0 <= i) l ->
  forall enabled n, 0 <= n ->
    Z.testbit (enabledAfter enabled ((fun i => toggle newMask i (2 ^ i)) <$> l)) n
    = if decide (n ∈ l) then Z.testbit newMask n else Z.testbit enabled n.
Proof.
  induction 1 as [| i l Hi _ IH]; intros enabled n Hn.
  - cbn. destruct (decide (n ∈ [])) as [Hin | _]; [| reflexivity].
    apply elem_of_nil in Hin. destruct Hin.
  - cbn [fmap list_fmap enabledAfter foldl]. fold (enabledAfter).
    change (foldl _ ?e ?cs) with (enabledAfter e cs).
    rewrite toggle_bit by exact Hi. rewrite IH by exact Hn.
    destruct (decide (n ∈ l)) as [Hin | Hout].
    + rewrite decide_True by (by apply list_elem_of_further). reflexivity.
    + destruct (decide (n = i)) as [-> | Hne].
      * rewrite decide_True by apply list_elem_of_here.
        destruct (Z.testbit newMask i) eqn:Hbit.
        -- apply Z.setbit_eq. exact Hi.
        -- apply Z.clearbit_eq.
      * rewrite decide_False by (intros [? | ?]%elem_of_cons; contradiction).
        destruct (Z.testbit newMask i).
        -- apply Z.setbit_neq; [exact Hi | congruence].
        -- apply Z.clearbit_neq. congruence.
Qed.

Lemma elem_of_setBits x n : n ∈ setBits x <-> 0 <= n < 32 /\ Z.testbit x n = true.
Proof.
  unfold setBits. rewrite list_elem_of_In, List.filter_In, <- list_elem_of_In, elem_of_seqZ.
  split; intros [? ?]; (split; [lia | assumption]).
Qed.

(** What the first loop does, from the side of the driver. *)
Lemma toggleAttribs_Some fuel oldMask newMask :
  (32 <= fuel)%nat -> isU32 oldMask -> isU32 newMask ->
  exists toggles,
    toggleAttribs fuel oldMask newMask = Some (toggles, 0) /\
    enabledAfter oldMask toggles = newMask /\
    Forall (fun c => exists i, c = glEnableVertexAttribArray i \/
                               c = glDisableVertexAttribArray i) toggles.
Proof.
  intros Hfuel Hold Hnew. unfold toggleAttribs.
  rewrite forEachSetBit_all by (try apply lxor_range; assumption).
  eexists. split; [reflexivity |].
  assert (Hpos : Forall (fun i => 0 <= i) (setBits (Z.lxor oldMask newMask))).
  { apply Forall_forall. intros i Hi%elem_of_setBits. lia. }
  split.
  - apply Z.bits_inj'. intros n Hn.
    rewrite enabledAfter_bits by assumption.
    destruct (decide (n ∈ setBits (Z.lxor oldMask newMask))) as [Hin | Hout];
      [reflexivity |].
    destruct (Z_lt_le_dec n 32) as [Hlt | Hge].
    + rewrite elem_of_setBits in Hout.
      destruct (Z.testbit (Z.lxor oldMask newMask) n) eqn:Hx; [exfalso; apply Hout; lia |].
      rewrite Z.lxor_spec in Hx.
      by destruct (Z.testbit oldMask n), (Z.testbit newMask n).
    + rewrite !small_bits by assumption. reflexivity.
  - apply Forall_fmap. eapply Forall_impl; [exact Hpos |].
    intros i Hi. unfold compose. cbn beta. rewrite toggle_bit by exact Hi.
    exists i. destruct (Z.testbit newMask i); [by left | by right].
Qed.

Lemma mapM_id_Some {A : Type} (l : list (option A)) (k : list A) :
  Forall2 (fun o a => o = Some a) l k -> mapM id l = Some k.
Proof.
  induction 1 as [| o a l k -> _ IH]; [reflexivity |].
  cbn. rewrite IH. reflexivity.
Qed.

(** X21.  The vertex attributes in [bindPipeline]: both loops end; when
    the arrays that are enabled in the driver are those of the old mask,
    the calls of the first loop leave exactly those of the new mask
    enabled; and the second loop sets the format and the binding of each
    attribute of the new mask once, from the lowest position up. *)
Theorem bindVertexAttribs_calls fuel oldMask newMask attribs :
  (32 <= fuel)%nat -> isU32 oldMask -> isU32 newMask ->
  (forall i, i ∈ setBits newMask -> is_Some (attribs !! Z.to_nat i)) ->
  exists toggles,
    bindVertexAttribs fuel oldMask newMask attribs
    = Some (Ok (toggles ++
                concat ((fun i => default [] (setFormat attribs i (2 ^ i)))
                          <$> setBits newMask))) /\
    enabledAfter oldMask toggles = newMask.
Proof.
  intros Hfuel Hold Hnew Hattribs.
  destruct (toggleAttribs_Some fuel oldMask newMask Hfuel Hold Hnew)
    as (toggles & Htoggles & Henabled & _).
  exists toggles. split; [| exact Henabled].
  unfold bindVertexAttribs. rewrite Htoggles. cbn [mbind option_bind].
  unfold formatAttribs. rewrite forEachSetBit_all by assumption.
  cbn [mbind option_bind].
  rewrite (mapM_id_Some _ ((fun i => default [] (setFormat attribs i (2 ^ i)))
                             <$> setBits newMask)); [reflexivity |].
  apply Forall2_fmap, Forall_Forall2_diag, Forall_forall.
  intros i Hi. destruct (Hattribs i Hi) as [attr Hattr].
  unfold setFormat. rewrite Hattr. cbn. by destruct (format attr).
Qed.

Lemma bindVertexAttribs_calls_witness :
  exists toggles,
    bindVertexAttribs 32 4 3 demoAttribs
    = Some (Ok (toggles ++
                concat ((fun i => default [] (setFormat demoAttribs i (2 ^ i)))
                          <$> setBits 3))) /\
    enabledAfter 4 toggles = 3.
Proof.
  apply bindVertexAttribs_calls.
  - lia.
  - unfold isU32. lia.
  - unfold isU32. lia.
  - intros i Hi. vm_compute in Hi.
    apply elem_of_cons in Hi as [-> | Hi]; [vm_compute; eauto |].
    apply elem_of_cons in Hi as [-> | Hi]; [vm_compute; eauto |].
    apply elem_of_nil in Hi. destruct Hi.
Defined.

(** X22.  In the build for compilers without [__builtin_ctz] the second
    loop does nothing: it looks for a bit in [vattrChanged], which the
    first loop has cleared.  [bindPipeline] makes the calls of the first
    loop there and sets no format and no binding. *)
Theorem bindVertexAttribsBitScan_sets_no_format fuel oldMask newMask attribs :
  (32 <= fuel)%nat -> isU32 oldMask -> isU32 newMask ->
  exists toggles,
    bindVertexAttribsBitScan fuel oldMask newMask attribs = Some (Ok toggles) /\
    enabledAfter oldMask toggles = newMask /\
    Forall (fun c => exists i, c = glEnableVertexAttribArray i \/
                               c = glDisableVertexAttribArray i) toggles.
Proof.
  intros Hfuel Hold Hnew.
  destruct (toggleAttribs_Some fuel oldMask newMask Hfuel Hold Hnew)
    as (toggles & Htoggles & Henabled & Hcalls).
  exists toggles. split; [| split; [exact Henabled | exact Hcalls]].
  unfold bindVertexAttribsBitScan. rewrite Htoggles. cbn [mbind option_bind].
  destruct fuel; cbn; rewrite app_nil_r; reflexivity.
Qed.

Lemma bindVertexAttribsBitScan_sets_no_format_witness :
  exists toggles,
    bindVertexAttribsBitScan 32 4 3 demoAttribs = Some (Ok toggles) /\
    enabledAfter 4 toggles = 3 /\
    Forall (fun c => exists i, c = glEnableVertexAttribArray i \/
                               c = glDisableVertexAttribArray i) toggles.
Proof.
  apply bindVertexAttribsBitScan_sets_no_format.
  - lia.
  - unfold isU32. lia.
  - unfold isU32. lia.
Defined.

End VertexAttribLoops.

(** ** The text of a shader *)

Section ShaderTexts.

Import ShaderText.

Lemma string_app_length (s1 s2 : string) :
  String.length (s1 +:+ s2) = (String.length s1 + String.length s2)%nat.
Proof.
  induction s1 as [| c s1 IH]; [reflexivity |].
  rewrite string_app_cons. cbn [String.length]. rewrite IH. reflexivity.
Qed.

Lemma commentLength_Permutation l1 l2 : l1 ≡ₚ l2 -> commentLength l1 = commentLength l2.
Proof.
  induction 1 as [| x l1 l2 _ IH | x y l | l1 l2 l3 _ IH1 _ IH2].
  - reflexivity.
  - cbn. rewrite IH. reflexivity.
  - cbn. lia.
  - congruence.
Qed.

Lemma commentLength_app l1 l2 :
  commentLength (l1 ++ l2) = (commentLength l1 + commentLength l2)%nat.
Proof. induction l1 as [| x l1 IH]; cbn; [reflexivity | rewrite IH; lia]. Qed.

(** The first loop: the size grows by the length of the comment lines. *)
Lemma sizes_foldl macros size sorted :
  foldl (fun '(size, sorted) macro =>
           let str := Cache.macroString macro in
           ((size + (3 + String.length str + 1))%nat, sorted ++ [str]))
        (size, sorted) macros
  = ((size + commentLength (Cache.macroString <$> macros))%nat,
     sorted ++ (Cache.macroString <$> macros)).
Proof.
  revert size sorted. induction macros as [| macro macros IH]; intros size sorted.
  - cbn. rewrite Nat.add_0_r, app_nil_r. reflexivity.
  - cbn [foldl]. rewrite IH. cbn [fmap list_fmap commentLength].
    rewrite <- app_assoc. f_equal. lia.
Qed.

(** The second loop: the text grows by the comment lines. *)
Lemma lines_foldl sorted result :
  String.length (foldl (fun result s => (result +:+ "// " +:+ s) +:+ newline) result sorted)
  = (String.length result + commentLength sorted)%nat.
Proof.
  revert result. induction sorted as [| s sorted IH]; intros result.
  - cbn. lia.
  - cbn [foldl]. rewrite IH. rewrite !string_app_length. cbn. lia.
Qed.

(** X23.  [spirv2glsl] reserves exactly the number of characters that it
    writes: the comment lines for the name and for the macros, and the
    text that the cross compiler gives. *)
Theorem spirv2glsl_reserves_its_length name macros src_ :
  String.length (spirv2glsl name macros src_).2 = (spirv2glsl name macros src_).1.
Proof.
  unfold spirv2glsl. rewrite sizes_foldl. cbn [fst snd app].
  rewrite string_app_length, lines_foldl, !string_app_length.
  rewrite (commentLength_Permutation _ _ (merge_sort_Permutation _ _)).
  cbn. lia.
Qed.

End ShaderTexts.

(** ** The shader cache: the name of the binary *)

Section BinaryName.

Import Cache.

Lemma concat_zeros_length k :
  String.length (String.concat "" (replicate k "0"%string)) = k.
Proof.
  induction k as [| k IH]; [reflexivity |].
  cbn [replicate String.concat]. destruct k as [| k]; [reflexivity |].
  cbn [replicate] in *. rewrite !string_app_length, IH. reflexivity.
Qed.

Lemma substring_length n (s : string) :
  (n <= String.length s)%nat -> String.length (substring 0 n s) = n.
Proof.
  revert s. induction n as [| n IH]; intros s Hn.
  - destruct s; reflexivity.
  - destruct s as [| c s]; [cbn in Hn; lia |].
    cbn [substring String.length]. rewrite IH; [reflexivity |]. cbn in Hn. lia.
Qed.

Lemma substring_prefix (s1 s2 : string) :
  substring 0 (String.length s1) (s1 +:+ s2) = s1.
Proof.
  induction s1 as [| c s1 IH].
  - cbn. destruct s2; reflexivity.
  - rewrite string_app_cons. cbn [String.length substring]. rewrite IH. reflexivity.
Qed.

Lemma showDigits_longer base fuel n acc :
  (String.length acc < String.length (showDigits base (S fuel) n acc))%nat.
Proof.
  revert n acc. induction fuel as [| fuel IH]; intros n acc.
  - cbn. destruct (n / base =? 0); cbn; lia.
  - rewrite showDigits_S. destruct (n / base =? 0); [cbn; lia |].
    specialize (IH (n / base) (String (digitChar (n mod base)) acc)).
    cbn [String.length] in IH. lia.
Qed.

(** X24.  The name that [snprintf] writes for the binary has eight
    characters, whatever the hash is. *)
Theorem hex8_length h : String.length (hex8 h) = 8%nat.
Proof.
  unfold hex8. apply substring_length.
  rewrite string_app_length, concat_zeros_length.
  pose proof (showDigits_longer 16 15 h "") as Hlen. unfold showHex. cbn in Hlen. lia.
Qed.

(** The digits in front of an accumulator do not depend on it. *)
Lemma showDigits_app base fuel n acc :
  showDigits base fuel n acc = showDigits base fuel n "" +:+ acc.
Proof.
  revert n acc. induction fuel as [| fuel IH]; intros n acc; [reflexivity |].
  rewrite !showDigits_S. destruct (n / base =? 0); [reflexivity |].
  rewrite (IH _ (String _ acc)), (IH _ (String _ "")).
  rewrite string_app_assoc. reflexivity.
Qed.

(** The digits of a number that has more than [k] of them: those of the
    number without its last [k] digits, and [k] more. *)
Lemma showDigits_split base fuel k n :
  2 <= base -> 0 <= n -> n / base ^ Z.of_nat k <> 0 ->
  exists low,
    String.length low = k /\
    showDigits base (S fuel + k) n "" = showDigits base (S fuel) (n / base ^ Z.of_nat k) "" +:+ low.
Proof.
  intros Hbase. revert n. induction k as [| k IH]; intros n Hn Hlarge.
  - exists ""%string. split; [reflexivity |].
    rewrite Nat.add_0_r, Z.pow_0_r, Z.div_1_r, string_app_empty_r. reflexivity.
  - rewrite Nat2Z.inj_succ, Z.pow_succ_r in Hlarge by lia.
    assert (Hdiv : n / base / base ^ Z.of_nat k = n / (base * base ^ Z.of_nat k)).
    { apply Z.div_div; [lia |]. apply Z.pow_pos_nonneg; lia. }
    assert (Hq : n / base <> 0).
    { intros Hq. rewrite <- Hdiv, Hq in Hlarge. apply Hlarge. apply Z.div_0_l.
      apply Z.pow_nonzero; lia. }
    destruct (IH (n / base)) as (low & Hlen & Hshow).
    { apply Z.div_pos; lia. }
    { rewrite Hdiv. exact Hlarge. }
    exists (low +:+ String (digitChar (n mod base)) "").
    split; [rewrite string_app_length, Hlen; cbn; lia |].
    replace (S fuel + S k)%nat with (S (S fuel + k)) by lia.
    rewrite showDigits_S. destruct (Z.eqb_spec (n / base) 0) as [| _]; [contradiction |].
    rewrite showDigits_app, Hshow, Hdiv.
    rewrite Nat2Z.inj_succ, Z.pow_succ_r by lia.
    rewrite string_app_assoc. reflexivity.
Qed.

(** More fuel than digits changes nothing. *)
Lemma showDigits_fuel base fuel more n acc :
  2 <= base -> 0 <= n < base ^ Z.of_nat (S fuel) ->
  showDigits base (S fuel + more) n acc = showDigits base (S fuel) n acc.
Proof.
  intros Hbase. revert n acc. induction fuel as [| fuel IH]; intros n acc Hn.
  - change (base ^ Z.of_nat 1) with (base ^ 1) in Hn. rewrite Z.pow_1_r in Hn.
    cbn [Nat.add]. rewrite !showDigits_S, Z.div_small by lia. reflexivity.
  - cbn [Nat.add]. rewrite (showDigits_S base (S fuel + more)), (showDigits_S base (S fuel)).
    destruct (n / base =? 0); [reflexivity |].
    apply IH. split; [apply Z.div_pos; lia |].
    apply Z.div_lt_upper_bound; [lia |].
    rewrite <- Z.pow_succ_r by lia. rewrite <- Nat2Z.inj_succ. lia.
Qed.

(** X25.  Of a hash with sixteen hexadecimal digits the name keeps the
    first eight: it is the upper half of the hash in hexadecimal, so that
    binaries whose hashes differ in the lower half only are written to
    the same file. *)
Theorem hex8_upper_half h :
  2 ^ 60 <= h < 2 ^ 64 -> hex8 h = showHex (h / 2 ^ 32).
Proof.
  intros Hh.
  assert (Hup : 2 ^ 28 <= h / 2 ^ 32 < 2 ^ 32).
  { split; [apply Z.div_le_lower_bound; lia | apply Z.div_lt_upper_bound; lia]. }
  destruct (showDigits_split 16 7 8 h) as (low & Hlow & Hshow); [lia | lia | |].
  { change (16 ^ Z.of_nat 8) with (2 ^ 32). lia. }
  change (16 ^ Z.of_nat 8) with (2 ^ 32) in Hshow.
  change (S 7 + 8)%nat with 16%nat in Hshow.
  assert (Hlen : String.length (showDigits 16 8 (h / 2 ^ 32) "") = 8%nat).
  { destruct (showDigits_split 16 0 7 (h / 2 ^ 32)) as (low' & Hlow' & Hshow'); [lia | lia | |].
    { change (16 ^ Z.of_nat 7) with (2 ^ 28).
      assert (1 <= h / 2 ^ 32 / 2 ^ 28) by (apply Z.div_le_lower_bound; lia). lia. }
    change (1 + 7)%nat with 8%nat in Hshow'. rewrite Hshow', string_app_length, Hlow'.
    rewrite showDigits_S. destruct (_ =? 0); reflexivity. }
  assert (Hsame : showHex (h / 2 ^ 32) = showDigits 16 8 (h / 2 ^ 32) "").
  { unfold showHex. apply (showDigits_fuel 16 7 8); [lia |].
    change (16 ^ Z.of_nat 8) with (2 ^ 32). lia. }
  unfold hex8. unfold showHex at 1 2. rewrite Hshow.
  rewrite string_app_length, Hlen, Hlow. cbn [Nat.sub replicate String.concat].
  rewrite string_app_empty_l, Hsame, <- Hlen at 1. apply substring_prefix.
Qed.

Lemma hex8_upper_half_witness :
  hex8 18364758544493064720 = showHex (18364758544493064720 / 2 ^ 32).
Proof. apply hex8_upper_half. lia. Defined.

(** Two hashes that share a file. *)
Example hex8_collision :
  hex8 18364758544493064720 = hex8 18364758544493064721.
Proof. reflexivity. Qed.

End BinaryName.

(** ** Formats and names *)

Section FormatTables.

Import Names.

Variable UNREACHABLE : result unit.

(** X26.  The names that go into the log tell the values apart: two
    formats with the same name are the same format, and so for the
    layouts and for the descriptor types. *)
Theorem names_tell_apart :
  (forall f1 f2, formatName f1 = formatName f2 -> f1 = f2) /\
  (forall l1 l2, layoutName l1 = layoutName l2 -> l1 = l2) /\
  (forall t1 t2 name,
      descriptorTypeName UNREACHABLE t1 = Ok name ->
      descriptorTypeName UNREACHABLE t2 = Ok name -> t1 = t2).
Proof.
  split; [| split].
  - intros [] []; cbn; intros H; try reflexivity; discriminate H.
  - intros [] []; cbn; intros H; try reflexivity; discriminate H.
  - intros [] [] name; cbn; destruct UNREACHABLE; cbn; intros H1 H2;
      try reflexivity; try discriminate H1; try discriminate H2;
      rewrite <- H2 in H1; discriminate H1.
Qed.

(** X27.  No format is a depth format and an sRGB format at once, and a
    pixel of a depth format takes two or four bytes. *)
Theorem depth_formats format :
  isDepthFormat UNREACHABLE format = Ok true ->
  issRGBFormat UNREACHABLE format = Ok false /\
  (formatSize UNREACHABLE format = Ok 2 \/ formatSize UNREACHABLE format = Ok 4).
Proof.
  destruct format; cbn; intros H; try discriminate H;
    try (split; [reflexivity | (by left) || (by right)]).
  destruct UNREACHABLE; discriminate H.
Qed.

End FormatTables.

Lemma names_tell_apart_witness :
  Names.Format.Depth24S8 = Names.Format.Depth24S8 /\ GL.Layout.TransferSrc = GL.Layout.TransferSrc /\
  GL.DescriptorType.Count = GL.DescriptorType.Count.
Proof.
  destruct (names_tell_apart (Ok tt)) as (Hformat & Hlayout & Htype).
  split; [| split].
  - apply Hformat. reflexivity.
  - apply Hlayout. reflexivity.
  - apply (Htype _ _ "Count"%string); reflexivity.
Defined.

Lemma depth_formats_witness :
  Names.issRGBFormat AssertFail Names.Format.Depth24S8 = Ok false /\
  (Names.formatSize AssertFail Names.Format.Depth24S8 = Ok 2 \/
   Names.formatSize AssertFail Names.Format.Depth24S8 = Ok 4).
Proof. apply depth_formats. reflexivity. Defined.
